(* ===== verification/_CoqProject ===== *)
-Q . S2P
Prelude.v
Prog.v
JsString.v
Css.v
Store.v
Dom.v
Page.v
Script.v
Calls.v
Events.v
Guests.v
Tree.v
Refinement.v
Build.v
