(* ===== verification/Prelude.v ===== *)
(** * Verification of the category-count badge script

    The program is [src/_resources/js/scripts.js]: twelve lines of browser
    JavaScript.  Line 1 registers a listener for the [DOMContentLoaded]
    event of the document.  When the browser dispatches the event the
    listener logs ["X"] (line 2), selects every element of class
    [quarto-category-count] (line 3), and for each of them in tree order
    (line 4) reads its text (line 5) and replaces it by the text without its
    first and last UTF-16 code unit (the parentheses of ["(5)"], line 7), or
    by the empty string when the text has at most one code unit (line 9).

    The parts interact through the page: the listener reads and writes the
    node store, the store decides what the selection returns and what the
    text of an element is, and the browser decides when and how often the
    listener runs.

    ** Parts of the program and the files that model them

    - [Prelude] (this file): what every component shares.  The outcome of a
      computation that may throw ([outcome]: [Done], [Throw], [Stuck]), the
      state-and-exception monad [M] in which the script's statements are
      written, its laws, the tactics [monad_simpl] and [case_outcome], the
      hint databases [js], the reference function [middle] (a list without
      its first and last element) and the generic lemmas on [take], [drop],
      [mapM], [filter] and [StronglySorted] lists.
    - [Prog]: programs of calls.  [prog E A] is a script as a finite tree
      of the calls [E] it makes of its host, each continued by a function
      of the answer; a [handler] gives the calls their meaning on a state,
      [run] is the computation of [M] a program is under a handler and
      [trace] the list of the calls it makes with their answers.  Programs
      are compared by [≡], equality of outcome and trace under every
      handler, for which they form a monad and [run] and [trace] are
      [Proper].
    - [JsString], module [Str]: JavaScript strings as lists of 16-bit code
      units.  [Str.length] is the [.length] of line 6, [Str.slice] the
      [String.prototype.slice] of line 7 with its clamping of negative and
      out-of-range indices ([Str.clamp]), [Str.strip] the value the [if] of
      lines 6-10 assigns.  Theorems: the length and contents of a slice on
      every branch, that [strip] removes exactly the first and the last code
      unit, that the [else] branch of the source is redundant, that [strip] is
      not idempotent and when it is, what iterating it does, that code units
      stay below [2^16], and exactly when the cut splits a surrogate pair
      ([Str.scalars] is the grammar of well-formed texts that
      [Str.well_formed] decides).
    - [Css], module [Css]: the string of line 3 and the class attribute.
      [Css.parse_selector] parses the string passed to [querySelectorAll]
      into [Css.parsed]: a class selector when it is a dot followed by an
      identifier ([Css.is_ident]: letters, digits, [_] and [-], not
      starting with a digit, with two hyphens, or with a hyphen and a
      digit), [Css.Invalid] when it is empty or a dot followed by
      identifier characters that are no identifier (the browser throws
      [SyntaxError]), [Css.Unsupported] otherwise.  [Css.classList] splits
      a class attribute at ASCII whitespace and [Css.matches] looks the
      name of the selector up among the class names.  Theorems: the class
      names are runs of non-separators that together hold every
      non-separator of the attribute, writing names with one space between
      them and reading them back is the identity, and a selector matches
      whole names only.
    - [Store]: the interface between the loop and the document.  The
      class [TextStore] names the operations the loop calls (the getter
      and the setter of [textContent]) and what the statements are about
      (well-formedness, elements, containment); [TextStoreLaws] states
      what the loop relies on.  [cut_all] is the loop of lines 4-11 as a
      function of the store, and [cut_all_spec] its correctness from the
      laws alone.  Instances: the node store of [Dom] ([Dom.dom_store],
      whose laws are the lemmas of [Dom] on one assignment) and a flat list
      of texts ([flat_store]).
    - [Dom], module [Dom]: the node store.  A page is a finite map from node
      identities to nodes ([Dom.node]: document, element with its class
      attribute and children, text, comment); a [NodeList] is a list of
      identities, so a node that is detached from the tree is still in the
      store and still in a list that was taken before.  [Dom.preorder] is
      the traversal in tree order, [Dom.textContent] the getter of line 5
      (null on a document), [Dom.set_textContent] the setter of lines 7 and 9
      (the children are replaced by one fresh text node, or by nothing for
      the empty string), [Dom.querySelectorAll] the selection of line 3,
      with [Dom.matches] for the elements a selector of [Css] matches.
      The invariant is [Dom.forest]: every child is in the store
      ([Dom.closed]), some rank decreases from every node to its children,
      so no node is its own descendant ([Dom.acyclic]), and no node has two
      parents or occurs twice among the children of one ([Dom.tree_like]);
      it is decidable, so concrete stores are checked by computation.  The
      typing is [Dom.typed]: every class attribute and every text is a
      string of 16-bit code units.  Tree order is the relation
      [Dom.precedes], defined on the store without reference to the
      traversal: a node precedes the nodes inside it, and the nodes inside
      a child of a node precede those inside a later child of that node.
      On a forest it never holds both ways ([Dom.precedes_asym]) and
      orders any two nodes of a tree ([Dom.precedes_total]), so a list
      sorted by it is determined by its elements.  [Dom.before] is
      the coarser relation the loop needs of its list (no node after a
      node inside it).
      Theorems: the traversal ends and lists exactly the descendants; the
      setter keeps the invariant and the typing, detaches the old
      children, changes the text of the element to what was assigned and
      of no node outside its ancestors; the traversal and the selection
      are sorted by [Dom.precedes], and the selection is the one list that
      holds the matching descendants in tree order.
    - [Page]: the state the script runs against (record [page]: store,
      document, console, listeners, ready state) and the calls of the script
      as computations of [M page]: [Console.log], [Document.querySelectorAll],
      [Document.addEventListener], [Node.textContent],
      [Node.set_textContent], [NodeList.forEach].  [page_wf] is the
      invariant of a page, [page_typed] its typing.  Theorems: registering
      the same function object twice is registering it once; the call of
      line 3 returns, in tree order, the elements inside the document that
      have [quarto-category-count] among their class names, and leaves the
      page as it is.
    - [Script]: the script itself.  [count_callback] is the arrow function
      of lines 4-11 statement by statement, [DOMContentLoaded_listener] the
      function of lines 1-12, [script] the registration of line 1.
      [forEach] with the callback is shown to be [cut_all Str.strip] on the
      store of the page, so what the loop does to the texts comes from
      [Store]; what it does to the nodes is the record [changed], and
      [looped] holds both.  Theorems: on a well-formed page the listener
      completes without exception, every selected element ends with
      [Str.strip] of the text it had when the listener started (a badge
      inside a badge included: the outer one is cut first, which detaches
      the inner one, which is cut all the same), nothing else changes, the
      page stays well formed and well typed, and with no badge only the
      console changes; on a node with null text the callback throws
      [TypeError].
    - [Calls]: the script as a program of calls.  [call] is the signature
      of the five calls of the file, [listener_prog], [count_prog],
      [forEach_prog] and [script_prog] the functions of the source as trees
      of calls, [browser] the handler that answers each call with the
      operation of [Page].  Under [browser] the programs are the
      computations of [Script] ([run_listener_prog]), so both views are of
      the same listener.  [text_host] is what the loop needs of a host:
      that it answers the two text calls from a store; the browser and
      every store of [Store] are such hosts, and on each the loop ends with
      the store [cut_all] computes after the calls [cut_reads] lists
      ([host_forEach]).  Theorems: the calls of the listener on a
      well-formed page, in order, each read returning the text the badge
      had before the loop started; the number of calls, at most twice the
      number of nodes; no host tells the callback from the one without the
      conditional ([count_prog_slice]).
    - [Events]: the browser side of line 1, which is not code of the
      repository and is modelled from the DOM and HTML standards:
      [dispatchEvent] calls the listeners of a type in registration order
      ([invoke_all]), an exception of one listener does not stop the others
      ([invoke]); the ready-state machine is the labelled step relation
      [step] with the events [Parse], [RunScript], [Parsed] and [Loaded],
      and [steps] its runs.  Theorems, about every run from an [initial]
      page: the invariant [inv]; the typing [page_typed], when the stores
      the parser delivers are typed ([event_typed]); the script evaluated
      once, in the head or in the body, strips every badge of the parsed
      page exactly once; the script evaluated twice strips twice; a script
      evaluated after the parser is done never runs; [DOMContentLoaded] is
      dispatched at most once; the parser can always finish; a page and a
      sequence of events have at most one outcome.

    - [Guests]: the page shared with other scripts.  The dispatch of
      [Events] over any listeners ([dispatch_with]): the body of a function
      object of another script is the parameter [guest] of the section, a
      listener removed since the dispatch started is skipped
      ([invoke_listener]), an exception is reported and the dispatch goes
      on.  Nothing is modelled of the code of the guests; the theorems
      assume that a guest is [polite] (it returns or throws, leaves the
      page well formed and removes no listener) or [quiet] (it also leaves
      the document alone).  Theorems: among polite guests the dispatch
      completes and the listener of this file runs in its turn, on the
      page the listeners before it left; among quiet guests the store the
      dispatch leaves is the one the listeners of this file make on their
      own ([guests_do_not_disturb]), and so for a page load in the machine
      [gstep], in which other scripts register listeners in any order;
      without guests the dispatch and the machine are those of [Events]
      ([dispatch_with_no_guest], [step_gstep]).  The example
      [rude_guest_dispatch] shows what the assumption on the listeners is
      for.
    - [Tree], module [Tree]: the abstract view, the page as an inductive
      tree with no identities, no store and no fuel.  [Tree.cut f sel] is
      what lines 3-11 do to it: every element that matches, met from the
      root down, gets [f] of its text as its only child.  Theorems: trees
      without a match are unchanged, matches are flat afterwards, two cuts
      are the cut by the composition, and after [n + 1] runs every
      outermost badge has lost [n + 1] code units on each side.
    - [Refinement]: [to_tree] reads the tree below a node out of the store
      and [abstract] is the tree of a page.  Theorems: the text of a node
      of the store is the text of its tree; the listener on the store
      refines [Tree.cut Str.strip] ([listener_refines]); the end of parsing
      with [n] registered listeners leaves the tree cut by [n] strips
      ([parsed_refines]).  [same_tree] relates the well-formed pages with
      the same tree; it is a partial equivalence, and the listener and its
      iterates are [Proper] for it, so a page may be replaced by any page
      with its tree.
    - [Build]: the converse.  [of_tree n t] lays the tree [t] out in a
      store, its nodes numbered in tree order from [n] on, and [page_of] is
      the page of a tree.  The invariant of the construction is [laid]:
      the store holds an interval of identities, children follow their
      parent inside it, no node has two parents.  Theorems: the store of a
      tree is a forest of as many nodes as the tree and reads back as the
      tree; every document tree is the tree of a well-formed page on which
      the listener computes the cut; the listener on a page and on the
      page built from its tree leave the same tree.

    ** How the definitions relate to the source

    The twelve lines are calls of the language and of the browser, so the
    definitions are of three kinds.  [count_callback],
    [DOMContentLoaded_listener], [script], [Str.strip] and the programs of
    [Calls] translate the statements of the source.  The operations the
    source calls by name ([Str.length], [Str.slice], [Dom.textContent],
    [Dom.set_textContent], [Dom.querySelectorAll], the calls of [Page])
    are at the lines of their calls; their code is the language's and the
    browser's, and the definitions follow the ECMAScript, DOM and
    Selectors standards.  What the browser computes behind a call and the
    source never names (the traversal, the tokenizer and the grammar of
    identifiers, the resolution of the indices of [slice]), the dispatch
    of events and the ready-state machine are modelled from the same
    standards.  [Tree] and the hosts of [Calls] are specifications: they
    say what the script is to do and are tied to it by the refinement
    theorems.

    ** Integers, bounds and fuel

    Code units are [N] with the invariant [Str.wf] (every unit below [2^16]);
    the typing of a store ([Dom.typed]), of a page ([page_typed]) and of a
    tree ([Tree.typed]) say that every string is one, and the three agree
    ([to_tree_typed], [of_tree_typed]).
    Indices given to [slice] are [Z], as the source passes the literals [1] and
    [-1]; lengths are [Z.of_nat] of the list length.

    The traversal [Dom.preorder] recurses on fuel, since the store is a map
    and not an inductive tree.  Every call passes [size h], the number of
    nodes of the store.  This is enough: on an acyclic store the nodes
    whose rank is at most that of a child are strictly fewer than those
    whose rank is at most that of its parent ([Dom.below],
    [Dom.preorder_total_below]), so a traversal never nests deeper than the
    store has nodes: [Dom.preorder_total] gives a result with this fuel and
    [Dom.preorder_fuel_ge] shows that more fuel gives the same.  On a store
    with a cycle the traversal runs out of fuel and the caller is [Stuck]
    ([Dom.cyclic_store_stuck]); the invariant excludes it.  [to_tree] takes
    the same fuel and ends wherever [Dom.preorder] does
    ([to_tree_preorder]); the cut never deepens a tree, so the fuel that
    reads the tree before the listener reads it afterwards
    ([to_tree_cut]).  On the store [of_tree] builds the fuel is the number
    of nodes of the tree ([of_tree_size]), which reads the whole tree back
    ([of_tree_built]).

    ** Outcomes

    [Done] and [Throw] are what the program does: [Throw TypeError] is
    the reading of [.length] on null (line 6), [Throw SyntaxError] the
    selection with a string that is no selector (line 3).  [Stuck] marks
    inputs outside the model (a selector of the grammar that is not a
    class selector, a node that is not in the store).  The theorems on the
    listener show that a well-formed page never leads to [Stuck] or
    [Throw]: the string of line 3 parses ([badge_selector_parse]).

    ** Not modelled

    The HTML parser that builds the page, rendering and layout, and the
    network: the script reads none of them.  The machine takes the store
    the parser has built as the label of the [Parse] step, and lets it be
    any well-formed store, where a parser only adds to the document; the
    machine therefore has more runs than a browser, and what the theorems
    show of every run they show of the runs of a browser.  Selectors other than a single
    class selector (type, id and attribute selectors, combinators, selector
    lists, escapes and non-ASCII identifiers): the grammar is the
    browser's, no code of the repository, and the script passes one
    constant string, which is a class selector; the selection is therefore
    modelled in part, and the part is all the script uses.  Attributes
    other than [class], documents in quirks mode (where class names match
    without regard to case), and event propagation (the listener is on the
    document, the event's target, so capture and bubbling do not show).
    Node kinds the three calls do not distinguish from those of
    [Dom.node]: a doctype is a leaf with null text that is never selected,
    a CDATA section is a text, a processing instruction a comment.
    The code of other scripts: the machine of [Events] holds the listeners
    of this file only, and [Guests] takes the listeners of other scripts
    as a parameter and assumes of them what its theorems say; what a
    script of another file does while it is evaluated is outside the
    model. *)

From stdpp Require Import list option numbers sorting.

(** ** Outcomes and the script monad *)

(** The exceptions the calls of the script can raise. *)
Inductive exn : Type :=
| TypeError
| SyntaxError.

#[export] Instance exn_eq_dec : EqDecision exn.
Proof. solve_decision. Defined.

(** What running a piece of the script on a state [S] gives: a value and the
    new state, an exception together with the state reached when it was
    thrown (mutations made before a throw persist), or [Stuck] when the model
    ran out of fuel or met a dangling node. *)
Inductive outcome (S A : Type) : Type :=
| Done (a : A) (s : S)
| Throw (e : exn) (s : S)
| Stuck.
Arguments Done {S A} a s.
Arguments Throw {S A} e s.
Arguments Stuck {S A}.

Definition M (S A : Type) : Type := S → outcome S A.

Definition m_ret {S A} (a : A) : M S A := λ s, Done a s.

Definition m_bind {S A B} (c : M S A) (k : A → M S B) : M S B :=
  λ s, match c s with
       | Done a s' => k a s'
       | Throw e s' => Throw e s'
       | Stuck => Stuck
       end.

Definition m_get {S} : M S S := λ s, Done s s.
Definition m_put {S} (s : S) : M S unit := λ _, Done tt s.
Definition m_modify {S} (f : S → S) : M S unit := λ s, Done tt (f s).
Definition m_throw {S A} (e : exn) : M S A := λ s, Throw e s.
Definition m_stuck {S A} : M S A := λ _, Stuck.

#[export] Instance M_ret {S} : MRet (M S) := @m_ret S.
#[export] Instance M_bind {S} : MBind (M S) := λ A B k c, m_bind c k.

(** The final state of an outcome, when there is one. *)
Definition final_state {S A} (o : outcome S A) : option S :=
  match o with
  | Done _ s | Throw _ s => Some s
  | Stuck => None
  end.

Definition is_done {S A} (o : outcome S A) : bool :=
  match o with Done _ _ => true | _ => false end.

(** ** Tactics and hint databases *)

Create HintDb js discriminated.
Create Rewrite HintDb js.

Ltac monad_unfold :=
  unfold mbind, mret, M_bind, M_ret, m_bind, m_ret, m_get, m_put, m_modify,
    m_throw, m_stuck in *.

Ltac case_outcome :=
  match goal with
  | |- context [match ?c ?s with Done _ _ => _ | Throw _ _ => _ | Stuck => _ end] =>
      let E := fresh "E" in destruct (c s) as [? ?|? ?|] eqn:E
  | H : context [match ?c ?s with Done _ _ => _ | Throw _ _ => _ | Stuck => _ end] |- _ =>
      let E := fresh "E" in destruct (c s) as [? ?|? ?|] eqn:E
  end.

Ltac monad_simpl := monad_unfold; simpl in *; repeat (case_outcome; simpl in *).

(** Case analysis on the integer comparisons of the source ([>], [>=], [<],
    [<=] on [Z]), leaving their meaning as hypotheses for [lia]. *)
Ltac case_zbool :=
  rewrite ?Z.geb_leb, ?Z.gtb_ltb in *;
  repeat match goal with
    | |- context [(?a <=? ?b)%Z] => destruct (Z.leb_spec a b)
    | |- context [(?a <? ?b)%Z] => destruct (Z.ltb_spec a b)
    | H : context [(?a <=? ?b)%Z] |- _ => destruct (Z.leb_spec a b)
    | H : context [(?a <? ?b)%Z] |- _ => destruct (Z.ltb_spec a b)
    end.

(** ** Monad laws, pointwise *)

Section monad_laws.
Context {S A B C : Type}.
Implicit Types (s : S) (a : A) (c : M S A) (k : A → M S B) (h : B → M S C).

Lemma m_bind_ret_l a k s : (mret a ≫= k) s = k a s.
Proof. reflexivity. Qed.

Lemma m_bind_ret_r c s : (c ≫= mret) s = c s.
Proof. monad_unfold. by destruct (c s). Qed.

Lemma m_bind_assoc c k h s : ((c ≫= k) ≫= h) s = (c ≫= (λ a, k a ≫= h)) s.
Proof. monad_unfold. by destruct (c s). Qed.

Lemma m_bind_done c k s a s' : c s = Done a s' → (c ≫= k) s = k a s'.
Proof. monad_unfold. by intros ->. Qed.

Lemma m_bind_throw c k s e s' : c s = Throw e s' → (c ≫= k) s = Throw e s'.
Proof. monad_unfold. by intros ->. Qed.

Lemma m_bind_stuck c k s : c s = Stuck → (c ≫= k) s = Stuck.
Proof. monad_unfold. by intros ->. Qed.

(** Two computations that agree on a state, continued by functions that
    agree everywhere, agree on that state. *)
Lemma m_bind_ext c c' k k' s :
  c s = c' s → (∀ a s', k a s' = k' a s') → (c ≫= k) s = (c' ≫= k') s.
Proof. monad_unfold. intros -> Hk. by destruct (c' s). Qed.

End monad_laws.

#[export] Hint Rewrite @m_bind_ret_l @m_bind_ret_r : js.

(** ** Lists: [take], [drop], [tail] and [removelast] *)

Section lists.
Context {A : Type}.
Implicit Types (l m : list A) (x y : A) (i n : nat).

Lemma drop_1_tail l : drop 1 l = tail l.
Proof. by destruct l. Qed.

Lemma take_pred_removelast l : take (length l - 1) l = removelast l.
Proof. rewrite removelast_firstn_len. f_equal. lia. Qed.

Lemma length_removelast l : length (removelast l) = length l - 1.
Proof. rewrite <-take_pred_removelast, length_take. lia. Qed.

Lemma length_tail l : length (tail l) = length l - 1.
Proof. destruct l; simpl; lia. Qed.

(** The middle of a list: what is left when the first and the last element
    go.  [middle [a; b; c] = [b]], [middle [a] = []]. *)
Definition middle l : list A := removelast (tail l).

Lemma middle_take_drop l : middle l = take (length l - 2) (drop 1 l).
Proof.
  unfold middle. rewrite drop_1_tail, <-take_pred_removelast, length_tail.
  f_equal. lia.
Qed.

Lemma length_middle l : length (middle l) = length l - 2.
Proof. unfold middle. rewrite length_removelast, length_tail. lia. Qed.

Lemma middle_cons_snoc x m y : middle (x :: m ++ [y]) = m.
Proof. unfold middle. simpl. apply removelast_last. Qed.

Lemma middle_short l : length l ≤ 2 → middle l = [].
Proof.
  intros Hl. apply nil_length_inv. rewrite length_middle. lia.
Qed.

Lemma middle_lookup l i : i < length l - 2 → middle l !! i = l !! S i.
Proof.
  intros Hi. rewrite middle_take_drop, lookup_take_lt, lookup_drop by lia.
  done.
Qed.

(** A list of length at least two splits as first, middle, last. *)
Lemma middle_split l :
  2 ≤ length l → ∃ x y, l = x :: middle l ++ [y].
Proof.
  intros Hl. destruct l as [|x l]; simpl in Hl; [lia|].
  destruct (decide (l = [])) as [->|Hne]; [simpl in Hl; lia|].
  exists x, (List.last l x). unfold middle. simpl.
  by rewrite <-app_removelast_last.
Qed.

Lemma Forall_middle (P : A → Prop) l : Forall P l → Forall P (middle l).
Proof.
  intros Hl. rewrite middle_take_drop. by apply Forall_take, Forall_drop.
Qed.

End lists.

(** ** [mapM] over [option] *)

Section mapM.
Context {A B : Type}.
Implicit Types (f g : A → option B) (l : list A) (k : list B).

Lemma mapM_Some_elem_of_l f l k x :
  mapM f l = Some k → x ∈ l → ∃ y, f x = Some y ∧ y ∈ k.
Proof.
  rewrite mapM_Some. intros HF [i Hi]%list_elem_of_lookup.
  destruct (Forall2_lookup_l _ _ _ _ _ HF Hi) as (y & Hy & Hxy).
  exists y. split; [done|]. by eapply list_elem_of_lookup_2.
Qed.

Lemma mapM_Some_elem_of_r f l k y :
  mapM f l = Some k → y ∈ k → ∃ x, x ∈ l ∧ f x = Some y.
Proof.
  rewrite mapM_Some. intros HF [i Hi]%list_elem_of_lookup.
  destruct (Forall2_lookup_r _ _ _ _ _ HF Hi) as (x & Hx & Hxy).
  exists x. split; [|done]. by eapply list_elem_of_lookup_2.
Qed.

(** Replacing the function by one that succeeds with the same values on
    the list keeps the result. *)
Lemma mapM_Some_impl f g l k :
  (∀ x y, x ∈ l → f x = Some y → g x = Some y) →
  mapM f l = Some k → mapM g l = Some k.
Proof.
  rewrite !mapM_Some. intros Hfg HF.
  induction HF as [|x y l k Hxy HF IH]; constructor.
  - apply Hfg; [apply list_elem_of_here|done].
  - apply IH. intros x' y' Hx'. apply Hfg. by apply list_elem_of_further.
Qed.

Lemma mapM_ext_elem_of f g l :
  (∀ x, x ∈ l → f x = g x) → mapM f l = mapM g l.
Proof. intros Hfg. apply Forall_mapM_ext, list.Forall_forall, Hfg. Qed.

Lemma mapM_is_Some_elem_of f l :
  (∀ x, x ∈ l → is_Some (f x)) → is_Some (mapM f l).
Proof. intros Hf. apply mapM_is_Some, list.Forall_forall, Hf. Qed.

End mapM.

(** The concatenation of the lists computed from the elements of a list
    is sorted when each list is and the elements of the list of an earlier
    position are related to those of the list of a later one. *)
Lemma mapM_join_sorted_lookup {A B} (R : relation B) (f : A → option (list B))
    (l : list A) (ls : list (list B)) :
  mapM f l = Some ls →
  (∀ x k, x ∈ l → f x = Some k → StronglySorted R k) →
  (∀ i j x x' k k' y y', l !! i = Some x → l !! j = Some x' → i < j →
     f x = Some k → f x' = Some k' → y ∈ k → y' ∈ k' → R y y') →
  StronglySorted R (mjoin ls).
Proof.
  rewrite mapM_Some. intros Hls.
  induction Hls as [|x k l ls Hk Hls IH]; intros Hsorted Hcross.
  { constructor. }
  simpl. apply StronglySorted_app_2.
  - intros y y' Hy (k' & Hy' & Hk')%list_elem_of_join.
    apply mapM_Some in Hls.
    destruct (mapM_Some_elem_of_r _ _ _ _ Hls Hk') as (x' & [j Hj]%list_elem_of_lookup & Hfx').
    by eapply (Hcross 0 (S j) x x'); eauto with lia.
  - eapply Hsorted; [apply list_elem_of_here|done].
  - apply IH; [eauto using list_elem_of_further|].
    intros i j **. by eapply (Hcross (S i) (S j)); eauto with lia.
Qed.

Lemma length_join_elem_of {A} (l : list A) (ls : list (list A)) :
  l ∈ ls → length l ≤ length (mjoin ls).
Proof.
  induction 1 as [l ls|l k ls _ IH]; simpl; rewrite length_app; lia.
Qed.

Lemma fmap_ext_Forall {A B} (f1 f2 : A → B) (l : list A) :
  Forall (λ x, f1 x = f2 x) l → f1 <$> l = f2 <$> l.
Proof. induction 1; simpl; by f_equal. Qed.

Lemma fmap_id_Forall {A} (f : A → A) (l : list A) :
  Forall (λ x, f x = x) l → f <$> l = l.
Proof. induction 1; simpl; by f_equal. Qed.

Lemma Forall_mp {A} (P Q : A → Prop) (l : list A) :
  Forall (λ x, P x → Q x) l → Forall P l → Forall Q l.
Proof. rewrite !list.Forall_forall. auto. Qed.

Lemma forallb_Forall {A} (b : A → bool) (l : list A) :
  forallb b l = true ↔ Forall (λ x, b x = true) l.
Proof.
  induction l as [|x l IH]; simpl; [by split; [constructor|]|].
  rewrite andb_true_iff, IH. split; [intros [??]; by constructor|by inversion 1].
Qed.

(** [mapM] of two functions whose results are related on the list. *)
Lemma mapM_Some_rel {A B C} (f : A → option B) (g : A → option C)
    (R : B → C → Prop) (l : list A) (ks : list B) :
  (∀ x y, x ∈ l → f x = Some y → ∃ z, g x = Some z ∧ R y z) →
  mapM f l = Some ks → ∃ zs, mapM g l = Some zs ∧ Forall2 R ks zs.
Proof.
  rewrite mapM_Some. intros Hfg HF. induction HF as [|x y l ks Hxy HF IH].
  { exists []. by split; [|constructor]. }
  pose proof (Hfg x y (list_elem_of_here _ _) Hxy) as (z&Hz&Hyz).
  assert (∀ x' y', x' ∈ l → f x' = Some y' → ∃ z, g x' = Some z ∧ R y' z) as Hl.
  { intros x' y' Hx'. apply Hfg. by apply list_elem_of_further. }
  destruct (IH Hl) as (zs&Hzs&HR). exists (z :: zs). split; [|by constructor].
  apply mapM_Some. constructor; [done|by apply mapM_Some].
Qed.

Lemma mapM_Some_fmap {A B C} (f : A → option B) (g : A → option C)
    (k : B → C) (l : list A) (ks : list B) :
  (∀ x y, x ∈ l → f x = Some y → g x = Some (k y)) →
  mapM f l = Some ks → mapM g l = Some (k <$> ks).
Proof.
  intros Hfg Hks.
  destruct (mapM_Some_rel f g (λ y z, z = k y) l ks) as (zs&->&HR); [by eauto|done|].
  clear Hks. f_equal. induction HR; simpl; by f_equal.
Qed.

Lemma fmap_join {A B} (f : A → B) (ls : list (list A)) :
  f <$> mjoin ls = mjoin (fmap f <$> ls).
Proof. induction ls as [|l ls IH]; simpl; [done|]. by rewrite fmap_app, IH. Qed.

Lemma filter_nil_intro {A} (P : A → Prop) `{!∀ x, Decision (P x)} (l : list A) :
  (∀ x, x ∈ l → ¬ P x) → filter P l = [].
Proof.
  induction l as [|a l IH]; intros Hl; [done|].
  rewrite filter_cons_False by (apply Hl; left).
  apply IH. intros x Hx. apply Hl. by right.
Qed.

(** A list of pairs that pairs each element of a list with something
    related to it is the zip of the list and of what it is paired with. *)
Lemma Forall2_zip_snd {A B} (P : A → B → Prop) (l : list A) (rs : list (A * B)) :
  Forall2 (λ x r, r.1 = x ∧ P x r.2) l rs → rs = zip l rs.*2 ∧ Forall2 P l rs.*2.
Proof.
  induction 1 as [|x [y t] l rs [Hx Ht] _ [IH1 IH2]]; [done|]. simpl in *. subst.
  split; [by f_equal|by constructor].
Qed.

(** A relation between two lists, changed on the elements of the first
    that have a property. *)
Lemma Forall2_impl_Forall_l {A B} (Q : A → Prop) (P P' : A → B → Prop) l k :
  Forall Q l → Forall2 P l k → (∀ x y, Q x → P x y → P' x y) → Forall2 P' l k.
Proof.
  intros HQ HP Himpl. induction HP as [|x y l k Hxy _ IH]; [constructor|].
  apply list.Forall_cons in HQ as [Hx HQ]. constructor; auto.
Qed.

Lemma StronglySorted_impl_elem_of {A} (R R' : relation A) (l : list A) :
  (∀ x y, x ∈ l → y ∈ l → R x y → R' x y) →
  StronglySorted R l → StronglySorted R' l.
Proof.
  intros HR Hl. induction Hl as [|x l Hl IH Hx]; constructor.
  - apply IH. eauto using list_elem_of_further.
  - rewrite list.Forall_forall in *.
    eauto using list_elem_of_here, list_elem_of_further.
Qed.

Lemma StronglySorted_NoDup {A} (R : relation A) (l : list A) :
  (∀ x, ¬ R x x) → StronglySorted R l → NoDup l.
Proof.
  intros Hirr Hl. induction Hl as [|x l Hl IH Hx]; constructor; [|done].
  rewrite list.Forall_forall in Hx. intros Hin. by apply (Hirr x), Hx.
Qed.

(** A list sorted by a relation that never holds both ways is determined
    by its elements. *)
Lemma StronglySorted_unique {A} (R : relation A) (l k : list A) :
  (∀ x y, R x y → ¬ R y x) →
  StronglySorted R l → StronglySorted R k → (∀ x, x ∈ l ↔ x ∈ k) → l = k.
Proof.
  intros Hasym Hl. revert k.
  induction Hl as [|a l Hl IH Ha]; intros k Hk Heq.
  { destruct k as [|b k]; [done|]. exfalso. apply (elem_of_nil b), Heq. by left. }
  destruct Hk as [|b k Hk Hb].
  { exfalso. apply (elem_of_nil a), Heq. by left. }
  rewrite list.Forall_forall in Ha, Hb.
  assert (a = b) as <-.
  { assert (a ∈ b :: k) as [->|Hak]%elem_of_cons by (apply Heq; by left); [done|].
    assert (b ∈ a :: l) as [->|Hbl]%elem_of_cons by (apply Heq; by left); [done|].
    destruct (Hasym a b); auto. }
  f_equal. apply IH; [done|]. intros x. split; intros Hx.
  - assert (x ∈ a :: k) as [->|]%elem_of_cons by (apply Heq; by right); [|done].
    destruct (Hasym a a); auto.
  - assert (x ∈ a :: l) as [->|]%elem_of_cons by (apply Heq; by right); [|done].
    destruct (Hasym a a); auto.
Qed.

(** Two elements of a sorted list are related, one way or the other. *)
Lemma StronglySorted_total {A} (R : relation A) (l : list A) x y :
  StronglySorted R l → x ∈ l → y ∈ l → x = y ∨ R x y ∨ R y x.
Proof.
  induction 1 as [|a l Hl IH Ha]; [by intros ?%elem_of_nil|].
  rewrite list.Forall_forall in Ha.
  intros [->|Hx]%elem_of_cons [->|Hy]%elem_of_cons; auto.
Qed.

Lemma StronglySorted_sublist {A} (R : relation A) (k l : list A) :
  k `sublist_of` l → StronglySorted R l → StronglySorted R k.
Proof.
  induction 1 as [|x k l Hkl IH|x k l Hkl IH];
    rewrite ?StronglySorted_cons; [done|..]; intros [Hx Hl].
  - split; [|by apply IH]. rewrite list.Forall_forall in *.
    eauto using elem_of_sublist.
  - by apply IH.
Qed.

#[export] Hint Rewrite @length_middle @length_take @length_drop @length_app : js.
#[export] Hint Resolve Forall_middle Forall_take Forall_drop : js.
