(* ===== verification/Prog.v ===== *)
(** * Programs of calls

    A script reaches its host through calls: each call is made, the host
    answers, and the script goes on with the answer.  [prog E A] is such a
    script as a tree: [E X] are the calls that are answered by an [X], a
    node [Call c k] makes the call [c] and continues with [k] of the
    answer, a leaf returns a value or raises an exception of the script's
    own.  The tree says which calls the script makes and in which order,
    and nothing about what they do: a [handler] gives the calls their
    meaning on a state, [run] is the computation of [M] a program is under
    a handler, and [trace] the calls it makes with their answers.

    The script of [src/_resources/js/scripts.js] always ends, so its tree
    is finite and the type is inductive: programs are run by structural
    recursion, without fuel. *)

From stdpp Require Import list option numbers.
From S2P Require Import Prelude.

(** ** Programs *)

Inductive prog (E : Type → Type) (A : Type) : Type :=
| Ret (a : A)
| Raise (e : exn)
| Call {X : Type} (c : E X) (k : X → prog E A).
Arguments Ret {E A} a.
Arguments Raise {E A} e.
Arguments Call {E A X} c k.

(** Sequencing: the continuation is grafted on every leaf that returns. *)
Fixpoint prog_bind {E A B} (m : prog E A) (f : A → prog E B) : prog E B :=
  match m with
  | Ret a => f a
  | Raise e => Raise e
  | Call c k => Call c (λ x, prog_bind (k x) f)
  end.

#[global] Instance prog_ret {E} : MRet (prog E) := λ A, Ret.
#[global] Instance prog_mbind {E} : MBind (prog E) := λ A B f m, prog_bind m f.

(** The program that makes one call and returns its answer. *)
Definition perform {E X} (c : E X) : prog E X := Call c Ret.

(** ** Handlers, runs and traces *)

(** The meaning of the calls on a state [S]. *)
Definition handler (E : Type → Type) (S : Type) : Type := ∀ X, E X → M S X.

(** A program under a handler. *)
Fixpoint run {E S A} (h : handler E S) (m : prog E A) : M S A :=
  match m with
  | Ret a => mret a
  | Raise e => m_throw e
  | Call c k => x ← h _ c; run h (k x)
  end.

(** An entry of a trace: a call with its answer, or a call that threw. *)
Inductive entry (E : Type → Type) : Type :=
| Answered {X : Type} (c : E X) (x : X)
| Refused {X : Type} (c : E X) (e : exn).
Arguments Answered {E X} c x.
Arguments Refused {E X} c e.

(** The calls a program makes from a state, in order.  A call that throws
    is the last; a call outside the model ends the trace before it. *)
Fixpoint trace {E S A} (h : handler E S) (m : prog E A) (s : S) : list (entry E) :=
  match m with
  | Ret _ | Raise _ => []
  | Call c k =>
      match h _ c s with
      | Done x s' => Answered c x :: trace h (k x) s'
      | Throw e _ => [Refused c e]
      | Stuck => []
      end
  end.

(** The trace of what follows an outcome. *)
Definition trace_after {E S A B} (h : handler E S) (o : outcome S A) (f : A → prog E B) :
    list (entry E) :=
  match o with
  | Done a s => trace h (f a) s
  | _ => []
  end.

(** Two programs are equivalent when no handler tells them apart, by the
    outcome or by the trace. *)
#[global] Instance prog_equiv {E A} : Equiv (prog E A) := λ m1 m2,
  ∀ S (h : handler E S) (s : S), run h m1 s = run h m2 s ∧ trace h m1 s = trace h m2 s.

(** ** Laws *)

Section laws.
Context {E : Type → Type} {S : Type}.
Implicit Types (h : handler E S) (s : S).

Lemma run_perform {X} h (c : E X) s : run h (perform c) s = h X c s.
Proof. simpl. apply m_bind_ret_r. Qed.

Lemma trace_perform {X} h (c : E X) s :
  trace h (perform c) s =
    match h X c s with
    | Done x _ => [Answered c x]
    | Throw e _ => [Refused c e]
    | Stuck => []
    end.
Proof. simpl. by destruct (h X c s). Qed.

(** Running a sequence is running its parts in sequence. *)
Lemma run_bind {A B} h (m : prog E A) (f : A → prog E B) s :
  run h (m ≫= f) s = (run h m ≫= λ a, run h (f a)) s.
Proof.
  revert s. induction m as [a|e|X c k IH]; intros s; [done..|].
  change (run h (Call c k ≫= f) s) with ((h X c ≫= λ x, run h (k x ≫= f)) s).
  simpl run. rewrite m_bind_assoc. by apply m_bind_ext.
Qed.

(** The trace of a sequence is the trace of its first part, followed by
    the trace of the second from where the first ended. *)
Lemma trace_bind {A B} h (m : prog E A) (f : A → prog E B) s :
  trace h (m ≫= f) s = trace h m s ++ trace_after h (run h m s) f.
Proof.
  revert s. induction m as [a|e|X c k IH]; intros s; [done..|].
  change (trace h (Call c k ≫= f) s)
    with (match h X c s with
          | Done x s' => Answered c x :: trace h (k x ≫= f) s'
          | Throw e _ => [Refused c e]
          | Stuck => []
          end).
  simpl. monad_unfold. destruct (h X c s) as [x s'|e s'|]; [|done..].
  by rewrite IH.
Qed.

(** A call that is answered goes first in the run and in the trace. *)
Lemma run_call_done {A X} h (c : E X) (k : X → prog E A) s x s' :
  h X c s = Done x s' → run h (Call c k) s = run h (k x) s'.
Proof. intros Hc. simpl. by rewrite (m_bind_done _ _ _ _ _ Hc). Qed.

Lemma trace_call_done {A X} h (c : E X) (k : X → prog E A) s x s' :
  h X c s = Done x s' → trace h (Call c k) s = Answered c x :: trace h (k x) s'.
Proof. intros Hc. simpl. by rewrite Hc. Qed.

End laws.

(** ** Programs form a monad, up to equivalence *)

Section monad.
Context {E : Type → Type}.

#[global] Instance prog_equivalence {A} : Equivalence (≡@{prog E A}).
Proof.
  split.
  - by intros m S h s.
  - intros m1 m2 H12 S h s. by destruct (H12 S h s).
  - intros m1 m2 m3 H12 H23 S h s.
    destruct (H12 S h s) as [-> ->]. apply H23.
Qed.

#[global] Instance run_proper {S A} (h : handler E S) :
  Proper ((≡) ==> (=) ==> (=)) (run (A:=A) h).
Proof. intros m1 m2 H12 s _ <-. apply H12. Qed.

#[global] Instance trace_proper {S A} (h : handler E S) :
  Proper ((≡) ==> (=) ==> (=)) (trace (A:=A) h).
Proof. intros m1 m2 H12 s _ <-. apply H12. Qed.

#[global] Instance prog_bind_proper {A B} :
  Proper ((≡) ==> pointwise_relation A (≡) ==> (≡)) (prog_bind (E:=E) (A:=A) (B:=B)).
Proof.
  intros m1 m2 Hm f1 f2 Hf S h s. destruct (Hm S h s) as [Hrun Htrace].
  change (prog_bind m1 f1) with (m1 ≫= f1). change (prog_bind m2 f2) with (m2 ≫= f2).
  rewrite !run_bind, !trace_bind, Hrun, Htrace. split.
  - apply m_bind_ext; [done|]. intros a s'. apply Hf.
  - f_equal. destruct (run h m2 s) as [a s'| |]; [|done..]. apply Hf.
Qed.

(** Continuations that are equivalent at every answer give equivalent
    programs. *)
Lemma Call_equiv {A X} (c : E X) (k1 k2 : X → prog E A) :
  (∀ x, k1 x ≡ k2 x) → Call c k1 ≡ Call c k2.
Proof.
  intros Hk S h s. simpl. split.
  - apply m_bind_ext; [done|]. intros x s'. apply Hk.
  - destruct (h X c s) as [x s'| |]; [|done..]. f_equal. apply Hk.
Qed.

Lemma prog_bind_ret_l {A B} (a : A) (f : A → prog E B) : Ret a ≫= f ≡ f a.
Proof. done. Qed.

Lemma prog_bind_ret_r {A} (m : prog E A) : m ≫= Ret ≡ m.
Proof.
  intros S h s. rewrite run_bind, trace_bind. split; [apply m_bind_ret_r|].
  destruct (run h m s); simpl; by rewrite app_nil_r.
Qed.

Lemma prog_bind_assoc {A B C} (m : prog E A) (f : A → prog E B) (g : B → prog E C) :
  (m ≫= f) ≫= g ≡ m ≫= (λ a, f a ≫= g).
Proof.
  intros S h s. split.
  - rewrite !run_bind.
    rewrite (m_bind_ext _ (run h m ≫= λ a, run h (f a)) _ (λ b, run h (g b)) s
               (run_bind h m f s) (λ _ _, eq_refl)).
    rewrite m_bind_assoc. apply m_bind_ext; [done|]. intros a s'. by rewrite run_bind.
  - rewrite !trace_bind, <-app_assoc, run_bind. f_equal.
    destruct (run h m s) as [a s'|e s'|] eqn:Hm.
    + rewrite (m_bind_done _ _ _ _ _ Hm). simpl. by rewrite trace_bind.
    + by rewrite (m_bind_throw _ _ _ _ _ Hm).
    + by rewrite (m_bind_stuck _ _ _ Hm).
Qed.

End monad.
