(* ===== verification/JsString.v ===== *)
(** * JavaScript strings: [.length], [slice], and the badge text cut

    A JavaScript string is a finite sequence of 16-bit code units.  Module
    [Str] models the two string operations the script calls on the text of a
    badge ([src/_resources/js/scripts.js], lines 6 and 7) and the value the
    conditional of lines 6-10 assigns to [count.textContent] ([Str.strip]). *)

From stdpp Require Import list numbers.
From Stdlib Require Import Ascii String.
From S2P Require Import Prelude.

Module Str.

(** ** Data *)

(** Every code unit of a string fits sixteen bits. *)
Definition wf (s : list N) : Prop := Forall (λ c, (c < 65536)%N) s.

#[global] Instance wf_dec s : Decision (wf s).
Proof. unfold wf. apply _. Defined.

(** A string literal of the source, read unit by unit. *)
Definition lit (s : string) : list N := N_of_ascii <$> list_ascii_of_string s.

(** ** Operations *)

(** [text.length]: the number of code units. *)
Definition length (s : list N) : Z := Z.of_nat (List.length s).

(** How [slice] resolves one of its two indices against the length: a
    negative index counts from the end and stops at [0], any other index
    stops at the length. *)
Definition clamp (len i : Z) : Z :=
  if (i <? 0)%Z then Z.max (len + i) 0 else Z.min i len.

(** The code units from index [from] up to, not including, index [to]. *)
Definition substring (s : list N) (from to : Z) : list N :=
  take (Z.to_nat (to - from)) (drop (Z.to_nat from) s).

(** [text.slice(start, end)]. *)
Definition slice (s : list N) (start end_ : Z) : list N :=
  let len := length s in
  let from := clamp len start in
  let to := clamp len end_ in
  if (from >=? to)%Z then [] else substring s from to.

(** The value lines 6-10 assign to the badge: [text.slice(1, -1)] when
    [text.length > 1], the empty string otherwise. *)
Definition strip (text : list N) : list N :=
  if (length text >? 1)%Z then slice text 1 (-1) else [].

(** ** Surrogates (for the well-formedness results) *)

Definition is_high_surrogate (c : N) : bool := (55296 <=? c)%N && (c <=? 56319)%N.
Definition is_low_surrogate (c : N) : bool := (56320 <=? c)%N && (c <=? 57343)%N.
Definition is_surrogate (c : N) : bool := is_high_surrogate c || is_low_surrogate c.

(** [isWellFormed]: every high surrogate is followed by a low one and every
    low surrogate follows a high one. *)
Fixpoint well_formed (s : list N) : bool :=
  match s with
  | [] => true
  | c :: s' =>
      if is_high_surrogate c then
        match s' with
        | d :: s'' => is_low_surrogate d && well_formed s''
        | [] => false
        end
      else negb (is_low_surrogate c) && well_formed s'
  end.

(** The well-formed texts by their characters: a text is a sequence of
    units that are no surrogate and of pairs of a high and a low one. *)
Inductive scalars : list N → Prop :=
| scalars_nil : scalars []
| scalars_unit c s : is_surrogate c = false → scalars s → scalars (c :: s)
| scalars_pair c d s :
    is_high_surrogate c = true → is_low_surrogate d = true → scalars s →
    scalars (c :: d :: s).

(** ** [length] and [clamp] *)

Lemma length_nonneg s : (0 ≤ length s)%Z.
Proof. unfold length. lia. Qed.

Lemma length_nil : length [] = 0%Z.
Proof. reflexivity. Qed.

Lemma length_cons c s : length (c :: s) = (1 + length s)%Z.
Proof. unfold length. simpl. lia. Qed.

Lemma length_app s1 s2 : length (s1 ++ s2) = (length s1 + length s2)%Z.
Proof. unfold length. rewrite List.length_app. lia. Qed.

Lemma clamp_bounds len i : (0 ≤ len)%Z → (0 ≤ clamp len i ≤ len)%Z.
Proof. unfold clamp. case_match; lia. Qed.

Lemma clamp_nonneg len i : (0 ≤ i)%Z → clamp len i = Z.min i len.
Proof. unfold clamp. intros. case_match; lia. Qed.

Lemma clamp_neg len i : (i < 0)%Z → clamp len i = Z.max (len + i) 0.
Proof. unfold clamp. intros. case_match; lia. Qed.

(** [clamp] is monotone among indices of one sign only: a negative index
    counts from the end, so [clamp 10 (-1) = 9] lies above [clamp 10 0 = 0]. *)
Lemma clamp_mono len i j :
  (0 ≤ i ∨ j < 0)%Z → (i ≤ j)%Z → (clamp len i ≤ clamp len j)%Z.
Proof. unfold clamp. intros. repeat case_match; lia. Qed.

(** ** [slice] on every branch *)

Section slice.
Implicit Types (s : list N) (a b : Z) (i : nat).

(** The empty branch of [slice] agrees with the general one: taking a
    non-positive number of units gives the empty string. *)
Lemma slice_substring s a b :
  slice s a b = substring s (clamp (length s) a) (clamp (length s) b).
Proof.
  unfold slice, substring. case_zbool; [|done].
  by replace (Z.to_nat _) with 0%nat by lia.
Qed.

Lemma slice_empty s a b :
  (clamp (length s) b ≤ clamp (length s) a)%Z → slice s a b = [].
Proof. unfold slice. intros. by case_zbool; [|lia]. Qed.

Lemma slice_length s a b :
  length (slice s a b) = Z.max 0 (clamp (length s) b - clamp (length s) a).
Proof.
  rewrite slice_substring. unfold substring, length at 1.
  rewrite length_take, length_drop.
  pose proof (clamp_bounds (length s) a (length_nonneg s)).
  pose proof (clamp_bounds (length s) b (length_nonneg s)).
  unfold length in *. lia.
Qed.

Lemma slice_lookup s a b i :
  (Z.of_nat i < clamp (length s) b - clamp (length s) a)%Z →
  slice s a b !! i = s !! (Z.to_nat (clamp (length s) a) + i)%nat.
Proof.
  intros Hi. rewrite slice_substring. unfold substring.
  rewrite lookup_take_lt, lookup_drop by lia. done.
Qed.

Lemma slice_all s : slice s 0 (length s) = s.
Proof.
  rewrite slice_substring, !clamp_nonneg by (pose proof (length_nonneg s); lia).
  unfold substring, length. rewrite Z.min_id.
  replace (Z.to_nat (Z.min 0 _)) with 0%nat by lia.
  rewrite drop_0, take_ge; [done|lia].
Qed.

Lemma slice_wf s a b : wf s → wf (slice s a b).
Proof.
  unfold wf. rewrite slice_substring. unfold substring. auto with js.
Qed.

(** [slice(1, -1)] on any string, the short ones included, is its middle. *)
Lemma slice_1_m1 s : slice s 1 (-1) = middle s.
Proof.
  rewrite slice_substring, middle_take_drop, clamp_nonneg, clamp_neg by lia.
  unfold substring, length. f_equal; [lia|].
  destruct s as [|c [|d s]]; try done. f_equal. simpl. lia.
Qed.

End slice.

(** ** [strip]: the text the script writes back *)

Section strip.
Implicit Types (s m : list N) (x y : N) (i n : nat).

(** The [else] branch of the source is redundant: [slice(1, -1)] already
    gives the empty string on texts of at most one unit. *)
Lemma strip_slice s : strip s = slice s 1 (-1).
Proof.
  unfold strip. case_zbool; [done|].
  rewrite slice_1_m1, middle_short; [done|]. unfold length in *. lia.
Qed.

(** The cut of a string of 16-bit code units is one. *)
Lemma strip_wf s : wf s → wf (strip s).
Proof. rewrite strip_slice. apply slice_wf. Qed.

Lemma strip_middle s : strip s = middle s.
Proof. by rewrite strip_slice, slice_1_m1. Qed.

Lemma strip_short s : (length s ≤ 1)%Z → strip s = [].
Proof. unfold strip. intros. by case_zbool; [lia|]. Qed.

Lemma strip_long s : (length s > 1)%Z → ∃ x y, s = x :: strip s ++ [y].
Proof.
  intros Hs. rewrite strip_middle. apply middle_split. unfold length in Hs. lia.
Qed.

Lemma strip_list_length s : List.length (strip s) = (List.length s - 2)%nat.
Proof. by rewrite strip_middle, length_middle. Qed.

Lemma strip_lookup s i :
  (i + 2 < List.length s)%nat → strip s !! i = s !! S i.
Proof. intros. rewrite strip_middle. apply middle_lookup. lia. Qed.

Lemma strip_lookup_ge s i :
  (List.length s ≤ i + 2)%nat → strip s !! i = None.
Proof. intros. apply lookup_ge_None_2. rewrite strip_list_length. lia. Qed.

Lemma strip_nil_iff s : strip s = [] ↔ (length s ≤ 2)%Z.
Proof.
  rewrite <-length_zero_iff_nil, strip_list_length. unfold length. lia.
Qed.

(** Applying the cut [n] times removes [n] units at each end. *)
Lemma strip_iter n s :
  Nat.iter n strip s = take (List.length s - 2 * n) (drop n s).
Proof.
  induction n as [|n IH]; simpl.
  { by rewrite drop_0, take_ge by lia. }
  rewrite IH, strip_middle, middle_take_drop, length_take, length_drop.
  rewrite skipn_firstn_comm, drop_drop, take_take.
  f_equal; [lia|f_equal; lia].
Qed.

Lemma strip_iter_length n s :
  List.length (Nat.iter n strip s) = (List.length s - 2 * n)%nat.
Proof. rewrite strip_iter, length_take, length_drop. lia. Qed.

Lemma strip_fixpoint_iff s : strip s = s ↔ s = [].
Proof.
  split; [|by intros ->]. intros Hs. apply nil_length_inv.
  apply (f_equal List.length) in Hs. rewrite strip_list_length in Hs. lia.
Qed.

End strip.

(** ** Surrogate pairs across the cut *)

Section surrogates.
Implicit Types (s m : list N) (x y c : N).

Lemma not_surrogate x :
  is_surrogate x = false → is_high_surrogate x = false ∧ is_low_surrogate x = false.
Proof. unfold is_surrogate. by intros ?%orb_false_elim. Qed.

Lemma well_formed_cons x m :
  is_surrogate x = false → well_formed (x :: m) = well_formed m.
Proof. intros [Hh Hl]%not_surrogate. simpl. by rewrite Hh, Hl. Qed.

Lemma well_formed_unfold c s :
  well_formed (c :: s) =
    if is_high_surrogate c then
      match s with d :: s' => is_low_surrogate d && well_formed s' | [] => false end
    else negb (is_low_surrogate c) && well_formed s.
Proof. reflexivity. Qed.

Lemma well_formed_snoc_bounded n m y :
  (List.length m ≤ n)%nat → is_surrogate y = false →
  well_formed (m ++ [y]) = well_formed m.
Proof.
  intros Hn Hy. destruct (not_surrogate y Hy) as [Hh Hl]. revert m Hn.
  induction n as [|n IH]; intros [|c m] Hn; simpl in Hn; try lia;
    try (simpl; by rewrite Hh, Hl).
  rewrite <-app_comm_cons, !(well_formed_unfold c).
  destruct (is_high_surrogate c); [|by rewrite IH by lia].
  destruct m as [|d m]; simpl in *; [by rewrite ?Hh, ?Hl|by rewrite IH by lia].
Qed.

Lemma well_formed_snoc m y :
  is_surrogate y = false → well_formed (m ++ [y]) = well_formed m.
Proof. by apply (well_formed_snoc_bounded (List.length m)). Qed.

(** No unit is both halves of a pair. *)
Lemma high_not_low c : is_high_surrogate c = true → is_low_surrogate c = false.
Proof.
  unfold is_high_surrogate, is_low_surrogate.
  rewrite andb_true_iff, andb_false_iff, !N.leb_le, !N.leb_gt. lia.
Qed.

Lemma high_surrogate c : is_high_surrogate c = true → is_surrogate c = true.
Proof. unfold is_surrogate. by intros ->. Qed.

Lemma low_surrogate c : is_low_surrogate c = true → is_surrogate c = true.
Proof. unfold is_surrogate. intros ->. apply orb_true_r. Qed.

(** [well_formed] decides [scalars]. *)
Lemma well_formed_scalars s : well_formed s = true ↔ scalars s.
Proof.
  split.
  - remember (List.length s) as n eqn:Hn. revert s Hn.
    induction (lt_wf n) as [n _ IH]. intros [|c s] -> Hs; [constructor|].
    rewrite well_formed_unfold in Hs. destruct (is_high_surrogate c) eqn:Hc.
    + destruct s as [|d s]; [done|]. apply andb_true_iff in Hs as [Hd Hs].
      apply scalars_pair; [done..|]. eapply IH; [|done..]. simpl. lia.
    + apply andb_true_iff in Hs as [Hl%negb_true_iff Hs].
      apply scalars_unit; [unfold is_surrogate; by rewrite Hc, Hl|].
      eapply IH; [|done..]. simpl. lia.
  - induction 1 as [|c s Hc _ IH|c d s Hc Hd _ IH]; [done|..].
    + by rewrite well_formed_cons.
    + by rewrite well_formed_unfold, Hc, Hd, IH.
Qed.

(** A text is read from the left; what its last unit can be. *)
Lemma scalars_snoc_inv l y :
  scalars (l ++ [y]) →
  (is_surrogate y = false ∧ scalars l) ∨
  (is_low_surrogate y = true ∧
   ∃ k x, l = k ++ [x] ∧ is_high_surrogate x = true ∧ scalars k).
Proof.
  remember (l ++ [y]) as s eqn:Hs. intros Hsc. revert l Hs.
  induction Hsc as [|c s Hc Hsc IH|c d s Hc Hd Hsc IH]; intros l Hs.
  { by destruct l. }
  - destruct l as [|c' l]; simplify_eq/=; [left; by split; [|constructor]|].
    destruct (IH l eq_refl) as [[Hy Hl]|(Hy&k&x&->&Hx&Hk)]; [left|right].
    + split; [done|]. by constructor.
    + split; [done|]. exists (c' :: k), x. split_and!; [done..|]. by constructor.
  - destruct l as [|c' [|d' l]]; simplify_eq/=.
    { right. split; [done|]. exists [], c'. split_and!; [done..|constructor]. }
    destruct (IH l eq_refl) as [[Hy Hl]|(Hy&k&x&->&Hx&Hk)]; [left|right].
    + split; [done|]. by apply scalars_pair.
    + split; [done|]. exists (c' :: d' :: k), x. split_and!; [done..|].
      by apply scalars_pair.
Qed.

(** A text does not start with the low half of a pair, and does not end
    with the high half. *)
Lemma scalars_head_low c s : is_low_surrogate c = true → ¬ scalars (c :: s).
Proof.
  intros Hc Hs. inversion Hs as [|? ? Hn|? ? ? Hh]; subst.
  - by rewrite (low_surrogate c Hc) in Hn.
  - by rewrite (high_not_low c Hh) in Hc.
Qed.

Lemma scalars_last_high l x : is_high_surrogate x = true → ¬ scalars (l ++ [x]).
Proof.
  intros Hx [[Hn _]|[Hl _]]%scalars_snoc_inv.
  - by rewrite (high_surrogate x Hx) in Hn.
  - by rewrite (high_not_low x Hx) in Hl.
Qed.

(** The first unit of a text is no low half, the last no high half. *)
Lemma scalars_ends x m y :
  scalars (x :: m ++ [y]) → is_low_surrogate x = false ∧ is_high_surrogate y = false.
Proof.
  intros Hs. split.
  - destruct (is_low_surrogate x) eqn:Hx; [|done].
    by destruct (scalars_head_low x (m ++ [y]) Hx).
  - destruct (is_high_surrogate y) eqn:Hy; [|done].
    by destruct (scalars_last_high (x :: m) y Hy).
Qed.

(** A text that starts with a pair or ends with one has a middle that is
    no text, unless the middle is empty. *)
Lemma scalars_middle_split x m y :
  scalars (x :: m ++ [y]) → m ≠ [] →
  is_high_surrogate x = true ∨ is_low_surrogate y = true → ¬ scalars m.
Proof.
  intros Hs Hm [Hx|Hy] Hsm.
  - inversion Hs as [|? ? Hn|? d s' _ Hd _ Heq]; subst.
    { by rewrite (high_surrogate x Hx) in Hn. }
    destruct m as [|d' m]; [done|]. simplify_eq/=. by apply (scalars_head_low d' m).
  - apply (scalars_snoc_inv (x :: m)) in Hs as [[Hn _]|(_&k&z&Hk&Hz&_)].
    { by rewrite (low_surrogate y Hy) in Hn. }
    destruct k as [|x' k]; simplify_eq/=; try done. by apply (scalars_last_high k z).
Qed.

(** When neither the first nor the last unit is half of a pair, the cut
    keeps a well-formed text well formed (and an ill-formed one ill formed). *)
Lemma strip_well_formed_decorated x m y :
  is_surrogate x = false → is_surrogate y = false →
  well_formed (strip (x :: m ++ [y])) = well_formed (x :: m ++ [y]).
Proof.
  intros Hx Hy.
  by rewrite strip_middle, middle_cons_snoc, well_formed_cons, well_formed_snoc.
Qed.

End surrogates.

(** ** The properties of the cut *)

Section claims.
Implicit Types (s m : list N) (o c x y : N) (n i : nat).

(** C3. Both branches of lines 6-10 on every text: a text of more than
    one code unit is its first unit, what the script writes back, and its
    last unit; a shorter text becomes empty. *)
Theorem strip_spec s :
  ((length s > 1)%Z ∧ ∃ x y, s = x :: strip s ++ [y]) ∨
  ((length s ≤ 1)%Z ∧ strip s = []).
Proof.
  destruct (decide (length s > 1)%Z) as [Hs|Hs]; [left|right].
  - split; [done|]. by apply strip_long.
  - split; [lia|]. apply strip_short. lia.
Qed.

(** Decorating a text with one unit on each side and cutting gives
    the text back: ["(" ++ n ++ ")"] becomes [n]. *)
Theorem strip_decorated o s c : strip ([o] ++ s ++ [c]) = s.
Proof. by rewrite strip_middle; apply middle_cons_snoc. Qed.

(** C25. The optimised conditional equals the reference: the text
    written back is the text without its first and last unit, and the
    [else] branch of the source is redundant, [slice(1, -1)] alone giving
    the same result on every text. *)
Theorem strip_reference s : strip s = middle s ∧ strip s = slice s 1 (-1).
Proof. by rewrite strip_slice, slice_1_m1. Qed.

(** C35. The length of a slice, whatever the indices: the distance
    between the two clamped indices, or zero when they cross. *)
Theorem slice_length_clamped s a b :
  length (slice s a b) = Z.max 0 (clamp (length s) b - clamp (length s) a) ∧
  (0 ≤ length (slice s a b) ≤ length s)%Z.
Proof.
  pose proof (clamp_bounds (length s) a (length_nonneg s)).
  pose proof (clamp_bounds (length s) b (length_nonneg s)).
  rewrite slice_length. lia.
Qed.

(** The cut shortens by two, down to zero. *)
Theorem strip_length_minus_two s : length (strip s) = Z.max 0 (length s - 2).
Proof. unfold length. rewrite strip_list_length. lia. Qed.

(** C26. The cut is not idempotent: cutting twice equals cutting once
    exactly on the texts of at most two units, which one cut empties. *)
Theorem strip_idempotent_iff s :
  strip (strip s) = strip s ↔ (length s ≤ 2)%Z.
Proof.
  split; intros Hs.
  - apply (f_equal List.length) in Hs. rewrite !strip_list_length in Hs.
    unfold length. lia.
  - apply strip_nil_iff in Hs as ->. done.
Qed.

(** Cutting [n] times removes [n] units at each end, so a text of
    at most [2 n] units is empty after [n] cuts. *)
Theorem strip_iter_empty n s :
  (List.length s ≤ 2 * n)%nat → Nat.iter n strip s = [].
Proof.
  intros Hn. apply nil_length_inv. rewrite strip_iter_length. lia.
Qed.

Lemma strip_iter_empty_witness : Nat.iter 2 strip (lit "(12)") = [].
Proof. apply strip_iter_empty. simpl. lia. Defined.

(** C37. A text whose first and last units are no halves of a surrogate
    pair stays well formed under the cut. *)
Theorem strip_well_formed x m y :
  is_surrogate x = false → is_surrogate y = false →
  well_formed (x :: m ++ [y]) = true →
  well_formed (strip (x :: m ++ [y])) = true.
Proof. intros Hx Hy. by rewrite strip_well_formed_decorated. Qed.

Lemma strip_well_formed_witness :
  well_formed (strip (40 :: [55357; 56832] ++ [41]))%N = true.
Proof. by apply strip_well_formed. Defined.

(** C38. The cut counts code units, not characters.  On a well-formed
    text of more than two units it leaves an ill-formed text exactly when
    the text starts or ends with a character outside the basic plane: the
    first unit is the high half of a pair, or the last unit the low half,
    and the other half stays. *)
Theorem strip_splits_surrogate_pair x m y :
  well_formed (x :: m ++ [y]) = true → m ≠ [] →
  well_formed (strip (x :: m ++ [y])) = false ↔
    is_high_surrogate x = true ∨ is_low_surrogate y = true.
Proof.
  intros Hs Hm. pose proof (proj1 (well_formed_scalars _) Hs) as Hsc.
  destruct (scalars_ends x m y Hsc) as [Hxl Hyh].
  rewrite strip_middle, middle_cons_snoc. split.
  - intros Hcut. destruct (is_high_surrogate x) eqn:Hx; [by left|].
    destruct (is_low_surrogate y) eqn:Hy; [by right|].
    assert (well_formed m = true); [|congruence].
    rewrite <-Hs, <-(strip_well_formed_decorated x m y), strip_middle, middle_cons_snoc;
      [done|unfold is_surrogate..]; by rewrite ?Hx, ?Hxl, ?Hy, ?Hyh.
  - intros Hends. apply not_true_is_false. rewrite well_formed_scalars.
    by apply (scalars_middle_split x m y).
Qed.

Lemma strip_splits_surrogate_pair_witness :
  (well_formed (strip (55357 :: [56832; 53] ++ [41])) = false ↔
    is_high_surrogate 55357 = true ∨ is_low_surrogate 41 = true)%N.
Proof. by apply strip_splits_surrogate_pair. Defined.

End claims.

(** ** The cut on concrete texts *)

Example strip_badge : strip (lit "(5)") = lit "5".
Proof. reflexivity. Qed.

Example strip_badge_two_digits : strip (lit "(12)") = lit "12".
Proof. reflexivity. Qed.

Example strip_single : strip (lit "(") = [].
Proof. reflexivity. Qed.

Example strip_twice_over_strips : strip (strip (lit "(12)")) = [].
Proof. reflexivity. Qed.

Example strip_undecorated : strip (lit "12") = [].
Proof. reflexivity. Qed.

(** A face (one character, two units) before a parenthesis. *)
Example strip_face :
  well_formed [55357; 56832; 41]%N = true ∧
  well_formed (strip [55357; 56832; 41]%N) = false.
Proof. by vm_compute. Qed.

End Str.
