(* ===== verification/Css.v ===== *)
(** * Class selectors and the class attribute

    Line 3 of [src/_resources/js/scripts.js] passes the selector string
    ['.quarto-category-count'] to [querySelectorAll].  Two pieces of text
    processing decide what it selects: the parsing of the selector string
    and the splitting of an element's [class] attribute into class names.
    Module [Css] models both on strings of code units, with no reference to
    the document: [Css.parse_selector] for the strings of the form dot plus
    name (a class selector, a syntax error, or a selector outside the
    modelled fragment), [Css.classList] for the attribute, and
    [Css.matches] for the test of an attribute against a selector. *)

From stdpp Require Import list option numbers.
From Stdlib Require String.
Import String.StringSyntax.
From S2P Require Import Prelude JsString.

Module Css.

(** ** The class attribute *)

(** The separators of the [class] attribute: tab, line feed, form feed,
    carriage return and space. *)
Definition is_ascii_whitespace (c : N) : bool :=
  bool_decide (c ∈ [9; 10; 12; 13; 32]%N).

(** The class names of an attribute value: its maximal runs of
    non-separators.  [cur] is the run being read. *)
Fixpoint tokens_from (cur : list N) (s : list N) : list (list N) :=
  match s with
  | [] => if decide (cur = []) then [] else [cur]
  | c :: s' =>
      if is_ascii_whitespace c then
        if decide (cur = []) then tokens_from [] s' else cur :: tokens_from [] s'
      else tokens_from (cur ++ [c]) s'
  end.

Definition classList (className : list N) : list (list N) := tokens_from [] className.

(** ** Selectors *)

(** The selectors of the modelled fragment: one class name. *)
Inductive selector : Type :=
| ClassSelector (name : list N).

#[global] Instance selector_eq_dec : EqDecision selector.
Proof. solve_decision. Defined.

(** The result of parsing a selector string. *)
Inductive parsed : Type :=
| Parsed (sel : selector)   (* a selector of the fragment *)
| Invalid                   (* not a selector: [querySelectorAll] throws *)
| Unsupported.              (* a string the model does not classify *)

Definition is_letter (c : N) : bool :=
  ((97 <=? c) && (c <=? 122) || (65 <=? c) && (c <=? 90))%N.

Definition is_digit (c : N) : bool := ((48 <=? c) && (c <=? 57))%N.

(** The characters that start a name: letters and [_]. *)
Definition is_name_start (c : N) : bool := is_letter c || (c =? 95)%N.

(** The characters of a name: letters, digits, [-] and [_]. *)
Definition is_name_char (c : N) : bool :=
  is_name_start c || is_digit c || (c =? 45)%N.

(** An identifier: a run of name characters that starts with a name-start
    character, or with [-] followed by a name-start character or a second
    [-]. *)
Definition is_ident (name : list N) : bool :=
  match name with
  | [] => false
  | c :: rest =>
      if (c =? 45)%N then
        match rest with
        | [] => false
        | d :: _ => (is_name_start d || (d =? 45)%N) && forallb is_name_char rest
        end
      else is_name_start c && forallb is_name_char rest
  end.

(** The selector strings the model classifies are the empty string, which
    is no selector, and a dot followed by name characters, which is a class
    selector when the name is an identifier and no selector otherwise
    ([.5], [.-], [.]).  Escapes, characters outside ASCII and every other
    form of selector are left unclassified. *)
Definition parse_selector (s : list N) : parsed :=
  match s with
  | [] => Invalid
  | c :: name =>
      if (c =? 46)%N && forallb is_name_char name
      then if is_ident name then Parsed (ClassSelector name) else Invalid
      else Unsupported
  end.

(** Whether an element with the class attribute [className] matches. *)
Definition matches (sel : selector) (className : list N) : bool :=
  match sel with ClassSelector name => bool_decide (name ∈ classList className) end.

(** ** Reference notions *)

(** A class name: not empty and free of separators. *)
Definition token (t : list N) : Prop :=
  t ≠ [] ∧ Forall (λ c, is_ascii_whitespace c = false) t.

(** Class names written as an attribute value, one space between them. *)
Fixpoint unwords (ts : list (list N)) : list N :=
  match ts with
  | [] => []
  | [t] => t
  | t :: ts' => t ++ 32%N :: unwords ts'
  end.

(** ** The tokens of an attribute value *)

Section tokens.
Implicit Types (cur s t : list N) (ts : list (list N)) (c : N).

Lemma tokens_from_nil cur : tokens_from cur [] = if decide (cur = []) then [] else [cur].
Proof. reflexivity. Qed.

Lemma tokens_from_sep cur c s :
  is_ascii_whitespace c = true →
  tokens_from cur (c :: s) =
    if decide (cur = []) then tokens_from [] s else cur :: tokens_from [] s.
Proof. intros Hc. simpl. by rewrite Hc. Qed.

Lemma tokens_from_char cur c s :
  is_ascii_whitespace c = false → tokens_from cur (c :: s) = tokens_from (cur ++ [c]) s.
Proof. intros Hc. simpl. by rewrite Hc. Qed.

(** Reading a run of non-separators extends the current name. *)
Lemma tokens_from_run cur t s :
  Forall (λ c, is_ascii_whitespace c = false) t →
  tokens_from cur (t ++ s) = tokens_from (cur ++ t) s.
Proof.
  intros Ht. revert cur. induction Ht as [|c t Hc _ IH]; intros cur.
  { by rewrite app_nil_r. }
  simpl app. by rewrite tokens_from_char, IH, <-app_assoc.
Qed.

(** The names are the characters of the value, without the separators. *)
Lemma tokens_from_join cur s :
  mjoin (tokens_from cur s) = cur ++ filter (λ c, is_ascii_whitespace c = false) s.
Proof.
  revert cur. induction s as [|c s IH]; intros cur.
  { rewrite tokens_from_nil. case_decide; subst; simpl; by rewrite ?app_nil_r. }
  destruct (is_ascii_whitespace c) eqn:Hc.
  - rewrite tokens_from_sep, filter_cons_False by (done || by rewrite Hc).
    case_decide; subst; simpl; by rewrite IH.
  - by rewrite tokens_from_char, filter_cons_True, IH, <-app_assoc.
Qed.

Lemma tokens_from_token cur s :
  Forall (λ c, is_ascii_whitespace c = false) cur → Forall token (tokens_from cur s).
Proof.
  revert cur. induction s as [|c s IH]; intros cur Hcur.
  { rewrite tokens_from_nil. case_decide; by repeat constructor. }
  destruct (is_ascii_whitespace c) eqn:Hc.
  - rewrite tokens_from_sep by done.
    case_decide; [|constructor; [done|]]; by apply IH.
  - rewrite tokens_from_char by done. apply IH, Forall_app. by repeat constructor.
Qed.

Lemma tokens_from_unwords t ts :
  token t → Forall token ts → tokens_from [] (unwords (t :: ts)) = t :: ts.
Proof.
  intros Ht Hts. revert t Ht. induction Hts as [|t' ts Ht' _ IH]; intros t [Hne Ht].
  { simpl unwords. rewrite <-(app_nil_r t) at 1.
    by rewrite tokens_from_run, tokens_from_nil, decide_False. }
  change (unwords (t :: t' :: ts)) with (t ++ 32%N :: unwords (t' :: ts)).
  by rewrite tokens_from_run, tokens_from_sep, decide_False, IH.
Qed.

End tokens.

(** ** The parser *)

Section parser.
Implicit Types (s name : list N) (c : N) (sel : selector).

Lemma is_name_start_char c : is_name_start c = true → is_name_char c = true.
Proof. unfold is_name_char. by intros ->. Qed.

Lemma is_name_char_not_whitespace c :
  is_name_char c = true → is_ascii_whitespace c = false.
Proof.
  unfold is_name_char, is_name_start, is_letter, is_digit, is_ascii_whitespace.
  intros Hc. apply bool_decide_eq_false. rewrite !elem_of_cons, elem_of_nil.
  intros Hin. repeat destruct Hin as [->|Hin]; done.
Qed.

(** An identifier is made of name characters. *)
Lemma is_ident_name_chars name :
  is_ident name = true → name ≠ [] ∧ Forall (λ c, is_name_char c = true) name.
Proof.
  destruct name as [|c rest]; [done|]. simpl. split; [done|].
  destruct (c =? 45)%N eqn:Hc.
  - destruct rest as [|d rest]; [done|].
    apply andb_true_iff in H as [_ Hrest%forallb_Forall].
    constructor; [|done]. unfold is_name_char. rewrite Hc. by rewrite orb_true_r.
  - apply andb_true_iff in H as [Hstart%is_name_start_char Hrest%forallb_Forall].
    by constructor.
Qed.

(** An identifier holds no separator, so it is one class name: the
    selector of a name matches the element whose class is the name. *)
Lemma matches_ident name : is_ident name = true → matches (ClassSelector name) name = true.
Proof.
  intros [Hne Hchars]%is_ident_name_chars. simpl. apply bool_decide_eq_true.
  unfold classList. rewrite <-(app_nil_r name) at 2. rewrite tokens_from_run.
  - rewrite app_nil_l, tokens_from_nil, decide_False by done. by left.
  - eapply list.Forall_impl; [exact Hchars|]. apply is_name_char_not_whitespace.
Qed.

End parser.

(** ** What the two functions promise *)

Section claims.
Implicit Types (s name cn : list N) (ts : list (list N)) (sel : selector).

(** C32. The class names of an attribute value are not empty and hold no
    separator, and together they are the characters of the value that are
    not separators, in order. *)
Theorem classList_spec cn :
  Forall token (classList cn) ∧
  mjoin (classList cn) = filter (λ c, is_ascii_whitespace c = false) cn.
Proof.
  split; [by apply tokens_from_token|]. unfold classList. by rewrite tokens_from_join.
Qed.

(** Writing class names with a space between them and reading the
    attribute back gives the names. *)
Theorem classList_unwords ts : Forall token ts → classList (unwords ts) = ts.
Proof.
  intros Hts. destruct Hts as [|t ts Ht Hts]; [done|]. by apply tokens_from_unwords.
Qed.

Lemma classList_unwords_witness :
  classList (unwords [[120]; [98; 99]]%N) = [[120]; [98; 99]]%N.
Proof. apply classList_unwords. by repeat constructor. Defined.

(** C31. An element matches a class selector exactly when the name is one
    of its class names, whole: a class name that only starts with the name
    does not match. *)
Theorem matches_unwords name ts :
  Forall token ts → matches (ClassSelector name) (unwords ts) = true ↔ name ∈ ts.
Proof.
  intros Hts. simpl. rewrite bool_decide_eq_true.
  destruct Hts as [|t ts Ht Hts]; [done|].
  unfold classList. by rewrite tokens_from_unwords.
Qed.

Lemma matches_unwords_witness :
  matches (ClassSelector [98; 99]%N) (unwords [[120]; [98; 99]]%N) = true ↔
  [98; 99]%N ∈ [[120]; [98; 99]]%N.
Proof. apply matches_unwords. by repeat constructor. Defined.

(** The selector strings of the fragment, one of each kind. *)
Example parse_selector_examples :
  parse_selector (Str.lit ".quarto-category-count") =
    Parsed (ClassSelector (Str.lit "quarto-category-count")) ∧
  parse_selector (Str.lit ".-x") = Parsed (ClassSelector (Str.lit "-x")) ∧
  parse_selector (Str.lit ".--") = Parsed (ClassSelector (Str.lit "--")) ∧
  parse_selector (Str.lit "") = Invalid ∧
  parse_selector (Str.lit ".") = Invalid ∧
  parse_selector (Str.lit ".5") = Invalid ∧
  parse_selector (Str.lit ".-") = Invalid ∧
  parse_selector (Str.lit ".-5") = Invalid ∧
  parse_selector (Str.lit "span") = Unsupported ∧
  parse_selector (Str.lit ".a .b") = Unsupported.
Proof. by vm_compute. Qed.

End claims.

End Css.
