(* ===== verification/Store.v ===== *)
(** * What the loop needs of a document: the interface of a text store

    Lines 4-11 of [src/_resources/js/scripts.js] read and assign the text of
    the nodes of a list, one after the other.  Whether the loop does what it
    is meant to depends on the document only through a few facts: reading
    back gives what was assigned, an assignment changes the text of no node
    outside the ancestors of the target, and it puts no node inside
    another.  [TextStore] names the operations, [TextStoreLaws] these
    facts.  The loop as a function of the store, [cut_all], is proved
    correct here from the laws alone ([cut_all_spec]), and every read of
    the loop returns the text the node had before the loop started
    ([cut_reads_initial]); [Dom] provides the instance, and [Script] shows
    that the callback of the script is this loop. *)

From stdpp Require Import list option numbers sorting.
From S2P Require Import Prelude.

(** The operations. *)
Class TextStore (St : Type) : Type := {
  (** the invariant of the store *)
  store_wf : St → Prop;
  (** the node is in the store *)
  store_node : St → nat → Prop;
  (** the node is an element *)
  store_element : St → nat → Prop;
  (** [store_inside s y x]: [x] is [y] or one of its descendants *)
  store_inside : St → nat → nat → Prop;
  (** [node.textContent], null on nodes that have none *)
  store_text : St → nat → option (option (list N));
  (** [node.textContent = v] *)
  store_set_text : St → nat → list N → option St;
}.

(** [store_before s x y]: [x] is not inside [y].  A list in tree order is
    sorted by it. *)
Definition store_before `{TextStore St} (s : St) (x y : nat) : Prop :=
  ¬ store_inside s y x.

(** The laws. *)
Class TextStoreLaws (St : Type) `{TextStore St} : Prop := {
  store_element_node s x : store_element s x → store_node s x;
  store_inside_refl s x : store_inside s x x;
  store_text_element s x :
    store_wf s → store_element s x → ∃ t, store_text s x = Some (Some t);
  store_set_total s x v :
    store_element s x → is_Some (store_set_text s x v);
  store_set_wf s x v s' :
    store_wf s → store_element s x → store_set_text s x v = Some s' → store_wf s';
  store_set_node s x v s' y :
    store_element s x → store_set_text s x v = Some s' →
    store_node s y → store_node s' y;
  store_set_element s x v s' y :
    store_element s x → store_set_text s x v = Some s' →
    store_element s y → store_element s' y;
  store_set_same s x v s' :
    store_wf s → store_element s x → store_set_text s x v = Some s' →
    store_text s' x = Some (Some v);
  store_set_frame s x v s' y :
    store_wf s → store_element s x → store_set_text s x v = Some s' →
    store_node s y → ¬ store_inside s y x → store_text s' y = store_text s y;
  store_set_inside s x v s' y z :
    store_element s x → store_set_text s x v = Some s' →
    store_node s z → store_inside s' y z → store_inside s y z;
  store_set_detach s x v s' z :
    store_element s x → store_set_text s x v = Some s' →
    store_node s z → store_inside s' x z → z = x;
}.

(** The loop of lines 4-11 as a function of the store: the text of each node
    of the list, in order, is replaced by [f] of it.  [None] when a node has
    no text or the store refuses the assignment. *)
Fixpoint cut_all `{TextStore St} (f : list N → list N) (l : list nat) (s : St) : option St :=
  match l with
  | [] => Some s
  | x :: l' =>
      match store_text s x with
      | Some (Some t) => s' ← store_set_text s x (f t); cut_all f l' s'
      | _ => None
      end
  end.

(** What the loop reads: each node of the list with the text the getter
    returned for it, in the order of the calls, up to the first node the
    store has no text for or refuses the assignment on. *)
Fixpoint cut_reads `{TextStore St} (f : list N → list N) (l : list nat) (s : St) :
    list (nat * list N) :=
  match l with
  | [] => []
  | x :: l' =>
      match store_text s x with
      | Some (Some t) =>
          (x, t) :: match store_set_text s x (f t) with
                    | Some s' => cut_reads f l' s'
                    | None => []
                    end
      | _ => []
      end
  end.

(** What the loop leaves. *)
Record cut_spec `{TextStore St} (f : list N → list N) (s : St) (l : list nat) (s' : St) : Prop := {
  cut_wf : store_wf s';
  cut_node : ∀ y, store_node s y → store_node s' y;
  cut_text : ∀ x t, x ∈ l → store_text s x = Some (Some t) →
    store_text s' x = Some (Some (f t));
  cut_frame : ∀ y, store_node s y → (∀ x, x ∈ l → ¬ store_inside s y x) →
    store_text s' y = store_text s y;
}.

Section loop.
Context `{TextStoreLaws St}.
Implicit Types (s : St) (l : list nat) (x y z : nat) (f : list N → list N).

Lemma cut_spec_nil f s : store_wf s → cut_spec f s [] s.
Proof. intros Hwf. split; [done..| |done]. by intros x t ?%elem_of_nil. Qed.

(** One assignment keeps a list of elements a list of elements in tree
    order. *)
Lemma set_text_sorted s x v s' l :
  store_element s x → store_set_text s x v = Some s' →
  Forall (store_element s) l → StronglySorted (store_before s) l →
  Forall (store_element s') l ∧ StronglySorted (store_before s') l.
Proof.
  intros Hx Hset Hels Hsorted. rewrite list.Forall_forall in Hels. split.
  - apply list.Forall_forall. intros y Hy. eapply store_set_element; eauto.
  - eapply StronglySorted_impl_elem_of; [|done]. intros a b Ha Hb Hab Hin.
    apply Hab. eapply store_set_inside; eauto using store_element_node.
Qed.

(** One step: the first node is cut, and the loop over the rest, none of
    which holds the first, leaves its text alone. *)
Lemma cut_spec_cons f s x t s1 l s' :
  store_wf s → store_element s x →
  Forall (store_element s) l → Forall (store_before s x) l →
  store_text s x = Some (Some t) → store_set_text s x (f t) = Some s1 →
  cut_spec f s1 l s' → cut_spec f s (x :: l) s'.
Proof.
  intros Hwf Hx Hels Hbefore Ht Hset [Hwf' Hnode Htext Hframe].
  rewrite list.Forall_forall in Hels, Hbefore.
  assert (∀ z, z ∈ l → store_node s z ∧ z ≠ x ∧ ¬ store_inside s1 x z) as Hold.
  { intros z Hz. assert (z ≠ x) by (intros ->; eapply Hbefore; eauto using store_inside_refl).
    split_and!; [by apply store_element_node, Hels|done|].
    intros Hin. by eapply (store_set_detach s x) in Hin;
      [|done..|by apply store_element_node, Hels]. }
  split; [done|..].
  - intros y Hy. eapply Hnode, store_set_node; eauto.
  - intros x' t' [->|Hx']%elem_of_cons Ht'.
    + simplify_eq. rewrite Hframe; [|..|intros z Hz; by apply Hold].
      * exact (store_set_same s x _ s1 Hwf Hx Hset).
      * eapply store_set_node; eauto using store_element_node.
    + apply Htext; [done|]. erewrite store_set_frame; eauto; [by apply Hold|].
      by apply Hbefore.
  - intros y Hy Hout. rewrite Hframe.
    + eapply store_set_frame; eauto. apply Hout, list_elem_of_here.
    + eapply store_set_node; eauto.
    + intros z Hz Hin. eapply (Hout z); [by apply list_elem_of_further|].
      eapply store_set_inside; eauto. by apply Hold.
Qed.

(** The loop over a list of elements in tree order completes, and every
    element of the list ends with [f] of the text it had at the start. *)
Lemma cut_all_spec f l s :
  store_wf s → Forall (store_element s) l → StronglySorted (store_before s) l →
  ∃ s', cut_all f l s = Some s' ∧ cut_spec f s l s'.
Proof.
  revert s. induction l as [|x l IH]; intros s Hwf Hels Hsorted.
  { exists s. split; [done|by apply cut_spec_nil]. }
  apply Forall_cons in Hels as [Hx Hels].
  apply StronglySorted_cons in Hsorted as [Hbefore Hsorted].
  destruct (store_text_element s x Hwf Hx) as [t Ht].
  destruct (store_set_total s x (f t) Hx) as [s1 Hset].
  destruct (set_text_sorted s x (f t) s1 l Hx Hset Hels Hsorted) as [Hels1 Hsorted1].
  destruct (IH s1) as (s'&Hrun&Hspec); [by eapply store_set_wf|done..|].
  exists s'. split; [simpl; by rewrite Ht, Hset|by eapply cut_spec_cons].
Qed.

(** No assignment of the loop is seen by a later read: on a list of
    elements in tree order every node is read once, in the order of the
    list, and the text read is the text the node had before the loop
    started. *)
Lemma cut_reads_initial f l s :
  store_wf s → Forall (store_element s) l → StronglySorted (store_before s) l →
  Forall2 (λ x r, r.1 = x ∧ store_text s x = Some (Some r.2)) l (cut_reads f l s).
Proof.
  revert s. induction l as [|x l IH]; intros s Hwf Hels Hsorted; [constructor|].
  apply Forall_cons in Hels as [Hx Hels].
  apply StronglySorted_cons in Hsorted as [Hbefore Hsorted].
  destruct (store_text_element s x Hwf Hx) as [t Ht].
  destruct (store_set_total s x (f t) Hx) as [s1 Hset].
  destruct (set_text_sorted s x (f t) s1 l Hx Hset Hels Hsorted) as [Hels1 Hsorted1].
  simpl. rewrite Ht, Hset. constructor; [done|].
  apply (Forall2_impl_Forall_l (λ y, store_text s1 y = store_text s y)
           (λ y r, r.1 = y ∧ store_text s1 y = Some (Some r.2))).
  - rewrite list.Forall_forall in Hels, Hbefore. apply list.Forall_forall. intros y Hy.
    eapply store_set_frame; eauto using store_element_node. by apply Hbefore.
  - apply IH; [by eapply store_set_wf|done..].
  - by intros y r <- [-> ?].
Qed.

(** The reads of the loop are as many as the nodes of the list. *)
Lemma cut_reads_length f l s :
  store_wf s → Forall (store_element s) l → StronglySorted (store_before s) l →
  length (cut_reads f l s) = length l.
Proof. intros. symmetry. by eapply Forall2_length, cut_reads_initial. Qed.

End loop.

(** ** A second store: a flat list of texts

    The smallest document the loop can run on: elements only, none inside
    another, node [i] holding the [i]-th text of a list.  It shows that the
    laws ask for nothing the node store of [Dom] alone provides. *)

#[global] Instance flat_store : TextStore (list (list N)) := {|
  store_wf _ := True;
  store_node s x := x < length s;
  store_element s x := x < length s;
  store_inside _ y x := x = y;
  store_text s x := Some <$> s !! x;
  store_set_text s x v := if decide (x < length s) then Some (<[x := v]> s) else None;
|}.

#[global] Instance flat_store_laws : TextStoreLaws (list (list N)).
Proof.
  split; simpl; try done.
  - intros s x _ [t Ht]%lookup_lt_is_Some. exists t. by rewrite Ht.
  - intros s x v Hx. rewrite decide_True by done. eauto.
  - intros s x v s' y _ Hset Hy. case_decide; simplify_eq. by rewrite length_insert.
  - intros s x v s' y _ Hset Hy. case_decide; simplify_eq. by rewrite length_insert.
  - intros s x v s' _ Hx Hset. case_decide; simplify_eq.
    by rewrite list_lookup_insert_eq.
  - intros s x v s' y _ _ Hset _ Hne. case_decide; simplify_eq.
    by rewrite list_lookup_insert_ne.
Qed.

(** ** The loop, against the interface *)

Section claims.
Context `{TextStoreLaws St}.
Implicit Types (s : St) (l : list nat) (x y : nat) (f : list N → list N).

(** C10. The loop of lines 4-11 over any store that obeys the laws: on a
    list of elements in tree order it completes, the store stays well
    formed, every node of the list ends with [f] of the text it had when
    the loop started, and a node that holds no node of the list keeps its
    text. *)
Theorem cut_all_correct f l s :
  store_wf s → Forall (store_element s) l → StronglySorted (store_before s) l →
  ∃ s', cut_all f l s = Some s' ∧ store_wf s' ∧
        (∀ x t, x ∈ l → store_text s x = Some (Some t) →
                store_text s' x = Some (Some (f t))) ∧
        (∀ y, store_node s y → (∀ x, x ∈ l → ¬ store_inside s y x) →
              store_text s' y = store_text s y).
Proof.
  intros Hwf Hels Hsorted.
  destruct (cut_all_spec f l s Hwf Hels Hsorted) as (s'&Hrun&[]). eauto 10.
Qed.

End claims.

Lemma cut_all_correct_witness :
  ∃ s', cut_all (drop 1) [0; 2] [[40; 53]; [120]; [40; 49]]%N = Some s' ∧ store_wf s' ∧
        (∀ x t, x ∈ [0; 2] → store_text [[40; 53]; [120]; [40; 49]]%N x = Some (Some t) →
                store_text s' x = Some (Some (drop 1 t))) ∧
        (∀ y, store_node [[40; 53]; [120]; [40; 49]]%N y →
              (∀ x, x ∈ [0; 2] → ¬ store_inside [[40; 53]; [120]; [40; 49]]%N y x) →
              store_text s' y = store_text [[40; 53]; [120]; [40; 49]]%N y).
Proof.
  apply (cut_all_correct (drop 1) [0; 2] [[40; 53]; [120]; [40; 49]]%N).
  - done.
  - repeat constructor; simpl; lia.
  - repeat constructor; unfold store_before; simpl; lia.
Defined.
