(* ===== verification/Dom.v ===== *)
(** * The document: a store of nodes

    The script reaches the page through three calls: [querySelectorAll]
    (line 3), the getter of [textContent] (line 5) and its setter (lines 7
    and 9).  Module [Dom] models the part of the document these calls read
    and write: a store [gmap nat node] from node identities to nodes, each
    element holding the identities of its children.  A [NodeList] is a list
    of identities, so the list the script iterates over keeps naming a node
    after an earlier assignment has detached it from the page.

    The traversal [preorder] recurses through the store, not
    through a term, so it takes fuel; [Dom.acyclic] is the invariant under
    which the fuel the operations pass (the number of nodes of the store) is
    enough.  Tree order is the relation [precedes], which is defined
    without the traversal; the traversal and the selection are shown to be
    sorted by it. *)

From stdpp Require Import gmap list option numbers sorting.
From S2P Require Import Prelude JsString Css Store.

Module Dom.

(** ** Data *)

(** The node kinds the three calls distinguish.  An element carries the
    value of its [class] attribute; other attributes and the tag name are
    never read by the script. *)
Inductive node : Type :=
| Document (children : list nat)
| Element (className : list N) (children : list nat)
| Text (data : list N)
| Comment (data : list N).

#[global] Instance node_eq_dec : EqDecision node.
Proof. solve_decision. Defined.

Definition children (nd : node) : list nat :=
  match nd with
  | Document cs | Element _ cs => cs
  | Text _ | Comment _ => []
  end.

Definition is_element (nd : node) : bool :=
  match nd with Element _ _ => true | _ => false end.

(** ** Matching *)

(** [element.matches(sel)] for a parsed selector: the name is one of the
    class names of the element.  Only elements match. *)
Definition matches (sel : Css.selector) (nd : node) : bool :=
  match nd with
  | Element cn _ => Css.matches sel cn
  | _ => false
  end.

(** ** Traversals *)

(** A node and its descendants, in tree order.  [None] when the fuel runs
    out or a child is missing from the store. *)
Fixpoint preorder (fuel : nat) (h : gmap nat node) (id : nat) : option (list nat) :=
  match fuel with
  | 0 => None
  | S fuel' =>
      match h !! id with
      | None => None
      | Some nd => (λ ls, id :: mjoin ls) <$> mapM (preorder fuel' h) (children nd)
      end
  end.

(** The character data a node contributes to the text of its ancestors:
    its data for a text node, nothing for any other node. *)
Definition text_data (h : gmap nat node) (id : nat) : list N :=
  match h !! id with
  | Some (Text d) => d
  | _ => []
  end.

(** The descendant text content of a node: the data of the text nodes
    among the node and its descendants, concatenated in tree order. *)
Definition text_of (fuel : nat) (h : gmap nat node) (id : nat) : option (list N) :=
  (λ l, mjoin (text_data h <$> l)) <$> preorder fuel h id.

(** ** The three calls *)

(** The getter of [textContent].  The outer [option] is the model's
    ([None]: the node is missing or the store is cyclic), the inner one is
    the value ([None]: JavaScript's [null], which a document returns). *)
Definition textContent (h : gmap nat node) (id : nat) : option (option (list N)) :=
  match h !! id with
  | None => None
  | Some (Document _) => Some None
  | Some (Text d) | Some (Comment d) => Some (Some d)
  | Some (Element _ _) => Some <$> text_of (size h) h id
  end.

(** The setter of [textContent].  On an element it replaces all the
    children by one new text node, or by nothing when the string is empty;
    the former children stay in the store, detached. *)
Definition set_textContent (h : gmap nat node) (id : nat) (s : list N)
    : option (gmap nat node) :=
  match h !! id with
  | None => None
  | Some (Document _) => Some h
  | Some (Text _) => Some (<[id := Text s]> h)
  | Some (Comment _) => Some (<[id := Comment s]> h)
  | Some (Element cn _) =>
      if decide (s = []) then Some (<[id := Element cn []]> h)
      else
        let t := fresh (dom h) in
        Some (<[id := Element cn [t]]> (<[t := Text s]> h))
  end.

(** The nodes [querySelectorAll] ranges over: the descendants of the root,
    the root excluded, in tree order. *)
Definition descendants (h : gmap nat node) (root : nat) : option (list nat) :=
  tail <$> preorder (size h) h root.

Definition node_matches (h : gmap nat node) (sel : Css.selector) (id : nat) : bool :=
  match h !! id with
  | Some nd => matches sel nd
  | None => false
  end.

(** [root.querySelectorAll(sel)] for a parsed selector: a static list. *)
Definition querySelectorAll (h : gmap nat node) (root : nat) (sel : Css.selector)
    : option (list nat) :=
  filter (λ id, node_matches h sel id = true) <$> descendants h root.

(** ** The shape of a store *)

(** [reach h x y]: [y] is [x] or one of its descendants. *)
Inductive reach (h : gmap nat node) : nat → nat → Prop :=
| reach_refl x : reach h x x
| reach_step x nd c y :
    h !! x = Some nd → c ∈ children nd → reach h c y → reach h x y.

(** Every child named by a node is a node of the store. *)
Definition closed (h : gmap nat node) : Prop :=
  ∀ id nd c, h !! id = Some nd → c ∈ children nd → is_Some (h !! c).

(** [rk] decreases from a node to each of its children. *)
Definition ranked (h : gmap nat node) (rk : nat → nat) : Prop :=
  ∀ id nd c, h !! id = Some nd → c ∈ children nd → rk c < rk id.

(** No node is its own descendant and no child is missing. *)
Definition acyclic (h : gmap nat node) : Prop :=
  closed h ∧ ∃ rk, ranked h rk.

(** Every node has at most one parent and names each child once. *)
Definition tree_like (h : gmap nat node) : Prop :=
  (∀ p nd, h !! p = Some nd → NoDup (children nd)) ∧
  (∀ p nd q nd' c, h !! p = Some nd → c ∈ children nd →
     h !! q = Some nd' → c ∈ children nd' → p = q).

(** The invariant of the store: a forest, the page being one of its trees
    and each detached subtree another. *)
Definition forest (h : gmap nat node) : Prop := acyclic h ∧ tree_like h.

(** [before h x y]: [x] is not inside the subtree of [y].  A list sorted by
    it names no node after a node inside it, which is what a loop of
    assignments needs of its list; it does not order the nodes of two
    subtrees that lie apart. *)
Definition before (h : gmap nat node) (x y : nat) : Prop := ¬ reach h y x.

(** [precedes h x y]: [x] comes before [y] in tree order, the order in
    which a depth-first walk that visits a node before its children, and
    the children first to last, meets the nodes.  Either [y] is inside
    [x], or the two lie inside two children of one node, [x] inside the
    earlier one. *)
Inductive precedes (h : gmap nat node) : nat → nat → Prop :=
| precedes_inside x y : reach h x y → x ≠ y → precedes h x y
| precedes_apart p nd i j c c' x y :
    h !! p = Some nd → children nd !! i = Some c → children nd !! j = Some c' →
    i < j → reach h c x → reach h c' y → precedes h x y.

(** ** [preorder]: fuel, reachability, totality *)

Section preorder.
Implicit Types (h : gmap nat node) (id x y c : nat) (l : list nat) (f : nat).

Lemma preorder_S f h id :
  preorder (S f) h id =
    nd ← h !! id; (λ ls, id :: mjoin ls) <$> mapM (preorder f h) (children nd).
Proof. simpl. by destruct (h !! id). Qed.

Lemma preorder_Some_inv f h id l :
  preorder f h id = Some l →
  ∃ f' nd ls, f = S f' ∧ h !! id = Some nd ∧
    mapM (preorder f' h) (children nd) = Some ls ∧ l = id :: mjoin ls.
Proof.
  destruct f as [|f']; [done|]. rewrite preorder_S. intros Hl.
  destruct (h !! id) as [nd|]; simplify_option_eq. by exists f', nd, H.
Qed.

(** More fuel never changes a result. *)
Lemma preorder_mono f f' h id l :
  preorder f h id = Some l → f ≤ f' → preorder f' h id = Some l.
Proof.
  revert f' id l. induction f as [|f IH]; intros f' id l Hl Hf; [done|].
  destruct f' as [|f']; [lia|]. rewrite preorder_S in *.
  destruct (h !! id) as [nd|]; simplify_option_eq.
  erewrite mapM_Some_impl; [done| |done]. intros; apply IH; [done|lia].
Qed.

Lemma preorder_fuel_irrel f f' h id l l' :
  preorder f h id = Some l → preorder f' h id = Some l' → l = l'.
Proof.
  intros Hl Hl'.
  apply (preorder_mono _ (f `max` f')) in Hl, Hl'; [congruence|lia..].
Qed.

Lemma preorder_head f h id l : preorder f h id = Some l → head l = Some id.
Proof. by intros (?&?&?&?&?&?&->)%preorder_Some_inv. Qed.

(** The list holds exactly the node and its descendants. *)
Lemma preorder_reach f h id l x :
  preorder f h id = Some l → x ∈ l → reach h id x.
Proof.
  revert id l. induction f as [|f IH]; intros id l Hl Hx; [done|].
  apply preorder_Some_inv in Hl as (?&nd&ls&[= <-]&Hid&Hls&->).
  apply elem_of_cons in Hx as [->|Hx]; [constructor|].
  apply list_elem_of_join in Hx as (l' & Hx & Hl').
  destruct (mapM_Some_elem_of_r _ _ _ _ Hls Hl') as (c & Hc & Hcl').
  eapply reach_step; eauto.
Qed.

Lemma reach_preorder f h id l x :
  preorder f h id = Some l → reach h id x → x ∈ l.
Proof.
  intros Hl Hr. revert f l Hl.
  induction Hr as [x|x nd c y Hx Hc _ IH]; intros f l Hl;
    apply preorder_Some_inv in Hl as (f'&nd'&ls&->&Hid&Hls&->).
  { apply list_elem_of_here. }
  simplify_eq. apply list_elem_of_further, list_elem_of_join.
  destruct (mapM_Some_elem_of_l _ _ _ _ Hls Hc) as (l' & Hl' & Hin). eauto.
Qed.

(** Two stores that agree on the descendants of a node give it the same
    traversal. *)
Lemma preorder_agree f h h' id :
  (∀ x, reach h id x → h' !! x = h !! x) →
  preorder f h' id = preorder f h id.
Proof.
  revert id. induction f as [|f IH]; intros id Hagree; [done|].
  rewrite !preorder_S, (Hagree id) by constructor.
  destruct (h !! id) as [nd|] eqn:Hid; [simpl|done].
  f_equal. apply mapM_ext_elem_of. intros c Hc. apply IH.
  intros x Hx. apply Hagree. by eapply reach_step.
Qed.

End preorder.

(** ** The fuel the calls pass is enough *)

Section totality.
Context (h : gmap nat node) (rk : nat → nat).
Context (Hclosed : closed h) (Hrk : ranked h rk).

(** The nodes of rank at most that of [id]: an upper bound of the nodes a
    traversal from [id] can meet, which shrinks at every step down. *)
Definition below (id : nat) : gset nat := filter (λ n, rk n ≤ rk id) (dom h).

Lemma below_child id nd c :
  h !! id = Some nd → c ∈ children nd → below c ⊂ below id.
Proof using Hrk.
  intros Hid Hc. pose proof (Hrk id nd c Hid Hc) as Hlt.
  assert (id ∈ dom h) by (apply elem_of_dom; eauto).
  unfold below. split.
  - intros n. rewrite !elem_of_filter. intuition lia.
  - intros Hsub. specialize (Hsub id). rewrite !elem_of_filter in Hsub.
    destruct Hsub; [split; [lia|done]|lia].
Qed.

Lemma preorder_total_below f id :
  is_Some (h !! id) → size (below id) ≤ f → is_Some (preorder f h id).
Proof using Hclosed Hrk.
  revert id. induction f as [|f IH]; intros id [nd Hid] Hf.
  { assert (id ∈ below id) as Hin.
    { apply elem_of_filter. split; [lia|]. apply elem_of_dom; eauto. }
    apply size_empty_inv in Hin; [done|]. apply Nat.le_0_r. done. }
  rewrite preorder_S, Hid. simpl. apply fmap_is_Some, mapM_is_Some_elem_of.
  intros c Hc. apply IH; [by eapply Hclosed|].
  pose proof (subset_size _ _ (below_child id nd c Hid Hc)). lia.
Qed.

End totality.

Lemma preorder_total h id :
  acyclic h → is_Some (h !! id) → is_Some (preorder (size h) h id).
Proof.
  intros [Hc [rk Hrk]] Hid. eapply preorder_total_below; eauto.
  rewrite <-(size_dom h). apply subseteq_size. unfold below.
  intros n. rewrite elem_of_filter. tauto.
Qed.

(** On an acyclic store the traversal with the store's size as fuel is the
    traversal with any larger fuel. *)
Lemma preorder_size h id f l :
  acyclic h → preorder f h id = Some l → preorder (size h) h id = Some l.
Proof.
  intros Hac Hl. destruct (preorder_total h id Hac) as [l' Hl'].
  { apply preorder_Some_inv in Hl as (?&?&?&?&?&?&?). eauto. }
  by rewrite Hl', (preorder_fuel_irrel _ _ _ _ _ _ Hl Hl').
Qed.

Lemma preorder_fuel_ge h id f :
  acyclic h → size h ≤ f → preorder f h id = preorder (size h) h id.
Proof.
  intros Hac Hf. destruct (preorder (size h) h id) as [l|] eqn:Hl.
  { by eapply preorder_mono. }
  destruct (preorder f h id) as [l|] eqn:Hl'; [|done].
  by rewrite (preorder_size h id f l) in Hl.
Qed.

Lemma reach_closed h x y :
  closed h → is_Some (h !! x) → reach h x y → is_Some (h !! y).
Proof. intros Hc Hx Hr. induction Hr; eauto. Qed.

Lemma reach_trans h x y z : reach h x y → reach h y z → reach h x z.
Proof. induction 1; eauto using reach. Qed.

Lemma reach_rank h rk x y : ranked h rk → reach h x y → rk y ≤ rk x.
Proof.
  intros Hrk. induction 1 as [|x nd c y Hx Hc _ IH]; [done|].
  specialize (Hrk x nd c Hx Hc). lia.
Qed.

(** On an acyclic store a node is not a descendant of its own child. *)
Lemma reach_child_irrefl h x nd c :
  acyclic h → h !! x = Some nd → c ∈ children nd → ¬ reach h c x.
Proof.
  intros [_ [rk Hrk]] Hx Hc Hr%(reach_rank _ rk); [|done].
  specialize (Hrk x nd c Hx Hc). lia.
Qed.

(** ** [text_of] *)

Section text_of.
Implicit Types (h : gmap nat node) (id x : nat) (f : nat).

Lemma text_of_fuel_ge h id f :
  acyclic h → size h ≤ f → text_of f h id = text_of (size h) h id.
Proof. intros. unfold text_of. by rewrite preorder_fuel_ge. Qed.

Lemma text_of_total h id :
  acyclic h → is_Some (h !! id) → is_Some (text_of (size h) h id).
Proof. intros. unfold text_of. by apply fmap_is_Some, preorder_total. Qed.

Lemma text_of_agree f h h' id :
  (∀ x, reach h id x → h' !! x = h !! x) →
  text_of f h' id = text_of f h id.
Proof.
  intros Hagree. unfold text_of. rewrite (preorder_agree f h h') by done.
  destruct (preorder f h id) as [l|] eqn:Hl; [simpl|done].
  do 2 f_equal. apply list_fmap_ext. intros i x Hx. unfold text_data.
  rewrite Hagree; [done|]. eapply preorder_reach, list_elem_of_lookup_2; eauto.
Qed.

Lemma text_of_text f h id d : h !! id = Some (Text d) → text_of (S f) h id = Some d.
Proof.
  intros Hid. unfold text_of, text_data. rewrite preorder_S, Hid. simpl.
  by rewrite Hid, app_nil_r.
Qed.

End text_of.

(** ** What the setter does to an element *)

(** [replaced h id s h']: [h'] is [h] with the children of the element [id]
    replaced by [kids], which is empty when [s] is, and otherwise one text
    node that [h] did not hold, with data [s].  Every other node is as it
    was. *)
Definition replaced (h : gmap nat node) (id : nat) (s : list N)
    (h' : gmap nat node) (kids : list nat) : Prop :=
  (∃ cn cs, h !! id = Some (Element cn cs) ∧ h' !! id = Some (Element cn kids)) ∧
  (∀ x, x ≠ id → x ∉ kids → h' !! x = h !! x) ∧
  (∀ c, c ∈ kids → h !! c = None ∧ h' !! c = Some (Text s)) ∧
  (kids = [] ∧ s = [] ∨ ∃ t, kids = [t] ∧ s ≠ []).

(** [text_leaf h kids s]: the children [kids] are what the setter makes for
    the text [s], nothing for the empty string and one text node otherwise. *)
Definition text_leaf (h : gmap nat node) (kids : list nat) (s : list N) : Prop :=
  (kids = [] ∧ s = []) ∨ (∃ t, kids = [t] ∧ s ≠ [] ∧ h !! t = Some (Text s)).

Lemma text_leaf_other (h h' : gmap nat node) kids s :
  text_leaf h kids s → (∀ c, c ∈ kids → h' !! c = h !! c) → text_leaf h' kids s.
Proof.
  intros [?|(t&->&?&Ht)] Hsame; [by left|right].
  exists t. split_and!; [done..|]. by rewrite Hsame by apply list_elem_of_here.
Qed.

Lemma set_textContent_is_Some h id s :
  is_Some (h !! id) → is_Some (set_textContent h id s).
Proof.
  intros [nd Hid]. unfold set_textContent. rewrite Hid.
  destruct nd; [eauto..|case_decide; eauto|eauto|eauto].
Qed.

Lemma fresh_lookup_None (h : gmap nat node) : h !! fresh (dom h) = None.
Proof. apply not_elem_of_dom, is_fresh. Qed.

Lemma set_textContent_replaced h id cn cs s h' :
  h !! id = Some (Element cn cs) → set_textContent h id s = Some h' →
  ∃ kids, replaced h id s h' kids.
Proof.
  intros Hid. unfold set_textContent. rewrite Hid.
  pose proof (fresh_lookup_None h) as Hfresh.
  case_decide as Hs; intros [= <-].
  - exists []. unfold replaced. split_and!; [exists cn, cs|..|by left].
    + by rewrite lookup_insert_eq.
    + intros x ? _. by rewrite lookup_insert_ne.
    + by intros c ?%elem_of_nil.
  - set (t := fresh (dom h)) in *. assert (t ≠ id) by congruence.
    exists [t]. unfold replaced. split_and!; [exists cn, cs|..|right; eauto].
    + by rewrite lookup_insert_eq.
    + intros x ? [? _]%not_elem_of_cons. by rewrite !lookup_insert_ne.
    + intros c ->%list_elem_of_singleton.
      by rewrite lookup_insert_ne, lookup_insert_eq.
Qed.

Section replaced.
Context {h h' : gmap nat node} {id : nat} {s : list N} {kids : list nat}.
Context (Hrep : replaced h id s h' kids).
Implicit Types (x y z c : nat).

Lemma replaced_old x : is_Some (h !! x) → x ∉ kids.
Proof using Hrep.
  destruct Hrep as (_&_&Hkids&_). intros [nd Hx] [Hnone _]%Hkids. congruence.
Qed.

Lemma replaced_lookup_old x nd :
  h' !! x = Some nd → is_Some (h !! x) → x ≠ id → h !! x = Some nd.
Proof using Hrep.
  intros Hx Hold Hne. destruct Hrep as (_&Hother&_).
  rewrite <-Hother; [done..|by apply replaced_old].
Qed.

Lemma replaced_is_Some x : is_Some (h !! x) → is_Some (h' !! x).
Proof using Hrep.
  intros Hx. destruct (decide (x = id)) as [->|Hne].
  - destruct Hrep as ((?&?&?&?)&_). eauto.
  - destruct Hrep as (_&Hother&_). rewrite Hother; [done..|by apply replaced_old].
Qed.

Lemma replaced_size : size h ≤ size h'.
Proof using Hrep.
  rewrite <-!size_dom. apply subseteq_size. intros x.
  rewrite !elem_of_dom. apply replaced_is_Some.
Qed.

(** The children of a node of the new store: the new text node for [id],
    none for the new text node, the old ones otherwise. *)
Lemma replaced_children x nd c :
  h' !! x = Some nd → c ∈ children nd →
  x = id ∧ c ∈ kids ∨ x ≠ id ∧ h !! x = Some nd.
Proof using Hrep.
  intros Hx Hc. destruct (decide (x = id)) as [->|Hne].
  { left. destruct Hrep as ((?&?&?&?)&_). by simplify_eq/=. }
  right. split; [done|]. destruct (decide (x ∈ kids)) as [Hk|Hk].
  - destruct Hrep as (_&_&Hkids&_). apply Hkids in Hk as [_ ?].
    simplify_eq/=. by apply elem_of_nil in Hc.
  - destruct Hrep as (_&Hother&_). by rewrite <-Hother.
Qed.

(** A new text node has no descendant but itself. *)
Lemma replaced_reach_kid c z : c ∈ kids → reach h' c z → z = c.
Proof using Hrep.
  intros Hc Hr. destruct Hr as [|c nd c' z Hnd Hc' _]; [done|].
  destruct Hrep as (_&_&Hkids&_). apply Hkids in Hc as [_ ?].
  simplify_eq/=. by apply elem_of_nil in Hc'.
Qed.

(** After the assignment the element has no descendant but its new text. *)
Lemma replaced_reach_self z : reach h' id z → z = id ∨ z ∈ kids.
Proof using Hrep.
  intros Hr. inversion Hr as [|? nd c ? Hnd Hc Hcz]; subst; [by left|right].
  destruct (replaced_children _ _ _ Hnd Hc) as [[_ Hk]|[? _]]; [|done].
  by rewrite (replaced_reach_kid c z).
Qed.

(** Among the nodes of the old store, the assignment adds no descendant. *)
Lemma replaced_reach_old y z :
  reach h' y z → is_Some (h !! z) → reach h y z.
Proof using Hrep.
  induction 1 as [|x nd c y Hx Hc Hr IH]; intros Hz; [constructor|].
  destruct (replaced_children _ _ _ Hx Hc) as [[-> Hk]|[Hne Hx']].
  - apply (replaced_reach_kid c y Hk) in Hr as ->. by apply replaced_old in Hz.
  - eapply reach_step; eauto.
Qed.

(** The nodes whose subtree does not hold [id] keep their subtree. *)
Lemma replaced_agree y x :
  closed h → is_Some (h !! y) → ¬ reach h y id → reach h y x →
  h' !! x = h !! x.
Proof using Hrep.
  intros Hc Hy Hid Hx. destruct Hrep as (_&Hother&_). apply Hother.
  - by intros ->.
  - eapply replaced_old, reach_closed; eauto.
Qed.

Lemma replaced_closed : closed h → closed h'.
Proof using Hrep.
  intros Hc x nd c Hx Hcx.
  destruct (replaced_children _ _ _ Hx Hcx) as [[-> Hk]|[Hne Hx']].
  - destruct Hrep as (_&_&Hkids&_). apply Hkids in Hk as [_ ?]. eauto.
  - eapply replaced_is_Some, Hc; eauto.
Qed.

Lemma replaced_ranked rk :
  ranked h rk →
  ranked h' (λ n, match h !! n with Some _ => S (rk n) | None => 0 end).
Proof using Hrep.
  intros Hrk x nd c Hx Hcx.
  destruct (replaced_children _ _ _ Hx Hcx) as [[-> Hk]|[Hne Hx']].
  - destruct Hrep as ((?&?&Hid&_)&_&Hkids&_). apply Hkids in Hk as [-> _].
    rewrite Hid. lia.
  - rewrite Hx'. specialize (Hrk x nd c Hx' Hcx). case_match; lia.
Qed.

Lemma replaced_acyclic : acyclic h → acyclic h'.
Proof using Hrep.
  intros [Hc [rk Hrk]]. split; [by apply replaced_closed|].
  eexists. by apply replaced_ranked.
Qed.

Lemma replaced_tree_like : closed h → tree_like h → tree_like h'.
Proof using Hrep.
  intros Hc [Hnodup Hparent]. split.
  - intros p nd Hp. destruct (decide (p = id)) as [->|Hne].
    { destruct Hrep as ((?&?&_&Hid)&_&_&[[-> _]|(t&->&_)]); simplify_eq/=;
        [constructor|apply NoDup_singleton]. }
    destruct (decide (p ∈ kids)) as [Hk|Hk].
    + destruct Hrep as (_&_&Hkids&_). apply Hkids in Hk as [_ ?].
      simplify_eq/=. constructor.
    + destruct Hrep as (_&Hother&_). rewrite Hother in Hp by done. eauto.
  - intros p nd q nd' c Hp Hcp Hq Hcq.
    destruct (replaced_children _ _ _ Hp Hcp) as [[-> Hk]|[? Hp']],
      (replaced_children _ _ _ Hq Hcq) as [[-> Hk']|[? Hq']]; [done|..|by eauto].
    all: exfalso; eapply replaced_old; [eapply Hc|]; eauto.
Qed.

Lemma replaced_forest : forest h → forest h'.
Proof using Hrep.
  intros [Hac Htree]. split; [by apply replaced_acyclic|].
  apply replaced_tree_like; [by destruct Hac|done].
Qed.

End replaced.

(** ** The getter and the setter together *)

Section accessors.
Implicit Types (h : gmap nat node) (id y : nat) (s : list N).

Lemma preorder_leaf f h id nd :
  h !! id = Some nd → children nd = [] → preorder (S f) h id = Some [id].
Proof. intros Hid Hnd. by rewrite preorder_S, Hid; simpl; rewrite Hnd. Qed.

(** The getter never gets stuck on a node of an acyclic store. *)
Lemma textContent_total h id :
  acyclic h → is_Some (h !! id) → is_Some (textContent h id).
Proof.
  intros Hac [nd Hid]. unfold textContent. rewrite Hid.
  destruct nd; eauto. apply fmap_is_Some, text_of_total; eauto.
Qed.

(** On an element the getter gives a string, never [null]. *)
Lemma textContent_element h id cn cs :
  acyclic h → h !! id = Some (Element cn cs) →
  ∃ s, textContent h id = Some (Some s).
Proof.
  intros Hac Hid. unfold textContent. rewrite Hid.
  destruct (text_of_total h id Hac) as [s ->]; eauto.
Qed.

Lemma textContent_fuel h id f :
  acyclic h → size h ≤ f →
  textContent h id =
    match h !! id with
    | None => None
    | Some (Document _) => Some None
    | Some (Text d) | Some (Comment d) => Some (Some d)
    | Some (Element _ _) => Some <$> text_of f h id
    end.
Proof. intros. unfold textContent. by rewrite (text_of_fuel_ge h id f). Qed.

Lemma replaced_text_of h id s h' kids :
  replaced h id s h' kids → text_of 2 h' id = Some s.
Proof.
  intros ((cn&cs&Hid&Hid')&_&Hkids&Hs). unfold text_of, text_data.
  rewrite preorder_S, Hid'. simpl.
  destruct Hs as [[-> ->]|(t&->&_)]; simpl; [by rewrite Hid'|].
  destruct (Hkids t) as [_ Ht]; [apply list_elem_of_here|].
  rewrite Ht. simpl. by rewrite Hid', Ht, !app_nil_r.
Qed.

(** Reading back what was written: after [id.textContent = s] on an
    element, [id.textContent] is [s]. *)
Lemma textContent_set_same h id cn cs s h' :
  acyclic h → h !! id = Some (Element cn cs) →
  set_textContent h id s = Some h' → textContent h' id = Some (Some s).
Proof.
  intros Hac Hid Hset.
  destruct (set_textContent_replaced _ _ _ _ _ _ Hid Hset) as [kids Hrep].
  pose proof (replaced_acyclic Hrep Hac) as Hac'.
  pose proof (replaced_text_of _ _ _ _ _ Hrep) as Ht.
  destruct Hrep as ((?&?&_&Hid')&_). unfold textContent, text_of in *.
  rewrite Hid'. destruct (preorder 2 h' id) as [l|] eqn:Hl; [|done].
  rewrite (preorder_size _ _ _ _ Hac' Hl). simpl in *. congruence.
Qed.

(** The assignment does not change the text of a node whose subtree does
    not hold the element assigned to. *)
Lemma textContent_set_frame h id cn cs s h' y :
  acyclic h → h !! id = Some (Element cn cs) →
  set_textContent h id s = Some h' →
  is_Some (h !! y) → ¬ reach h y id →
  textContent h' y = textContent h y.
Proof.
  intros Hac Hid Hset Hy Hyid.
  destruct (set_textContent_replaced _ _ _ _ _ _ Hid Hset) as [kids Hrep].
  rewrite (textContent_fuel h y (size h')), (textContent_fuel h' y (size h'));
    [|by eapply replaced_acyclic|done|done|by eapply replaced_size].
  destruct Hac as [Hc _].
  rewrite (replaced_agree Hrep y y), (text_of_agree _ h h'); eauto using reach.
  intros x Hx. eapply replaced_agree; eauto.
Qed.

(** Writing a node without children in place of one keeps a store acyclic. *)
Lemma insert_leaf_acyclic h id nd :
  is_Some (h !! id) → children nd = [] → acyclic h → acyclic (<[id := nd]> h).
Proof.
  intros Hid Hnd [Hc [rk Hrk]]. split; [|exists rk]; intros x ndx c Hx Hcx.
  all: destruct (decide (x = id)) as [->|Hne];
    [rewrite lookup_insert_eq in Hx; simplify_eq; rewrite Hnd in Hcx;
       by apply elem_of_nil in Hcx|rewrite lookup_insert_ne in Hx by done].
  - apply lookup_insert_is_Some'. right. eauto.
  - eauto.
Qed.

(** The setter keeps the store acyclic, whatever the node. *)
Lemma set_textContent_acyclic h id s h' :
  acyclic h → set_textContent h id s = Some h' → acyclic h'.
Proof.
  intros Hac Hset. destruct (h !! id) as [[cs|cn cs|d|d]|] eqn:Hid.
  2: { destruct (set_textContent_replaced _ _ _ _ _ _ Hid Hset) as [kids Hrep].
       by eapply replaced_acyclic. }
  all: unfold set_textContent in Hset; rewrite Hid in Hset; simplify_eq; try done.
  all: by apply insert_leaf_acyclic.
Qed.

Lemma insert_leaf_tree_like h id nd :
  children nd = [] → tree_like h → tree_like (<[id := nd]> h).
Proof.
  intros Hnd [Hnodup Hparent]. split.
  - intros p ndp Hp. destruct (decide (p = id)) as [->|Hne].
    + rewrite lookup_insert_eq in Hp. simplify_eq. rewrite Hnd. constructor.
    + rewrite lookup_insert_ne in Hp by done. eauto.
  - intros p ndp q ndq c Hp Hcp Hq Hcq.
    destruct (decide (p = id)) as [->|?], (decide (q = id)) as [->|?]; [done|..].
    all: simplify_map_eq; rewrite ?Hnd in *.
    all: try (by apply elem_of_nil in Hcp); try (by apply elem_of_nil in Hcq).
    eauto.
Qed.

(** The setter keeps the store a forest, whatever the node. *)
Lemma set_textContent_forest h id s h' :
  forest h → set_textContent h id s = Some h' → forest h'.
Proof.
  intros [Hac Htree] Hset. split; [by eapply set_textContent_acyclic|].
  destruct (h !! id) as [[cs|cn cs|d|d]|] eqn:Hid.
  2: { destruct (set_textContent_replaced _ _ _ _ _ _ Hid Hset) as [kids Hrep].
       eapply replaced_tree_like; [done|by destruct Hac|done]. }
  all: unfold set_textContent in Hset; rewrite Hid in Hset; simplify_eq; try done.
  all: by apply insert_leaf_tree_like.
Qed.

End accessors.

(** ** One assignment to an element, seen from the rest of the store *)

Section assignment.
Context {h h' : gmap nat node} {id : nat} {cn : list N} {cs : list nat} {s : list N}.
Context (Hforest : forest h) (Hid : h !! id = Some (Element cn cs)).
Context (Hset : set_textContent h id s = Some h').
Implicit Types (y z : nat).

Lemma assignment_is_Some y : is_Some (h !! y) → is_Some (h' !! y).
Proof using Hid Hset.
  destruct (set_textContent_replaced _ _ _ _ _ _ Hid Hset) as [kids Hrep].
  by apply (replaced_is_Some Hrep).
Qed.

(** Old nodes gain no descendant among the old nodes. *)
Lemma assignment_reach y z : is_Some (h !! z) → reach h' y z → reach h y z.
Proof using Hid Hset.
  destruct (set_textContent_replaced _ _ _ _ _ _ Hid Hset) as [kids Hrep].
  intros. by apply (replaced_reach_old Hrep).
Qed.

(** The element keeps none of its old descendants. *)
Lemma assignment_detaches z : is_Some (h !! z) → reach h' id z → z = id.
Proof using Hid Hset.
  destruct (set_textContent_replaced _ _ _ _ _ _ Hid Hset) as [kids Hrep].
  intros Hz [?|Hk]%(replaced_reach_self Hrep); [done|].
  by apply (replaced_old Hrep) in Hz.
Qed.

(** The element stays an element of the same class. *)
Lemma assignment_self : ∃ kids, h' !! id = Some (Element cn kids).
Proof using Hid Hset.
  destruct (set_textContent_replaced _ _ _ _ _ _ Hid Hset)
    as [kids ((?&?&?&?)&_)].
  exists kids. by simplify_eq.
Qed.

(** The children of the element are the text assigned, in a node the old
    store did not hold. *)
Lemma assignment_kids :
  ∃ kids, h' !! id = Some (Element cn kids) ∧ text_leaf h' kids s ∧
          ∀ c, c ∈ kids → h !! c = None.
Proof using Hid Hset.
  destruct (set_textContent_replaced _ _ _ _ _ _ Hid Hset)
    as [kids ((?&?&?&Hk)&_&Hnew&Hshape)].
  exists kids. simplify_eq. split_and!; [done| |by intros c [??]%Hnew].
  destruct Hshape as [[-> ->]|(t&->&Hs)]; [by left|right].
  exists t. split_and!; [done..|]. apply Hnew, list_elem_of_here.
Qed.

(** Every other node of the old store is as it was. *)
Lemma assignment_other y : is_Some (h !! y) → y ≠ id → h' !! y = h !! y.
Proof using Hid Hset.
  destruct (set_textContent_replaced _ _ _ _ _ _ Hid Hset) as [kids Hrep].
  intros Hy Hne. pose proof (replaced_old Hrep y Hy).
  destruct Hrep as (_&Hother&_). by apply Hother.
Qed.

(** A node that does not hold the element keeps its text. *)
Lemma assignment_frame y :
  is_Some (h !! y) → ¬ reach h y id → textContent h' y = textContent h y.
Proof using Hforest Hid Hset.
  destruct Hforest as [Hac _]. intros Hy Hyid. by eapply textContent_set_frame.
Qed.

End assignment.

(** ** Deciding the invariant *)

Section decide.
Implicit Types (h : gmap nat node) (id c : nat).

(** Every traversal from a node of the store ends within the fuel. *)
Definition total (h : gmap nat node) : Prop :=
  map_Forall (λ id _, is_Some (preorder (size h) h id)) h.

(** [tree_like] with its quantifiers over the nodes of the store. *)
Definition tree_like_alt (h : gmap nat node) : Prop :=
  map_Forall (λ p nd, NoDup (children nd) ∧
    map_Forall (λ q nd', Forall (λ c, c ∈ children nd' → p = q) (children nd)) h) h.

Lemma total_child h id nd c :
  total h → h !! id = Some nd → c ∈ children nd →
  ∃ l lc, preorder (size h) h id = Some l ∧ preorder (size h) h c = Some lc ∧
          length lc < length l.
Proof.
  intros Htot Hid Hc. destruct (Htot id nd Hid) as [l Hl]. exists l.
  pose proof Hl as (f&nd'&ls&Hf&?&Hls&->)%preorder_Some_inv. simplify_eq.
  destruct (mapM_Some_elem_of_l _ _ _ _ Hls Hc) as (lc&Hlc&Hin).
  exists lc. split_and!; [done|eapply preorder_mono; [done|lia]|].
  apply length_join_elem_of in Hin. simpl. lia.
Qed.

Lemma acyclic_total h : acyclic h ↔ total h.
Proof.
  split.
  { intros Hac id nd Hid. apply preorder_total; eauto. }
  intros Htot. split.
  - intros id nd c Hid Hc.
    destruct (total_child h id nd c) as (_&lc&_&Hlc&_); [done..|].
    apply preorder_Some_inv in Hlc as (?&?&?&?&?&?). eauto.
  - exists (λ x, length (default [] (preorder (size h) h x))).
    intros id nd c Hid Hc.
    destruct (total_child h id nd c) as (l&lc&->&->&?); done.
Qed.

Lemma tree_like_alt_iff h : tree_like h ↔ tree_like_alt h.
Proof.
  unfold tree_like, tree_like_alt. split.
  - intros [Hnodup Hparent] p nd Hp. split; [eauto|].
    intros q nd' Hq. apply list.Forall_forall. eauto.
  - intros Halt. split.
    + intros p nd Hp. by destruct (Halt p nd Hp).
    + intros p nd q nd' c Hp Hcp Hq Hcq. destruct (Halt p nd Hp) as [_ Hall].
      specialize (Hall q nd' Hq). rewrite list.Forall_forall in Hall. eauto.
Qed.

#[global] Instance acyclic_dec h : Decision (acyclic h).
Proof. refine (cast_if (decide (total h))); by rewrite acyclic_total. Defined.

#[global] Instance tree_like_dec h : Decision (tree_like h).
Proof.
  refine (cast_if (decide (tree_like_alt h))); by rewrite tree_like_alt_iff.
Defined.

#[global] Instance forest_dec h : Decision (forest h).
Proof. unfold forest. apply _. Defined.

End decide.

(** ** The order of the traversal *)

Section tree_order.
Context (h : gmap nat node) (Hforest : forest h).
Implicit Types (x y a b c p : nat).

Lemma reach_inv_r a c :
  reach h a c → a = c ∨ ∃ p nd, reach h a p ∧ h !! p = Some nd ∧ c ∈ children nd.
Proof.
  induction 1 as [|x nd c y Hx Hc _ [->|(p&nd'&Hp&Hnd'&Hy)]]; [by left|right..].
  - exists x, nd. eauto using reach.
  - exists p, nd'. eauto using reach.
Qed.

(** The ancestors of a node form a chain. *)
Lemma reach_chain a b x : reach h a x → reach h b x → reach h a b ∨ reach h b a.
Proof using Hforest.
  destruct Hforest as [_ [_ Hparent]].
  induction 1 as [|a nd c x Ha Hc _ IH]; intros Hb; [by right|].
  destruct (IH Hb) as [Hcb|Hbc]; [left; by eapply reach_step|].
  apply reach_inv_r in Hbc as [->|(p&nd'&Hbp&Hp&Hcp)].
  - left. eapply reach_step; eauto using reach.
  - right. by rewrite (Hparent a nd p nd' c).
Qed.

(** The subtrees of two children of one node are disjoint. *)
Lemma siblings_apart p nd c c' x :
  h !! p = Some nd → c ∈ children nd → c' ∈ children nd → c ≠ c' →
  reach h c x → ¬ reach h c' x.
Proof using Hforest.
  intros Hp Hc Hc' Hne Hx Hx'. pose proof Hforest as [Hac [_ Hparent]].
  assert (∀ a b, a ∈ children nd → b ∈ children nd → a ≠ b → ¬ reach h a b)
    as Hno.
  { intros a b Ha Hb Hab [?|(q&nd'&Haq&Hq&Hbq)]%reach_inv_r; [done|].
    rewrite <-(Hparent p nd q nd' b) in Haq by done.
    by eapply (reach_child_irrefl h p nd a). }
  destruct (reach_chain c c' x Hx Hx') as [H|H];
    [by apply (Hno c c')|by apply (Hno c' c)].
Qed.

(** The list [querySelectorAll] returns is a sublist of the traversal from
    the root, so it is sorted by what the traversal is sorted by. *)
Lemma querySelectorAll_sublist root sel l :
  querySelectorAll h root sel = Some l →
  ∃ k, preorder (size h) h root = Some k ∧ l `sublist_of` k.
Proof.
  unfold querySelectorAll, descendants. intros Hl.
  destruct (preorder (size h) h root) as [k|] eqn:Hk; simplify_eq/=.
  exists k. split; [done|].
  etrans; [apply sublist_filter|]. destruct k; [done|by apply sublist_cons].
Qed.

(** *** Tree order *)

Lemma reach_inv_l a x :
  reach h a x → a = x ∨ ∃ nd c, h !! a = Some nd ∧ c ∈ children nd ∧ reach h c x.
Proof. destruct 1; eauto 6. Qed.

Lemma reach_antisym x y : reach h x y → reach h y x → x = y.
Proof using Hforest.
  destruct Hforest as [Hac _].
  intros [->|(nd&c&Hx&Hc&Hcy)]%reach_inv_l Hyx; [done|].
  destruct (reach_child_irrefl h x nd c Hac Hx Hc). by eapply reach_trans.
Qed.

(** The children of a node at two positions are two nodes. *)
Lemma children_lookup_inj p nd i j c :
  h !! p = Some nd → children nd !! i = Some c → children nd !! j = Some c → i = j.
Proof using Hforest.
  destruct Hforest as [_ [Hnodup _]]. intros Hp. apply NoDup_lookup. by eapply Hnodup.
Qed.

(** Two children of a node with a common descendant are one child. *)
Lemma children_reach_inj p nd i j c c' x :
  h !! p = Some nd → children nd !! i = Some c → children nd !! j = Some c' →
  reach h c x → reach h c' x → i = j.
Proof using Hforest.
  intros Hp Hi Hj Hx Hx'. destruct (decide (c = c')) as [->|Hne].
  { by eapply children_lookup_inj. }
  destruct (siblings_apart p nd c c' x); eauto using list_elem_of_lookup_2.
Qed.

(** Tree order refines containment: a node that precedes another is not
    inside it. *)
Lemma precedes_before x y : precedes h x y → before h x y.
Proof using Hforest.
  intros [x' y' Hxy Hne|p nd i j c c' x' y' Hp Hi Hj Hij Hx Hy] Hyx.
  - by apply Hne, reach_antisym.
  - assert (i = j); [|lia].
    eapply (children_reach_inj p nd i j c c' x'); eauto using reach_trans.
Qed.

(** Where two nodes lie inside two children of a node, every node that
    holds both holds that node. *)
Lemma apart_lowest p nd i j c c' x y q :
  h !! p = Some nd → children nd !! i = Some c → children nd !! j = Some c' →
  i ≠ j → reach h c x → reach h c' y → reach h q x → reach h q y → reach h q p.
Proof using Hforest.
  intros Hp Hi Hj Hij Hx Hy Hqx Hqy.
  assert (reach h p x) as Hpx by eauto using reach, list_elem_of_lookup_2.
  destruct (reach_chain q p x Hqx Hpx) as [|[->|(nd'&e&Hp'&He&Heq)]%reach_inv_l];
    [done|constructor|].
  simplify_eq. apply list_elem_of_lookup in He as [k Hk]. destruct Hij.
  trans k; [|symmetry];
    eapply (children_reach_inj p _ _ _ _ e); eauto using reach_trans.
Qed.

(** Tree order never holds both ways. *)
Lemma precedes_asym x y : precedes h x y → ¬ precedes h y x.
Proof using Hforest.
  intros Hxy Hyx. pose proof (precedes_before _ _ Hxy) as Hbxy.
  pose proof (precedes_before _ _ Hyx) as Hbyx.
  destruct Hxy as [x y Hr _|p nd i j c c' x y Hp Hi Hj Hij Hx Hy]; [done|].
  destruct Hyx as [y x Hr _|q nd' k l d d' y x Hq Hk Hl Hkl Hy' Hx']; [done|].
  assert (reach h p x ∧ reach h p y ∧ reach h q x ∧ reach h q y) as (?&?&?&?)
    by (split_and!; eauto using reach, list_elem_of_lookup_2).
  assert (p = q) as <-.
  { apply reach_antisym.
    - by apply (apart_lowest q nd' k l d d' y x p); [..|lia| | | |].
    - by apply (apart_lowest p nd i j c c' x y q); [..|lia| | | |]. }
  simplify_eq.
  assert (i = l) by eauto using children_reach_inj.
  assert (j = k) by eauto using children_reach_inj. lia.
Qed.

(** The traversal lists the nodes in tree order. *)
Lemma preorder_precedes f id l :
  preorder f h id = Some l → StronglySorted (precedes h) l.
Proof using Hforest.
  pose proof Hforest as [Hac _]. revert id l.
  induction f as [|f IH]; intros id l Hl; [done|].
  apply preorder_Some_inv in Hl as (?&nd&ls&[= <-]&Hid&Hls&->).
  apply SSorted_cons.
  - eapply mapM_join_sorted_lookup; eauto.
    intros i j c c' k k' y y' Hi Hj Hij Hk Hk' Hy Hy'.
    by apply (precedes_apart h id nd i j c c'); eauto using preorder_reach.
  - apply list.Forall_forall. intros y (k&Hy&Hk)%list_elem_of_join.
    destruct (mapM_Some_elem_of_r _ _ _ _ Hls Hk) as (c&Hc&Hck).
    apply precedes_inside; [by eauto using reach, preorder_reach|].
    intros <-. eapply (reach_child_irrefl h id nd c); eauto using preorder_reach.
Qed.

(** Tree order is total on a tree: of two nodes inside a node, one
    precedes the other. *)
Lemma precedes_total r x y :
  reach h r x → reach h r y → x = y ∨ precedes h x y ∨ precedes h y x.
Proof using Hforest.
  intros Hx Hy. destruct (h !! r) as [nd|] eqn:Hr.
  - destruct (preorder_total h r) as [l Hl]; [by destruct Hforest|done|].
    eapply StronglySorted_total; eauto using preorder_precedes, reach_preorder.
  - left. destruct Hx as [|? ? ? ? Hr']; [|by rewrite Hr in Hr'].
    destruct Hy as [|? ? ? ? Hr']; [done|by rewrite Hr in Hr'].
Qed.

Lemma querySelectorAll_precedes root sel l :
  querySelectorAll h root sel = Some l → StronglySorted (precedes h) l.
Proof using Hforest.
  intros (k&Hk&Hlk)%querySelectorAll_sublist.
  eapply StronglySorted_sublist; [done|by eapply preorder_precedes].
Qed.

(** Ancestors first: the selection names no node after a node inside it. *)
Lemma querySelectorAll_sorted root sel l :
  querySelectorAll h root sel = Some l → StronglySorted (before h) l.
Proof using Hforest.
  intros Hl. eapply StronglySorted_impl_elem_of; [|by eapply querySelectorAll_precedes].
  eauto using precedes_before.
Qed.

End tree_order.

Section querySelectorAll.
Implicit Types (h : gmap nat node) (root x : nat) (sel : Css.selector).

Lemma querySelectorAll_total h root sel :
  acyclic h → is_Some (h !! root) → is_Some (querySelectorAll h root sel).
Proof.
  intros Hac Hroot. unfold querySelectorAll, descendants.
  by apply fmap_is_Some, fmap_is_Some, preorder_total.
Qed.

Lemma querySelectorAll_elem_of h root sel l x :
  acyclic h → querySelectorAll h root sel = Some l →
  x ∈ l ↔ reach h root x ∧ x ≠ root ∧ node_matches h sel x = true.
Proof.
  intros Hac. unfold querySelectorAll, descendants. intros Hl.
  destruct (preorder (size h) h root) as [k|] eqn:Hk; simplify_eq/=.
  rewrite list_elem_of_filter.
  pose proof Hk as (?&nd&ls&_&Hroot&Hls&->)%preorder_Some_inv. simpl.
  split.
  - intros [Hm (k&Hx&Hk')%list_elem_of_join]. split_and!; [|intros ->|done].
    + eapply preorder_reach; [done|]. by apply list_elem_of_further, list_elem_of_join; eauto.
    + destruct (mapM_Some_elem_of_r _ _ _ _ Hls Hk') as (c&Hc&Hck).
      eapply (reach_child_irrefl h root nd c); eauto using preorder_reach.
  - intros (Hr&Hne&Hm). split; [done|].
    eapply reach_preorder, elem_of_cons in Hr as [?|?]; [|done..]. done.
Qed.

(** What matching a class selector is: the node is an element and the
    name is one of the names of its class attribute. *)
Lemma node_matches_class h name x :
  node_matches h (Css.ClassSelector name) x = true ↔
  ∃ cn cs, h !! x = Some (Element cn cs) ∧ name ∈ Css.classList cn.
Proof.
  unfold node_matches. split.
  - destruct (h !! x) as [[|cn cs| |]|]; try done. simpl.
    intros Hm%bool_decide_eq_true. by exists cn, cs.
  - intros (cn&cs&->&Hm). simpl. by apply bool_decide_eq_true.
Qed.

(** Every selected node is an element. *)
Lemma querySelectorAll_element h root sel l x :
  querySelectorAll h root sel = Some l → x ∈ l →
  ∃ cn cs, h !! x = Some (Element cn cs).
Proof.
  unfold querySelectorAll. intros Hl Hx.
  destruct (descendants h root) as [k|]; simplify_eq/=.
  apply list_elem_of_filter in Hx as [Hm _]. unfold node_matches in Hm.
  destruct (h !! x) as [[]|]; try done. eauto.
Qed.

End querySelectorAll.

(** ** Typing: the strings of the store are strings of 16-bit code units *)

Definition node_typed (nd : node) : Prop :=
  match nd with
  | Document _ => True
  | Element cn _ => Str.wf cn
  | Text d | Comment d => Str.wf d
  end.

Definition typed (h : gmap nat node) : Prop := map_Forall (λ _ nd, node_typed nd) h.

#[global] Instance node_typed_dec nd : Decision (node_typed nd).
Proof. destruct nd; apply _. Defined.

#[global] Instance typed_dec h : Decision (typed h).
Proof. unfold typed. apply _. Defined.

Section typing.
Implicit Types (h : gmap nat node) (id x : nat) (s t : list N).

Lemma text_data_typed h x : typed h → Str.wf (text_data h x).
Proof.
  intros Hty. unfold text_data. destruct (h !! x) as [[]|] eqn:Hx; try by constructor.
  apply (Hty x _ Hx).
Qed.

(** What the getter returns is a string of code units. *)
Lemma textContent_typed h id t :
  typed h → textContent h id = Some (Some t) → Str.wf t.
Proof.
  intros Hty. unfold textContent, text_of.
  destruct (h !! id) as [[cs|cn cs|d|d]|] eqn:Hid; try done.
  - destruct (preorder (size h) h id) as [l|]; [|done]. intros [= <-].
    apply Forall_join, Forall_fmap, list.Forall_forall. intros x _.
    by apply text_data_typed.
  - intros [= <-]. apply (Hty id _ Hid).
  - intros [= <-]. apply (Hty id _ Hid).
Qed.

(** The setter keeps the store typed when it is given one. *)
Lemma set_textContent_typed h id s h' :
  typed h → Str.wf s → set_textContent h id s = Some h' → typed h'.
Proof.
  intros Hty Hs. unfold set_textContent.
  destruct (h !! id) as [[cs|cn cs|d|d]|] eqn:Hid; try done.
  - by intros [= <-].
  - pose proof (Hty id _ Hid) as Hcn. case_decide; intros [= <-].
    + by apply map_Forall_insert_2.
    + by repeat apply map_Forall_insert_2.
  - intros [= <-]. by apply map_Forall_insert_2.
  - intros [= <-]. by apply map_Forall_insert_2.
Qed.

End typing.

(** ** The properties of the store *)

(** A store to run the calls on: a document, a body with a badge that holds
    markup, and a comment. *)
Definition example_store : gmap nat node :=
  list_to_map [
    (0, Document [1]);
    (1, Element [] [2; 6]);
    (2, Element [113; 117; 97; 114; 116; 111; 45; 99; 97; 116; 101; 103; 111;
                 114; 121; 45; 99; 111; 117; 110; 116]%N [3; 4]);
    (3, Text [40]%N);
    (4, Element [98]%N [5]);
    (5, Text [53; 41]%N);
    (6, Comment [120]%N)].

(** A store with a cycle, on which no fuel is enough. *)
Definition cyclic_store : gmap nat node :=
  list_to_map [(0, Element [] [1]); (1, Element [] [0])].

Example example_store_forest : forest example_store.
Proof. apply (bool_decide_unpack _). by vm_compute. Qed.

Example cyclic_store_not_acyclic : ¬ acyclic cyclic_store.
Proof. apply (bool_decide_unpack _). by vm_compute. Qed.

Example cyclic_store_stuck : textContent cyclic_store 0 = None.
Proof. by vm_compute. Qed.

(** Two elements of one class side by side. *)
Definition sibling_store : gmap nat node :=
  list_to_map [(0, Document [1; 2]); (1, Element [98]%N []); (2, Element [98]%N [])].

(** Tree order tells siblings apart: the selection lists the first before
    the second, and the other way round is not in tree order. *)
Example siblings_in_order :
  querySelectorAll sibling_store 0 (Css.ClassSelector [98]%N) = Some [1; 2] ∧
  StronglySorted (precedes sibling_store) [1; 2] ∧
  ¬ StronglySorted (precedes sibling_store) [2; 1].
Proof.
  assert (forest sibling_store) as Hf by (apply (bool_decide_unpack _); by vm_compute).
  assert (StronglySorted (precedes sibling_store) [1; 2]) as Hs
    by by apply (querySelectorAll_precedes _ Hf 0 (Css.ClassSelector [98]%N)).
  split_and!; [done..|]. intros [_ [H21 _]%list.Forall_cons]%StronglySorted_inv.
  apply StronglySorted_inv in Hs as [_ [H12 _]%list.Forall_cons].
  by apply (precedes_asym _ Hf 1 2).
Qed.

Section claims.
Implicit Types (h : gmap nat node) (id root x : nat) (s : list N) (sel : Css.selector).

(** C22. The traversal ends within the fuel the calls pass: on an acyclic
    store, from any node of it, [preorder] with the size of the store as
    fuel gives a list, more fuel gives the same list, and the list holds
    exactly the node and its descendants. *)
Theorem preorder_terminates h id :
  acyclic h → is_Some (h !! id) →
  ∃ l, preorder (size h) h id = Some l ∧
       (∀ f, size h ≤ f → preorder f h id = Some l) ∧
       (∀ x, x ∈ l ↔ reach h id x).
Proof.
  intros Hac Hid. destruct (preorder_total h id Hac Hid) as [l Hl].
  exists l. split_and!; [done|..].
  - intros f Hf. by rewrite preorder_fuel_ge.
  - intros x. split; [by eapply preorder_reach|by eapply reach_preorder].
Qed.

Lemma preorder_terminates_witness :
  ∃ l, preorder (size example_store) example_store 1 = Some l ∧
       (∀ f, size example_store ≤ f → preorder f example_store 1 = Some l) ∧
       (∀ x, x ∈ l ↔ reach example_store 1 x).
Proof.
  apply preorder_terminates; [|by eexists].
  apply (bool_decide_unpack _). by vm_compute.
Defined.

(** C7. Reading back what was written: on an element of an acyclic
    store the assignment [id.textContent = s] succeeds and [id.textContent]
    is then [s]. *)
Theorem textContent_roundtrip h id cn cs s :
  acyclic h → h !! id = Some (Element cn cs) →
  ∃ h', set_textContent h id s = Some h' ∧ textContent h' id = Some (Some s).
Proof.
  intros Hac Hid. destruct (set_textContent_is_Some h id s) as [h' Hset]; [eauto|].
  exists h'. split; [done|]. by eapply textContent_set_same.
Qed.

Lemma textContent_roundtrip_witness :
  ∃ h', set_textContent example_store 2 [53]%N = Some h' ∧
        textContent h' 2 = Some (Some [53]%N).
Proof.
  eapply textContent_roundtrip; [|by vm_compute].
  apply (bool_decide_unpack _). by vm_compute.
Defined.

(** C4. The setter keeps the invariant: on any node of a forest it
    succeeds and leaves a forest. *)
Theorem set_textContent_invariant h id s :
  forest h → is_Some (h !! id) →
  ∃ h', set_textContent h id s = Some h' ∧ forest h'.
Proof.
  intros Hf Hid. destruct (set_textContent_is_Some h id s Hid) as [h' Hset].
  exists h'. split; [done|]. by eapply set_textContent_forest.
Qed.

Lemma set_textContent_invariant_witness :
  ∃ h', set_textContent example_store 2 [53]%N = Some h' ∧ forest h'.
Proof.
  apply set_textContent_invariant; [|by eexists].
  apply (bool_decide_unpack _). by vm_compute.
Defined.

(** C30. The setter destroys the markup inside the element: after the
    assignment none of the former children is a descendant of the element;
    they stay in the store, detached. *)
Theorem set_textContent_detaches h id cn cs s h' c :
  forest h → h !! id = Some (Element cn cs) →
  set_textContent h id s = Some h' → c ∈ cs →
  ¬ reach h' id c ∧ h' !! c = h !! c.
Proof.
  intros [Hac Ht] Hid Hset Hc.
  assert (is_Some (h !! c)) as Hold by (destruct Hac as [Hcl _]; by eapply Hcl).
  assert (c ≠ id) as Hne.
  { intros ->. eapply (reach_child_irrefl h id); eauto using reach. }
  split; [|by eapply assignment_other].
  intros Hr. by apply Hne, (assignment_detaches Hid Hset).
Qed.

Lemma set_textContent_detaches_witness :
  ∃ h', set_textContent example_store 2 [53]%N = Some h' ∧
        ¬ reach h' 2 4 ∧ h' !! 4 = example_store !! 4.
Proof.
  destruct (set_textContent example_store 2 [53]%N) as [h'|] eqn:Hset; [|by vm_compute in Hset].
  exists h'. split; [done|].
  eapply (set_textContent_detaches example_store 2 _ [3; 4] [53]%N h' 4);
    [apply (bool_decide_unpack _); by vm_compute|by vm_compute|done|].
  apply list_elem_of_further, list_elem_of_here.
Defined.

(** C6. [querySelectorAll] on a forest returns the descendants of the
    root that match the selector, each once and in tree order: a node
    before the nodes inside it, and the nodes inside an earlier child of a
    node before those inside a later one.  No other list holds these nodes
    in tree order. *)
Theorem querySelectorAll_spec h root sel :
  forest h → is_Some (h !! root) →
  ∃ l, querySelectorAll h root sel = Some l ∧
       StronglySorted (precedes h) l ∧ NoDup l ∧
       (∀ x, x ∈ l ↔ reach h root x ∧ x ≠ root ∧ node_matches h sel x = true) ∧
       ∀ k, StronglySorted (precedes h) k → (∀ x, x ∈ k ↔ x ∈ l) → k = l.
Proof.
  intros Hf Hroot. pose proof Hf as [Hac _].
  destruct (querySelectorAll_total h root sel Hac Hroot) as [l Hl].
  pose proof (querySelectorAll_precedes h Hf root sel l Hl) as Hsorted.
  exists l. split_and!; [done..| |by intros x; apply querySelectorAll_elem_of|].
  - eapply StronglySorted_NoDup; [|done]. intros x Hx. by apply (precedes_asym h Hf x x).
  - intros k Hk Hkl. eapply StronglySorted_unique; eauto using precedes_asym.
Qed.

Lemma querySelectorAll_spec_witness :
  ∃ l, querySelectorAll example_store 0 (Css.ClassSelector [98]%N) = Some l ∧
       StronglySorted (precedes example_store) l ∧ NoDup l ∧
       (∀ x, x ∈ l ↔ reach example_store 0 x ∧ x ≠ 0 ∧
                     node_matches example_store (Css.ClassSelector [98]%N) x = true) ∧
       ∀ k, StronglySorted (precedes example_store) k → (∀ x, x ∈ k ↔ x ∈ l) → k = l.
Proof.
  apply querySelectorAll_spec; [|by eexists].
  apply (bool_decide_unpack _). by vm_compute.
Defined.

End claims.

(** ** The store implements the interface of [Store] *)

(** The node is an element of the store. *)
Definition element (h : gmap nat node) (x : nat) : Prop :=
  ∃ cn cs, h !! x = Some (Element cn cs).

#[global] Instance dom_store : TextStore (gmap nat node) := {|
  store_wf := forest;
  store_node h y := is_Some (h !! y);
  store_element := element;
  store_inside := reach;
  store_text := textContent;
  store_set_text := set_textContent;
|}.

Section store_laws.
Implicit Types (h : gmap nat node) (x y z : nat) (s : list N).

Lemma set_textContent_element h x s h' y :
  element h x → set_textContent h x s = Some h' → element h y → element h' y.
Proof.
  intros (cn&cs&Hx) Hset (cn'&cs'&Hy). destruct (decide (y = x)) as [->|Hne].
  - destruct (assignment_self Hx Hset) as [kids Hk]. by exists cn, kids.
  - exists cn', cs'. by rewrite (assignment_other Hx Hset) by eauto.
Qed.

#[global] Instance dom_store_laws : TextStoreLaws (gmap nat node).
Proof.
  split; simpl.
  - intros h x (cn&cs&Hx). eauto.
  - intros h x. constructor.
  - intros h x [Hac _] (cn&cs&Hx). by eapply textContent_element.
  - intros h x s (cn&cs&Hx). apply set_textContent_is_Some. eauto.
  - intros h x s h' Hf _ Hset. by eapply set_textContent_forest.
  - intros h x s h' y (cn&cs&Hx) Hset. by apply (assignment_is_Some Hx Hset).
  - apply set_textContent_element.
  - intros h x s h' [Hac _] (cn&cs&Hx) Hset. by eapply textContent_set_same.
  - intros h x s h' y Hf (cn&cs&Hx) Hset. by apply (assignment_frame Hf Hx Hset).
  - intros h x s h' y z (cn&cs&Hx) Hset. by apply (assignment_reach Hx Hset).
  - intros h x s h' z (cn&cs&Hx) Hset. by apply (assignment_detaches Hx Hset).
Qed.

(** The loop of [Store] keeps the store typed when [f] keeps strings
    typed. *)
Lemma cut_all_typed (f : list N → list N) (l : list nat) h h' :
  (∀ t, Str.wf t → Str.wf (f t)) →
  typed h → cut_all f l h = Some h' → typed h'.
Proof.
  intros Hf. revert h. induction l as [|x l IH]; intros h Hty Hcut.
  { by injection Hcut as <-. }
  simpl in Hcut. destruct (textContent h x) as [[t|]|] eqn:Ht; try done.
  destruct (set_textContent h x (f t)) as [h1|] eqn:Hset; [|done].
  apply (IH h1); [|done].
  eapply set_textContent_typed; [done| |done]. by eapply Hf, textContent_typed.
Qed.

End store_laws.

End Dom.
