(* ===== verification/Page.v ===== *)
(** * The page: what the script's calls act on

    The state the script runs against, and the calls of
    [src/_resources/js/scripts.js] as computations of the monad [M page]:
    [console.log] (line 2), [document.querySelectorAll] (line 3),
    [NodeList.prototype.forEach] (line 4), the getter and the setter of
    [textContent] (lines 5, 7 and 9) and [document.addEventListener]
    (line 1).  Each call is the pure operation of [Dom] lifted to the state,
    [Throw] standing for the exceptions of the calls ([SyntaxError] on a
    string that is no selector) and [Stuck] for what the model does not
    cover (a selector outside the fragment, a node missing from the
    store).  [page_wf] is the invariant of a page and [page_typed] its
    typing. *)

From stdpp Require Import gmap list option numbers sorting.
From Stdlib Require String.
Import String.StringSyntax.
From S2P Require Import Prelude JsString Css Dom.

(** ** State *)

(** [document.readyState]. *)
Inductive readyState : Type :=
| Loading
| Interactive
| Complete.

#[export] Instance readyState_eq_dec : EqDecision readyState.
Proof. solve_decision. Defined.

(** A registered listener: the event type and the identity of the function
    object.  Every evaluation of a function expression makes a new object. *)
Record listener : Type := Listener {
  l_type : list N;
  l_callback : nat;
}.

#[export] Instance listener_eq_dec : EqDecision listener.
Proof. solve_decision. Defined.

Record page : Type := Page {
  nodes : gmap nat Dom.node;       (* the node store *)
  document : nat;                  (* the identity of the document node *)
  console : list (list N);         (* the messages logged, oldest first *)
  listeners : list listener;       (* the document's listeners, in order *)
  ready : readyState;
}.

Definition set_nodes (p : page) (h : gmap nat Dom.node) : page :=
  Page h (document p) (console p) (listeners p) (ready p).

Definition set_console (p : page) (c : list (list N)) : page :=
  Page (nodes p) (document p) c (listeners p) (ready p).

Definition set_listeners (p : page) (ls : list listener) : page :=
  Page (nodes p) (document p) (console p) ls (ready p).

Definition set_ready (p : page) (r : readyState) : page :=
  Page (nodes p) (document p) (console p) (listeners p) r.

(** The invariant of a page: its store is a forest and its document node is
    a document. *)
Definition page_wf (p : page) : Prop :=
  Dom.forest (nodes p) ∧ ∃ cs, nodes p !! document p = Some (Dom.Document cs).

(** The typing of a page: every string it holds is a string of 16-bit code
    units. *)
Definition page_typed (p : page) : Prop :=
  Dom.typed (nodes p) ∧ Forall Str.wf (console p) ∧
  Forall (λ l, Str.wf (l_type l)) (listeners p).

#[global] Instance page_typed_dec p : Decision (page_typed p).
Proof. unfold page_typed. apply _. Defined.

(** The page before the parser has read anything: a document without
    children, nothing logged, no listener. *)
Definition blank_page : page := Page {[0 := Dom.Document []]} 0 [] [] Loading.

(** Lifting a partial pure operation: [None] is [Stuck]. *)
Definition lift_option {A} (o : page → option A) : M page A :=
  λ p, match o p with Some a => Done a p | None => Stuck end.

(** ** The calls *)

Module Console.

(** [console.log(msg)]. *)
Definition log (msg : list N) : M page unit :=
  m_modify (λ p, set_console p (console p ++ [msg])).

End Console.

Module Document.

(** [document.querySelectorAll(sel)]: a string that is no selector throws
    a [SyntaxError]; a selector outside the fragment is outside the model. *)
Definition querySelectorAll (sel : list N) : M page (list nat) :=
  match Css.parse_selector sel with
  | Css.Parsed s => lift_option (λ p, Dom.querySelectorAll (nodes p) (document p) s)
  | Css.Invalid => m_throw SyntaxError
  | Css.Unsupported => m_stuck
  end.

(** [document.addEventListener(type, callback)]: the listener is appended,
    unless the same function object is already registered for the type. *)
Definition addEventListener (type : list N) (callback : nat) : M page unit :=
  m_modify (λ p,
    if decide (Listener type callback ∈ listeners p) then p
    else set_listeners p (listeners p ++ [Listener type callback])).

End Document.

Module Node.

(** [node.textContent]. *)
Definition textContent (n : nat) : M page (option (list N)) :=
  lift_option (λ p, Dom.textContent (nodes p) n).

(** [node.textContent = v]. *)
Definition set_textContent (n : nat) (v : list N) : M page unit :=
  λ p, match Dom.set_textContent (nodes p) n v with
       | Some h => Done tt (set_nodes p h)
       | None => Stuck
       end.

End Node.

Module NodeList.

(** [list.forEach(callback)] on a static list: the callback runs on each
    node in order; a throw ends the loop. *)
Fixpoint forEach (l : list nat) (callback : nat → M page unit) : M page unit :=
  match l with
  | [] => mret tt
  | x :: l' => callback x ;; forEach l' callback
  end.

End NodeList.

(** ** Laws of the calls *)

Section calls.
Implicit Types (p : page) (n : nat) (s : list N).

Lemma log_run msg p : Console.log msg p = Done tt (set_console p (console p ++ [msg])).
Proof. reflexivity. Qed.

Lemma textContent_run n p v :
  Dom.textContent (nodes p) n = Some v → Node.textContent n p = Done v p.
Proof. unfold Node.textContent, lift_option. by intros ->. Qed.

Lemma set_textContent_run n s p h :
  Dom.set_textContent (nodes p) n s = Some h →
  Node.set_textContent n s p = Done tt (set_nodes p h).
Proof. unfold Node.set_textContent. by intros ->. Qed.

Lemma querySelectorAll_run sel (q : Css.selector) p l :
  Css.parse_selector sel = Css.Parsed q →
  Dom.querySelectorAll (nodes p) (document p) q = Some l →
  Document.querySelectorAll sel p = Done l p.
Proof.
  unfold Document.querySelectorAll, lift_option. intros -> Hl. by rewrite Hl.
Qed.

Lemma querySelectorAll_invalid sel p :
  Css.parse_selector sel = Css.Invalid →
  Document.querySelectorAll sel p = Throw SyntaxError p.
Proof. unfold Document.querySelectorAll. by intros ->. Qed.

Lemma addEventListener_new type callback p :
  Listener type callback ∉ listeners p →
  Document.addEventListener type callback p =
    Done tt (set_listeners p (listeners p ++ [Listener type callback])).
Proof. intros Hnew. unfold Document.addEventListener, m_modify. by case_decide. Qed.

Lemma addEventListener_old type callback p :
  Listener type callback ∈ listeners p →
  Document.addEventListener type callback p = Done tt p.
Proof. intros Hold. unfold Document.addEventListener, m_modify. by case_decide. Qed.

Lemma forEach_nil callback p : NodeList.forEach [] callback p = Done tt p.
Proof. reflexivity. Qed.

Lemma forEach_cons x l callback p :
  NodeList.forEach (x :: l) callback p =
    (callback x ;; NodeList.forEach l callback) p.
Proof. reflexivity. Qed.

Lemma forEach_app l1 l2 callback p :
  NodeList.forEach (l1 ++ l2) callback p =
    (NodeList.forEach l1 callback ;; NodeList.forEach l2 callback) p.
Proof.
  revert p. induction l1 as [|x l1 IH]; intros p; [done|].
  simpl. monad_unfold. destruct (callback x p); [by rewrite IH|done..].
Qed.

End calls.

(** ** Registration and selection *)

Section registration.
Implicit Types (p : page) (c : nat) (type : list N).

(** Registering the same function object twice for the event is
    registering it once: the second call of line 1 with the same callback
    changes nothing. *)
Theorem addEventListener_idempotent type c p :
  (Document.addEventListener type c ;; Document.addEventListener type c) p =
    Document.addEventListener type c p.
Proof.
  monad_unfold. destruct (decide (Listener type c ∈ listeners p)) as [Hin|Hnew].
  - by rewrite !addEventListener_old.
  - rewrite (addEventListener_new _ _ _ Hnew), addEventListener_old; [done|].
    simpl. apply elem_of_app. right. by left.
Qed.

(** C16. Line 3 on a well-formed page:
    [document.querySelectorAll('.quarto-category-count')] returns and
    leaves the page as it is, and the list it returns holds, in tree order,
    the elements inside the document that have [quarto-category-count]
    among the names of their class attribute, and nothing else. *)
Theorem querySelectorAll_badges p :
  page_wf p →
  ∃ l, Document.querySelectorAll (Str.lit ".quarto-category-count") p = Done l p ∧
       StronglySorted (Dom.precedes (nodes p)) l ∧
       ∀ x, x ∈ l ↔
         Dom.reach (nodes p) (document p) x ∧
         ∃ cn cs, nodes p !! x = Some (Dom.Element cn cs) ∧
                  Str.lit "quarto-category-count" ∈ Css.classList cn.
Proof.
  intros [Hf [ds Hdoc]]. pose proof Hf as [Hac _].
  destruct (Dom.querySelectorAll_total (nodes p) (document p)
              (Css.ClassSelector (Str.lit "quarto-category-count"))) as [l Hl];
    [done|eauto|].
  exists l. split_and!.
  - by apply (querySelectorAll_run _ (Css.ClassSelector (Str.lit "quarto-category-count"))).
  - by eapply Dom.querySelectorAll_precedes.
  - intros x. rewrite (Dom.querySelectorAll_elem_of _ _ _ _ _ Hac Hl).
    rewrite Dom.node_matches_class. split; [tauto|].
    intros (Hx&cn&cs&Hcn&Hcl). split_and!; [done| |by eauto].
    intros ->. by rewrite Hdoc in Hcn.
Qed.

Lemma querySelectorAll_badges_witness :
  ∃ l, Document.querySelectorAll (Str.lit ".quarto-category-count")
         (Page Dom.example_store 0 [] [] Loading) =
       Done l (Page Dom.example_store 0 [] [] Loading) ∧
       StronglySorted (Dom.precedes Dom.example_store) l ∧
       ∀ x, x ∈ l ↔
         Dom.reach Dom.example_store 0 x ∧
         ∃ cn cs, Dom.example_store !! x = Some (Dom.Element cn cs) ∧
                  Str.lit "quarto-category-count" ∈ Css.classList cn.
Proof.
  apply (querySelectorAll_badges (Page Dom.example_store 0 [] [] Loading)).
  split; [|by eexists]. apply (bool_decide_unpack _). by vm_compute.
Defined.

End registration.
