(* ===== verification/Script.v ===== *)
(** * The script

    [src/_resources/js/scripts.js], statement by statement: the callback of
    [forEach] (lines 4-11), the listener of [DOMContentLoaded] (lines 1-12)
    and the registration the script performs when it is evaluated (line 1).
    The theorems say what the listener does to a well-formed page: it never
    throws, it logs one message, and every selected badge ends with its
    text cut by [Str.strip], whether or not badges are nested. *)

From stdpp Require Import gmap list option numbers sorting.
From Stdlib Require String.
Import String.StringSyntax.
From S2P Require Import Prelude JsString Css Store Dom Page.

(** ** Definitions *)

(** Lines 4-11: [count => { let text = count.textContent; if (text.length >
    1) count.textContent = text.slice(1, -1); else count.textContent = '' }].
    Reading [.length] of [null] throws a [TypeError]. *)
Definition count_callback (count : nat) : M page unit :=
  text ← Node.textContent count;
  match text with
  | None => m_throw TypeError
  | Some text =>
      if (Str.length text >? 1)%Z
      then Node.set_textContent count (Str.slice text 1 (-1))
      else Node.set_textContent count []
  end.

(** Lines 1-12, the body of the listener. *)
Definition DOMContentLoaded_listener : M page unit :=
  Console.log (Str.lit "X") ;;
  counts ← Document.querySelectorAll (Str.lit ".quarto-category-count");
  NodeList.forEach counts count_callback.

(** Line 1, what evaluating the script does: it registers the function
    object [callback] for [DOMContentLoaded]. *)
Definition script (callback : nat) : M page unit :=
  Document.addEventListener (Str.lit "DOMContentLoaded") callback.

(** The selector of line 3, parsed. *)
Definition badge_selector : Css.selector :=
  Css.ClassSelector (Str.lit "quarto-category-count").

(** ** The callback on one badge *)

Section callback.
Implicit Types (p : page) (x y : nat) (t : list N).

Lemma badge_selector_parse :
  Css.parse_selector (Str.lit ".quarto-category-count") = Css.Parsed badge_selector.
Proof. reflexivity. Qed.

(** The two branches of the callback write the same value, [Str.strip]. *)
Lemma count_callback_strip x p t :
  Dom.textContent (nodes p) x = Some (Some t) →
  count_callback x p = Node.set_textContent x (Str.strip t) p.
Proof.
  intros Ht. unfold count_callback. monad_unfold.
  rewrite (textContent_run _ _ _ Ht). unfold Str.strip. by case_match.
Qed.

Lemma count_callback_null x p :
  Dom.textContent (nodes p) x = Some None →
  count_callback x p = Throw TypeError p.
Proof.
  intros Ht. unfold count_callback. monad_unfold.
  by rewrite (textContent_run _ _ _ Ht).
Qed.

End callback.

(** ** The loop over the selected badges *)

(** Every node of the list is an element of the store. *)
Definition elements_of (h : gmap nat Dom.node) (l : list nat) : Prop :=
  ∀ x, x ∈ l → ∃ cn cs, h !! x = Some (Dom.Element cn cs).

(** [changed h l h']: what the loop over [l] makes of the nodes of the
    store [h].  The nodes outside the list are as they were; a node of the
    list is the same element, with the cut text as its only child. *)
Record changed (h : gmap nat Dom.node) (l : list nat) (h' : gmap nat Dom.node) : Prop := {
  changed_other : ∀ y, is_Some (h !! y) → y ∉ l → h' !! y = h !! y;
  changed_element : ∀ x cn cs, x ∈ l → h !! x = Some (Dom.Element cn cs) →
    ∃ kids, h' !! x = Some (Dom.Element cn kids);
  changed_kids : ∀ x cn cs t, x ∈ l → h !! x = Some (Dom.Element cn cs) →
    Dom.textContent h x = Some (Some t) →
    ∃ kids, h' !! x = Some (Dom.Element cn kids) ∧ Dom.text_leaf h' kids (Str.strip t);
}.

(** [looped h l h']: what running the callback over the list [l] makes of
    the store [h]: the store the loop of [Store] computes, with its texts,
    by the specification of the loop over any store ([cut_spec]), and its
    nodes. *)
Record looped (h : gmap nat Dom.node) (l : list nat) (h' : gmap nat Dom.node) : Prop := {
  looped_run : cut_all Str.strip l h = Some h';
  looped_text : cut_spec Str.strip h l h';
  looped_nodes : changed h l h';
}.

Section loop.
Implicit Types (p : page) (h : gmap nat Dom.node) (l : list nat) (x y : nat).

Lemma set_nodes_nodes p : set_nodes p (nodes p) = p.
Proof. by destruct p. Qed.

Lemma elements_of_Forall h l : elements_of h l ↔ Forall (Dom.element h) l.
Proof. by rewrite list.Forall_forall. Qed.

(** The callback of the script is the loop of [Store] on the store of the
    page. *)
Lemma forEach_cut_all l p h' :
  cut_all Str.strip l (nodes p) = Some h' →
  NodeList.forEach l count_callback p = Done tt (set_nodes p h').
Proof.
  revert p. induction l as [|x l IH]; intros p Hcut.
  { injection Hcut as <-. by rewrite set_nodes_nodes. }
  simpl in Hcut. destruct (Dom.textContent (nodes p) x) as [[t|]|] eqn:Ht; try done.
  destruct (Dom.set_textContent (nodes p) x (Str.strip t)) as [h1|] eqn:Hset; [|done].
  rewrite forEach_cons. monad_unfold.
  rewrite (count_callback_strip _ _ _ Ht), (set_textContent_run _ _ _ _ Hset).
  by apply (IH (set_nodes p h1)).
Qed.

Lemma changed_nil h : changed h [] h.
Proof.
  split; [done|..].
  - by intros x cn cs ?%elem_of_nil.
  - by intros x cn cs t ?%elem_of_nil.
Qed.

(** The children the first badge gets are not touched by the rest of the
    loop. *)
Lemma changed_cons_kids h x cn cs t h1 l h' :
  h !! x = Some (Dom.Element cn cs) →
  Dom.set_textContent h x (Str.strip t) = Some h1 →
  elements_of h l → x ∉ l →
  (∀ y, is_Some (h1 !! y) → y ∉ l → h' !! y = h1 !! y) →
  ∃ kids, h' !! x = Some (Dom.Element cn kids) ∧ Dom.text_leaf h' kids (Str.strip t).
Proof.
  intros Hx Hset Hels Hout Hother.
  destruct (Dom.assignment_kids Hx Hset) as (kids&Hk&Hleaf&Hnew).
  exists kids. split; [rewrite Hother; [done|eauto|done]|].
  eapply Dom.text_leaf_other; [done|]. intros c Hc. apply Hother.
  - destruct Hleaf as [[-> _]|(tn&->&_&Htn)]; [by apply elem_of_nil in Hc|].
    apply list_elem_of_singleton in Hc as ->. eauto.
  - intros (?&?&Hin)%Hels. by rewrite (Hnew c Hc) in Hin.
Qed.

(** One step of the loop: the first badge is cut, and the loop over the
    rest, none of which holds the first, does not touch it again. *)
Lemma changed_cons h x cn cs t h1 l h' :
  Dom.forest h → h !! x = Some (Dom.Element cn cs) →
  Forall (Dom.before h x) l → elements_of h l →
  Dom.textContent h x = Some (Some t) →
  Dom.set_textContent h x (Str.strip t) = Some h1 →
  changed h1 l h' → changed h (x :: l) h'.
Proof.
  intros Hf Hx Hbefore Hels Ht Hset [Hother Helem Hleaf].
  rewrite list.Forall_forall in Hbefore.
  pose proof (Dom.assignment_is_Some Hx Hset) as Hdom.
  assert (∀ z, z ∈ l → is_Some (h !! z) ∧ z ≠ x) as Hold.
  { intros z Hz. destruct (Hels z Hz) as (?&?&?). split; [eauto|].
    intros ->. by eapply Hbefore; [|constructor]. }
  split.
  - intros y Hy [Hne Hout]%not_elem_of_cons.
    by rewrite Hother, (Dom.assignment_other Hx Hset) by auto.
  - intros x' cn' cs' [->|Hx']%elem_of_cons Hnd.
    + destruct (Dom.assignment_self Hx Hset) as [kids Hkids]. simplify_eq.
      exists kids. rewrite Hother; [done|eauto|]. intros Hin. by destruct (Hold x Hin).
    + destruct (Hold x' Hx'). eapply Helem; [done|].
      by rewrite (Dom.assignment_other Hx Hset).
  - intros x' cn' cs' t' [->|Hx']%elem_of_cons Hnd Ht'.
    + simplify_eq. eapply changed_cons_kids; eauto. intros Hin. by destruct (Hold x Hin).
    + destruct (Hold x' Hx'). eapply Hleaf; [done|by rewrite (Dom.assignment_other Hx Hset)|].
      rewrite (Dom.assignment_frame Hf Hx Hset); [done..|by apply Hbefore].
Qed.

(** The nodes the loop of [Store] leaves, on the store of the page. *)
Lemma cut_all_changed l h h' :
  Dom.forest h → StronglySorted (Dom.before h) l → elements_of h l →
  cut_all Str.strip l h = Some h' → changed h l h'.
Proof.
  revert h. induction l as [|x l IH]; intros h Hf Hsorted Hels Hcut.
  { injection Hcut as <-. apply changed_nil. }
  simpl in Hcut. destruct (Dom.textContent h x) as [[t|]|] eqn:Ht; try done.
  destruct (Dom.set_textContent h x (Str.strip t)) as [h1|] eqn:Hset; [|done].
  apply elements_of_Forall, Forall_cons in Hels as [(cn&cs&Hx) Hels].
  apply StronglySorted_cons in Hsorted as [Hbefore Hsorted].
  destruct (set_text_sorted h x (Str.strip t) h1 l) as [Hels1 Hsorted1]; [by exists cn, cs|done..|].
  eapply changed_cons; [done..|by apply elements_of_Forall|done|done|].
  apply IH; [by eapply Dom.set_textContent_forest|done|by apply elements_of_Forall|done].
Qed.

(** The loop of lines 4-11 over a list in tree order completes and leaves a
    [looped] store; nothing but the store changes. *)
Lemma forEach_count_callback l p :
  Dom.forest (nodes p) → StronglySorted (Dom.before (nodes p)) l →
  elements_of (nodes p) l →
  ∃ h', NodeList.forEach l count_callback p = Done tt (set_nodes p h') ∧
        looped (nodes p) l h'.
Proof.
  intros Hf Hsorted Hels.
  destruct (cut_all_spec Str.strip l (nodes p)) as (h'&Hcut&Hspec);
    [done|by apply elements_of_Forall|done|].
  exists h'. split; [by apply forEach_cut_all|].
  split; [done..|by apply cut_all_changed].
Qed.

(** The parts of [looped], by name. *)

Lemma looped_forest h l h' : looped h l h' → Dom.forest h'.
Proof. intros [_ Htext _]. apply (cut_wf _ _ _ _ Htext). Qed.

Lemma looped_other h l h' :
  looped h l h' → ∀ y, is_Some (h !! y) → y ∉ l → h' !! y = h !! y.
Proof. intros [_ _ Hnodes]. apply (changed_other _ _ _ Hnodes). Qed.

Lemma looped_element h l h' :
  looped h l h' → ∀ x cn cs, x ∈ l → h !! x = Some (Dom.Element cn cs) →
  ∃ kids, h' !! x = Some (Dom.Element cn kids).
Proof. intros [_ _ Hnodes]. apply (changed_element _ _ _ Hnodes). Qed.

Lemma looped_kids h l h' :
  looped h l h' → ∀ x cn cs t, x ∈ l → h !! x = Some (Dom.Element cn cs) →
  Dom.textContent h x = Some (Some t) →
  ∃ kids, h' !! x = Some (Dom.Element cn kids) ∧ Dom.text_leaf h' kids (Str.strip t).
Proof. intros [_ _ Hnodes]. apply (changed_kids _ _ _ Hnodes). Qed.

Lemma looped_stripped h l h' :
  looped h l h' → ∀ x t, x ∈ l → Dom.textContent h x = Some (Some t) →
  Dom.textContent h' x = Some (Some (Str.strip t)).
Proof. intros [_ Htext _]. apply (cut_text _ _ _ _ Htext). Qed.

Lemma looped_frame h l h' :
  looped h l h' → ∀ y, is_Some (h !! y) → (∀ x, x ∈ l → ¬ Dom.reach h y x) →
  Dom.textContent h' y = Dom.textContent h y.
Proof. intros [_ Htext _]. apply (cut_frame _ _ _ _ Htext). Qed.

(** The loop keeps the store typed. *)
Lemma looped_typed h l h' : looped h l h' → Dom.typed h → Dom.typed h'.
Proof.
  intros [Hrun _ _] Hty. eapply Dom.cut_all_typed; [|done..]. apply Str.strip_wf.
Qed.

Lemma looped_is_Some h l h' y :
  looped h l h' → is_Some (h !! y) → is_Some (h' !! y).
Proof. intros [_ Htext _]. apply (cut_node _ _ _ _ Htext). Qed.

End loop.

(** ** The listener on a page *)

(** The page the listener leaves: the store it made, one more message. *)
Definition after (p : page) (h' : gmap nat Dom.node) : page :=
  Page h' (document p) (console p ++ [Str.lit "X"]) (listeners p) (ready p).

Section listener.
Implicit Types (p : page) (l : list nat) (x y : nat).

(** On a well-formed page the listener completes: it logs, selects the
    badges [l] in tree order and leaves the store the loop over [l] makes. *)
Lemma listener_run p :
  page_wf p →
  ∃ l h', Dom.querySelectorAll (nodes p) (document p) badge_selector = Some l ∧
          DOMContentLoaded_listener p = Done tt (after p h') ∧
          looped (nodes p) l h'.
Proof.
  intros [Hf [cs Hdoc]].
  destruct (Dom.querySelectorAll_total (nodes p) (document p) badge_selector)
    as [l Hl]; [by destruct Hf|eauto|].
  destruct (forEach_count_callback l (set_console p (console p ++ [Str.lit "X"])))
    as (h'&Hrun&Hloop); simpl.
  - done.
  - by eapply Dom.querySelectorAll_sorted.
  - intros x Hx. by eapply Dom.querySelectorAll_element.
  - exists l, h'. split_and!; [done| |done].
    unfold DOMContentLoaded_listener. monad_unfold. rewrite log_run.
    by rewrite (querySelectorAll_run _ _ (set_console p _) l badge_selector_parse Hl), Hrun.
Qed.

Lemma after_wf p l h' :
  page_wf p → elements_of (nodes p) l → looped (nodes p) l h' →
  page_wf (after p h').
Proof.
  intros [_ [cs Hdoc]] Hels Hloop. split; [by eapply looped_forest|].
  exists cs. simpl. rewrite (looped_other _ _ _ Hloop); [done|eauto|].
  intros (?&?&?)%Hels. congruence.
Qed.

(** The listener keeps the page typed. *)
Lemma after_typed p l h' :
  page_typed p → looped (nodes p) l h' → page_typed (after p h').
Proof.
  intros (Hty&Hcon&Hls) Hloop. split_and!; simpl; [by eapply looped_typed| |done].
  apply Forall_app. split; [done|]. repeat constructor.
Qed.

End listener.

(** ** A page to run the script on *)

(** A category list with two badges side by side, ["(5)"] and ["(12)"], and
    one badge that holds another:
    [<body><div class="quarto-category">News<span class="quarto-category-count">(5)</span></div>
     <span class="x quarto-category-count">(<b class="quarto-category-count">[12]</b>)</span>
     <span class="quarto-category-count">(12)</span></body>]. *)
Definition example_nodes : gmap nat Dom.node :=
  list_to_map [
    (0, Dom.Document [1]);
    (1, Dom.Element [] [2; 6; 11]);
    (2, Dom.Element (Str.lit "quarto-category") [3; 4]);
    (3, Dom.Text (Str.lit "News"));
    (4, Dom.Element (Str.lit "quarto-category-count") [5]);
    (5, Dom.Text (Str.lit "(5)"));
    (6, Dom.Element (Str.lit "x quarto-category-count") [7; 8; 10]);
    (7, Dom.Text (Str.lit "("));
    (8, Dom.Element (Str.lit "quarto-category-count") [9]);
    (9, Dom.Text (Str.lit "[12]"));
    (10, Dom.Text (Str.lit ")"));
    (11, Dom.Element (Str.lit "quarto-category-count") [12]);
    (12, Dom.Text (Str.lit "(12)"))].

Definition example_page : page := Page example_nodes 0 [] [] Loading.

(** A page without badges. *)
Definition plain_page : page :=
  Page (list_to_map [(0, Dom.Document [1]); (1, Dom.Element (Str.lit "title") [2]);
                     (2, Dom.Text (Str.lit "(5)"))]) 0 [] [] Loading.

Lemma example_page_wf : page_wf example_page.
Proof. split; [|by eexists]. apply (bool_decide_unpack _). by vm_compute. Qed.

Lemma plain_page_wf : page_wf plain_page.
Proof. split; [|by eexists]. apply (bool_decide_unpack _). by vm_compute. Qed.

Example example_badges :
  Dom.querySelectorAll example_nodes 0 badge_selector = Some [4; 6; 8; 11].
Proof. by vm_compute. Qed.

(** The texts of the four badges and of the body, before and after. *)
Example example_texts_before :
  (λ x, Dom.textContent example_nodes x) <$> [4; 6; 8; 11; 1] =
  (λ s, Some (Some s)) <$> [Str.lit "(5)"; Str.lit "([12])"; Str.lit "[12]";
                            Str.lit "(12)"; Str.lit "News(5)([12])(12)"].
Proof. by vm_compute. Qed.

Example example_texts_after :
  match DOMContentLoaded_listener example_page with
  | Done _ p' => (λ x, Dom.textContent (nodes p') x) <$> [4; 6; 8; 11; 1]
  | _ => []
  end =
  (λ s, Some (Some s)) <$> [Str.lit "5"; Str.lit "[12]"; Str.lit "12";
                            Str.lit "12"; Str.lit "News5[12]12"].
Proof. by vm_compute. Qed.

(** ** What the listener guarantees *)

Section guarantees.
Implicit Types (p : page) (l : list nat) (x y : nat).

(** C1. On a well-formed page the listener of lines 1-12 completes, and
    every element [querySelectorAll] selected ends with the text it had,
    cut by [Str.strip]: the first and the last code unit removed.  This
    holds for a badge inside another badge too. *)
Theorem listener_strips_badges p :
  page_wf p →
  ∃ l p', Dom.querySelectorAll (nodes p) (document p) badge_selector = Some l ∧
          DOMContentLoaded_listener p = Done tt p' ∧
          ∀ x t, x ∈ l → Dom.textContent (nodes p) x = Some (Some t) →
                 Dom.textContent (nodes p') x = Some (Some (Str.strip t)).
Proof.
  intros Hwf. destruct (listener_run p Hwf) as (l&h'&Hl&Hrun&Hloop).
  exists l, (after p h'). split_and!; [done..|]. apply Hloop.
Qed.

Lemma listener_strips_badges_witness :
  ∃ l p', Dom.querySelectorAll (nodes example_page) (document example_page) badge_selector = Some l ∧
          DOMContentLoaded_listener example_page = Done tt p' ∧
          ∀ x t, x ∈ l → Dom.textContent (nodes example_page) x = Some (Some t) →
                 Dom.textContent (nodes p') x = Some (Some (Str.strip t)).
Proof.
  apply listener_strips_badges. split; [|by eexists].
  apply (bool_decide_unpack _). by vm_compute.
Defined.

(** C12. The listener never throws and never leaves the model on a
    well-formed page: reading [.length] of [null] cannot happen, because
    [querySelectorAll] returns elements only. *)
Theorem listener_completes p :
  page_wf p → is_done (DOMContentLoaded_listener p) = true.
Proof. intros Hwf. by destruct (listener_run p Hwf) as (l&h'&_&->&_). Qed.

Lemma listener_completes_witness :
  is_done (DOMContentLoaded_listener example_page) = true.
Proof.
  apply listener_completes. split; [|by eexists].
  apply (bool_decide_unpack _). by vm_compute.
Defined.

(** C8. The listener changes the store and appends one message, ["X"],
    to the console; the document, the listeners and the ready state are as
    they were, and the page it leaves is well formed. *)
Theorem listener_effects p :
  page_wf p →
  ∃ p', DOMContentLoaded_listener p = Done tt p' ∧ page_wf p' ∧
        console p' = console p ++ [Str.lit "X"] ∧ document p' = document p ∧
        listeners p' = listeners p ∧ ready p' = ready p.
Proof.
  intros Hwf. destruct (listener_run p Hwf) as (l&h'&Hl&Hrun&Hloop).
  exists (after p h'). split_and!; try done.
  eapply after_wf; [done| |done]. intros x Hx.
  by eapply Dom.querySelectorAll_element.
Qed.

Lemma listener_effects_witness :
  ∃ p', DOMContentLoaded_listener example_page = Done tt p' ∧ page_wf p' ∧
        console p' = console example_page ++ [Str.lit "X"] ∧
        document p' = document example_page ∧
        listeners p' = listeners example_page ∧ ready p' = ready example_page.
Proof.
  apply listener_effects. split; [|by eexists].
  apply (bool_decide_unpack _). by vm_compute.
Defined.

(** C17. The listener leaves alone what holds no badge: a node of the
    page that is not a selected element keeps its store entry, and a node
    with no selected element in its subtree keeps its text. *)
Theorem listener_frame p :
  page_wf p →
  ∃ l p', Dom.querySelectorAll (nodes p) (document p) badge_selector = Some l ∧
          DOMContentLoaded_listener p = Done tt p' ∧
          (∀ y, is_Some (nodes p !! y) → y ∉ l → nodes p' !! y = nodes p !! y) ∧
          (∀ y, is_Some (nodes p !! y) → (∀ x, x ∈ l → ¬ Dom.reach (nodes p) y x) →
                Dom.textContent (nodes p') y = Dom.textContent (nodes p) y).
Proof.
  intros Hwf. destruct (listener_run p Hwf) as (l&h'&Hl&Hrun&Hloop).
  exists l, (after p h'). split_and!; [done..|apply Hloop|apply Hloop].
Qed.

Lemma listener_frame_witness :
  ∃ l p', Dom.querySelectorAll (nodes example_page) (document example_page) badge_selector = Some l ∧
          DOMContentLoaded_listener example_page = Done tt p' ∧
          (∀ y, is_Some (nodes example_page !! y) → y ∉ l →
                nodes p' !! y = nodes example_page !! y) ∧
          (∀ y, is_Some (nodes example_page !! y) →
                (∀ x, x ∈ l → ¬ Dom.reach (nodes example_page) y x) →
                Dom.textContent (nodes p') y = Dom.textContent (nodes example_page) y).
Proof.
  apply listener_frame. split; [|by eexists].
  apply (bool_decide_unpack _). by vm_compute.
Defined.

(** C18. With no element of the class on the page, the listener changes
    nothing but the console: no exception, no mutation of the store. *)
Theorem listener_no_badges p :
  page_wf p →
  Dom.querySelectorAll (nodes p) (document p) badge_selector = Some [] →
  DOMContentLoaded_listener p = Done tt (set_console p (console p ++ [Str.lit "X"])).
Proof.
  intros Hwf Hl. unfold DOMContentLoaded_listener. monad_unfold. rewrite log_run.
  by rewrite (querySelectorAll_run _ _ (set_console p _) [] badge_selector_parse Hl).
Qed.

Lemma listener_no_badges_witness :
  DOMContentLoaded_listener plain_page =
    Done tt (set_console plain_page (console plain_page ++ [Str.lit "X"])).
Proof.
  apply listener_no_badges; [|by vm_compute]. split; [|by eexists].
  apply (bool_decide_unpack _). by vm_compute.
Defined.

(** C11. The loop of the script is the loop of [Store] on the store of
    the page: over a list of elements in tree order, [counts.forEach] with
    the callback of lines 4-11 completes with the store [cut_all Str.strip]
    computes, and touches nothing else of the page. *)
Theorem forEach_refines_cut_all l p :
  Dom.forest (nodes p) → StronglySorted (Dom.before (nodes p)) l →
  elements_of (nodes p) l →
  ∃ h', cut_all Str.strip l (nodes p) = Some h' ∧
        NodeList.forEach l count_callback p = Done tt (set_nodes p h').
Proof.
  intros Hf Hsorted Hels.
  destruct (cut_all_spec Str.strip l (nodes p)) as (h'&Hcut&_);
    [done|by apply elements_of_Forall|done|].
  exists h'. split; [done|by apply forEach_cut_all].
Qed.

Lemma forEach_refines_cut_all_witness :
  ∃ h', cut_all Str.strip [4; 6; 8; 11] (nodes example_page) = Some h' ∧
        NodeList.forEach [4; 6; 8; 11] count_callback example_page =
          Done tt (set_nodes example_page h').
Proof.
  apply forEach_refines_cut_all.
  - apply example_page_wf.
  - apply (Dom.querySelectorAll_sorted _ (proj1 example_page_wf) 0 badge_selector).
    by vm_compute.
  - intros x Hx. by eapply (Dom.querySelectorAll_element example_nodes 0 badge_selector);
      [vm_compute|].
Defined.

(** C33. On a node whose [textContent] is null, such as the document,
    the callback throws a [TypeError] at [text.length] (line 6) and writes
    nothing: the guard of line 6 is no null check. *)
Theorem count_callback_document_throws x p cs :
  nodes p !! x = Some (Dom.Document cs) →
  count_callback x p = Throw TypeError p.
Proof.
  intros Hx. apply count_callback_null. unfold Dom.textContent. by rewrite Hx.
Qed.

Lemma count_callback_document_throws_witness :
  count_callback 0 example_page = Throw TypeError example_page.
Proof. by apply (count_callback_document_throws 0 example_page [1]). Defined.

End guarantees.
