(* ===== verification/Calls.v ===== *)
(** * The script as a program of calls

    [src/_resources/js/scripts.js] once more, this time as what it asks of
    the browser: [call] names the five calls of the file, and
    [listener_prog], [count_prog] and [script_prog] are the listener, the
    callback of [forEach] and the registration as trees of these calls
    ([Prog]).  The handler [browser] answers each call with the operation
    of [Page]; under it the programs are the computations of [Script], so
    the theorems of [Script] are theorems about these programs.  What the
    trees add is the order: [trace] lists the calls the listener makes,
    with their answers, and the theorems say which calls these are, that
    every read of the loop returns the text the badge had before the loop
    started, and how many calls a page costs.

    The loop needs of its host the two text calls only; [text_host] says
    what it relies on, and the browser and any store of [Store] provide
    it. *)

From stdpp Require Import gmap list option numbers sorting.
From Stdlib Require String.
Import String.StringSyntax.
From S2P Require Import Prelude Prog JsString Css Store Dom Page Script.

(** ** The calls of the script *)

(** The calls of lines 1-9, indexed by the type of their answer. *)
Inductive call : Type → Type :=
| AddEventListener (type : list N) (callback : nat) : call unit
| ConsoleLog (msg : list N) : call unit
| QuerySelectorAll (sel : list N) : call (list nat)
| GetTextContent (node : nat) : call (option (list N))
| SetTextContent (node : nat) (v : list N) : call unit.

(** Lines 4-11, the callback of [forEach]: one read, the test of the
    length, one assignment.  The [TypeError] of [null.length] is raised by
    the script, not by a call. *)
Definition count_prog (count : nat) : prog call unit :=
  text ← perform (GetTextContent count);
  match text with
  | None => Raise TypeError
  | Some text =>
      if (Str.length text >? 1)%Z
      then perform (SetTextContent count (Str.slice text 1 (-1)))
      else perform (SetTextContent count [])
  end.

(** [list.forEach(callback)] on a static list. *)
Fixpoint forEach_prog (l : list nat) (callback : nat → prog call unit) : prog call unit :=
  match l with
  | [] => Ret tt
  | x :: l' => callback x ;; forEach_prog l' callback
  end.

(** Lines 1-12, the body of the listener. *)
Definition listener_prog : prog call unit :=
  perform (ConsoleLog (Str.lit "X")) ;;
  counts ← perform (QuerySelectorAll (Str.lit ".quarto-category-count"));
  forEach_prog counts count_prog.

(** Line 1, the evaluation of the script. *)
Definition script_prog (callback : nat) : prog call unit :=
  perform (AddEventListener (Str.lit "DOMContentLoaded") callback).

(** The callback with the value of its conditional named: it assigns
    [Str.strip] of what it read. *)
Definition strip_prog (count : nat) : prog call unit :=
  text ← perform (GetTextContent count);
  match text with
  | None => Raise TypeError
  | Some text => perform (SetTextContent count (Str.strip text))
  end.

(** The callback without its conditional: [count.textContent =
    text.slice(1, -1)] on every text. *)
Definition slice_prog (count : nat) : prog call unit :=
  text ← perform (GetTextContent count);
  match text with
  | None => Raise TypeError
  | Some text => perform (SetTextContent count (Str.slice text 1 (-1)))
  end.

(** ** Hosts *)

(** The browser: every call is the operation of [Page]. *)
Definition browser : handler call page := λ X c,
  match c in call X return M page X with
  | AddEventListener type callback => Document.addEventListener type callback
  | ConsoleLog msg => Console.log msg
  | QuerySelectorAll sel => Document.querySelectorAll sel
  | GetTextContent node => Node.textContent node
  | SetTextContent node v => Node.set_textContent node v
  end.

(** A store of [Store] as a host: it answers the two text calls, and
    nothing else. *)
Definition store_host `{TextStore St} : handler call St := λ X c,
  match c in call X return M St X with
  | GetTextContent node =>
      λ s, match store_text s node with Some t => Done t s | None => Stuck end
  | SetTextContent node v =>
      λ s, match store_set_text s node v with Some s' => Done tt s' | None => Stuck end
  | _ => m_stuck
  end.

(** What the loop relies on: the host keeps a store, which [store] reads
    and [put] replaces, and answers the two text calls from it. *)
Record text_host `{TextStore St} {S : Type}
    (h : handler call S) (store : S → St) (put : S → St → S) : Prop := {
  host_get s x :
    h _ (GetTextContent x) s =
      match store_text (store s) x with Some t => Done t s | None => Stuck end;
  host_set s x v :
    h _ (SetTextContent x v) s =
      match store_set_text (store s) x v with
      | Some s' => Done tt (put s s')
      | None => Stuck
      end;
  host_store_put s s' : store (put s s') = s';
  host_put_store s : put s (store s) = s;
  host_put_put s s1 s2 : put (put s s1) s2 = put s s2;
}.

(** The two calls the callback makes on a badge with the text [t]. *)
Definition badge_calls (x : nat) (t : list N) : list (entry call) :=
  [Answered (GetTextContent x) (Some t); Answered (SetTextContent x (Str.strip t)) tt].

(** ** The programs *)

Section programs.
Implicit Types (l : list nat) (x : nat) (callback : nat → prog call unit).

Lemma strip_prog_unfold x :
  strip_prog x =
    Call (GetTextContent x) (λ text,
      match text with
      | None => Raise TypeError
      | Some text => perform (SetTextContent x (Str.strip text))
      end).
Proof. reflexivity. Qed.

Lemma forEach_prog_cons x l callback :
  forEach_prog (x :: l) callback = callback x ≫= λ _, forEach_prog l callback.
Proof. reflexivity. Qed.

(** The two branches of the callback assign the same value, [Str.strip]
    of the text read: no host tells the callback of the source from
    [strip_prog]. *)
Lemma count_prog_strip : pointwise_relation nat (≡) count_prog strip_prog.
Proof.
  intros x. apply Call_equiv. intros [t|]; [|done]. simpl.
  unfold Str.strip. by case_match.
Qed.

(** The conditional of lines 6-10 makes no difference to any host: the
    callback is the one that assigns [text.slice(1, -1)] whatever the
    length. *)
Lemma count_prog_slice : pointwise_relation nat (≡) count_prog slice_prog.
Proof.
  intros x. rewrite (count_prog_strip x). apply Call_equiv. intros [t|]; [|done].
  simpl. by rewrite Str.strip_slice.
Qed.

#[global] Instance forEach_prog_proper l :
  Proper (pointwise_relation nat (≡) ==> (≡)) (forEach_prog l).
Proof.
  intros f g Hfg. induction l as [|x l IH]; [done|].
  apply prog_bind_proper; [apply Hfg|by intros _].
Qed.

(** The else branch of the source is dead weight for the whole loop: with
    the callback that always slices, every host ends in the same state
    after the same calls. *)
Lemma forEach_without_else l : forEach_prog l count_prog ≡ forEach_prog l slice_prog.
Proof. by rewrite count_prog_slice. Qed.

End programs.

(** ** The loop on any host of the text calls *)

Section host.
Context `{TextStore St} {S : Type}.
Context (h : handler call S) (store : S → St) (put : S → St → S).
Context (Hhost : text_host h store put).
Implicit Types (s : S) (st : St) (l : list nat) (x : nat) (t : list N).

(** The callback on a node that has a text: the read, then the
    assignment of the cut text. *)
Lemma host_strip_prog s x t st1 :
  store_text (store s) x = Some (Some t) →
  store_set_text (store s) x (Str.strip t) = Some st1 →
  run h (strip_prog x) s = Done tt (put s st1) ∧
  trace h (strip_prog x) s = badge_calls x t.
Proof.
  intros Ht Hset.
  assert (h _ (GetTextContent x) s = Done (Some t) s) as Hget.
  { by rewrite (host_get _ _ _ Hhost), Ht. }
  assert (h _ (SetTextContent x (Str.strip t)) s = Done tt (put s st1)) as Hput.
  { by rewrite (host_set _ _ _ Hhost), Hset. }
  rewrite strip_prog_unfold. split.
  - by rewrite (run_call_done _ _ _ _ _ _ Hget), run_perform.
  - by rewrite (trace_call_done _ _ _ _ _ _ Hget), trace_perform, Hput.
Qed.

(** The loop of the script on a host: where the loop of [Store] gives a
    store, the program ends with that store, and its calls are a read and
    an assignment for each node [cut_reads] lists, in this order. *)
Lemma host_forEach l s st' :
  cut_all Str.strip l (store s) = Some st' →
  run h (forEach_prog l count_prog) s = Done tt (put s st') ∧
  trace h (forEach_prog l count_prog) s =
    mjoin ((λ r, badge_calls r.1 r.2) <$> cut_reads Str.strip l (store s)).
Proof.
  rewrite count_prog_strip. revert s. induction l as [|x l IH]; intros s Hcut.
  { injection Hcut as <-. simpl. by rewrite (host_put_store _ _ _ Hhost). }
  simpl in Hcut. simpl cut_reads.
  destruct (store_text (store s) x) as [[t|]|] eqn:Ht; try done.
  destruct (store_set_text (store s) x (Str.strip t)) as [st1|] eqn:Hset; [|done].
  destruct (host_strip_prog s x t st1 Ht Hset) as [Hrun Htrace].
  destruct (IH (put s st1)) as [IHrun IHtrace].
  { by rewrite (host_store_put _ _ _ Hhost). }
  rewrite forEach_prog_cons, run_bind, trace_bind, Htrace, Hrun.
  rewrite (m_bind_done _ _ _ _ _ Hrun), IHrun. simpl trace_after.
  by rewrite IHtrace, (host_put_put _ _ _ Hhost), (host_store_put _ _ _ Hhost).
Qed.

End host.

(** ** The hosts at hand *)

Section hosts.

Lemma browser_text_host : text_host browser nodes set_nodes.
Proof.
  split; [done|done|done|apply set_nodes_nodes|done].
Qed.

Lemma store_host_text_host `{TextStore St} :
  text_host (St:=St) store_host id (λ _ s', s').
Proof. by split. Qed.

End hosts.

(** ** Under the browser the programs are the computations of [Script] *)

Section browser.
Implicit Types (p : page) (l : list nat) (x : nat).

Lemma run_count_prog x p : run browser (count_prog x) p = count_callback x p.
Proof.
  unfold count_callback. simpl. apply m_bind_ext; [done|].
  intros [t|] p'; [|done].
  case_match; exact (run_perform browser (SetTextContent x _) p').
Qed.

Lemma run_forEach_prog l p :
  run browser (forEach_prog l count_prog) p = NodeList.forEach l count_callback p.
Proof.
  revert p. induction l as [|x l IH]; intros p; [done|].
  rewrite forEach_prog_cons, run_bind, forEach_cons.
  apply m_bind_ext; [apply run_count_prog|]. intros _ p'. apply IH.
Qed.

Lemma run_listener_prog p : run browser listener_prog p = DOMContentLoaded_listener p.
Proof.
  unfold DOMContentLoaded_listener. simpl. apply m_bind_ext; [done|].
  intros _ p1. apply m_bind_ext; [done|]. intros l p2. apply run_forEach_prog.
Qed.

Lemma run_script_prog callback p : run browser (script_prog callback) p = script callback p.
Proof. exact (run_perform browser (AddEventListener _ callback) p). Qed.

(** The first two calls of the listener, and the loop after them. *)
Lemma trace_listener_prog p l :
  Dom.querySelectorAll (nodes p) (document p) badge_selector = Some l →
  trace browser listener_prog p =
    Answered (ConsoleLog (Str.lit "X")) tt ::
    Answered (QuerySelectorAll (Str.lit ".quarto-category-count")) l ::
    trace browser (forEach_prog l count_prog) (set_console p (console p ++ [Str.lit "X"])).
Proof.
  intros Hl. set (p1 := set_console p (console p ++ [Str.lit "X"])).
  assert (browser _ (QuerySelectorAll (Str.lit ".quarto-category-count")) p1 = Done l p1) as Hq.
  { by apply (querySelectorAll_run _ badge_selector). }
  change listener_prog
    with (Call (ConsoleLog (Str.lit "X")) (λ _,
            Call (QuerySelectorAll (Str.lit ".quarto-category-count")) (λ counts,
              forEach_prog counts count_prog))).
  rewrite (trace_call_done browser (ConsoleLog (Str.lit "X")) _ p tt p1 eq_refl).
  by rewrite (trace_call_done browser _ _ p1 l p1 Hq).
Qed.

End browser.

(** ** The calls of the listener *)

Section calls.
Implicit Types (p : page) (h : gmap nat Dom.node) (l : list nat) (x : nat).
Implicit Types (ts : list (list N)).

Lemma length_badge_calls l ts :
  length l = length ts → length (mjoin (zip_with badge_calls l ts)) = 2 * length l.
Proof.
  revert ts. induction l as [|x l IH]; intros [|t ts] Hlen; simplify_eq/=; [done|].
  rewrite IH by done. lia.
Qed.

(** A list of distinct elements of a store that has a document is shorter
    than the store is large. *)
Lemma elements_lt_size h l d cs :
  h !! d = Some (Dom.Document cs) → NoDup l → Forall (Dom.element h) l →
  length l < size h.
Proof.
  intros Hd Hnodup Hels. rewrite list.Forall_forall in Hels.
  assert (d ∉ l) as Hdl by (intros (?&?&?)%Hels; congruence).
  change (length (d :: l) ≤ size h).
  rewrite <-size_dom, <-(size_list_to_set (C:=gset nat)) by by constructor.
  apply subseteq_size. intros x. rewrite elem_of_list_to_set, elem_of_dom.
  intros [->|(?&?&?)%Hels]%elem_of_cons; eauto.
Qed.

(** The trace of the listener on a well-formed page: the message, the
    selection, and for each badge in tree order the read of its text and
    the assignment of the cut text; every read returns the text the badge
    had when the listener started. *)
Lemma listener_trace p :
  page_wf p →
  ∃ l ts, Dom.querySelectorAll (nodes p) (document p) badge_selector = Some l ∧
          NoDup l ∧ Forall (Dom.element (nodes p)) l ∧
          Forall2 (λ x t, Dom.textContent (nodes p) x = Some (Some t)) l ts ∧
          trace browser listener_prog p =
            Answered (ConsoleLog (Str.lit "X")) tt ::
            Answered (QuerySelectorAll (Str.lit ".quarto-category-count")) l ::
            mjoin (zip_with badge_calls l ts).
Proof.
  intros Hwf. destruct (listener_run p Hwf) as (l&h'&Hl&_&[Hcut _ _]).
  destruct Hwf as [Hf _].
  assert (StronglySorted (Dom.before (nodes p)) l) as Hsorted.
  { by eapply Dom.querySelectorAll_sorted. }
  assert (Forall (Dom.element (nodes p)) l) as Hels.
  { apply list.Forall_forall. intros x Hx. by eapply Dom.querySelectorAll_element. }
  pose proof (cut_reads_initial Str.strip l (nodes p)) as Hreads.
  destruct (Forall2_zip_snd (λ x t, Dom.textContent (nodes p) x = Some (Some t)) _ _
              (Hreads Hf Hels Hsorted)) as [Hzip Hts].
  exists l, (cut_reads Str.strip l (nodes p)).*2. split_and!; [done| |done..|].
  { eapply StronglySorted_NoDup; [|done]. intros x Hx. apply Hx. constructor. }
  rewrite (trace_listener_prog p l Hl).
  destruct (host_forEach _ _ _ browser_text_host l
    (set_console p (console p ++ [Str.lit "X"])) h' Hcut) as [_ ->].
  simpl nodes. rewrite zip_with_zip, <-Hzip. do 3 f_equal.
  apply list_fmap_ext. by intros _ [x t] _.
Qed.

End calls.

(** ** What the listener asks of the browser *)

Section claims.
Implicit Types (p : page) (l : list nat) (x : nat) (ts : list (list N)).

(** C13. The listener as a program of calls.  Under the browser the
    program is the listener of [Script], and on a well-formed page its
    calls are, in this order: [console.log("X")], the selection, and for
    each selected badge in tree order the read of its text followed by the
    assignment of that text without its first and last code unit.  Every
    read returns the text the badge had when the listener started: no
    assignment of the loop is seen by a later read, nested badges
    included. *)
Theorem listener_calls p :
  page_wf p →
  run browser listener_prog p = DOMContentLoaded_listener p ∧
  ∃ l ts, Dom.querySelectorAll (nodes p) (document p) badge_selector = Some l ∧
          Forall2 (λ x t, Dom.textContent (nodes p) x = Some (Some t)) l ts ∧
          trace browser listener_prog p =
            Answered (ConsoleLog (Str.lit "X")) tt ::
            Answered (QuerySelectorAll (Str.lit ".quarto-category-count")) l ::
            mjoin (zip_with badge_calls l ts).
Proof.
  intros Hwf. split; [apply run_listener_prog|].
  destruct (listener_trace p Hwf) as (l&ts&?&_&_&?&?). eauto.
Qed.

Lemma listener_calls_witness :
  run browser listener_prog example_page = DOMContentLoaded_listener example_page ∧
  ∃ l ts, Dom.querySelectorAll (nodes example_page) (document example_page) badge_selector
            = Some l ∧
          Forall2 (λ x t, Dom.textContent (nodes example_page) x = Some (Some t)) l ts ∧
          trace browser listener_prog example_page =
            Answered (ConsoleLog (Str.lit "X")) tt ::
            Answered (QuerySelectorAll (Str.lit ".quarto-category-count")) l ::
            mjoin (zip_with badge_calls l ts).
Proof. apply listener_calls, example_page_wf. Defined.

(** C23. The cost of the listener in calls: two, and two more for each
    selected badge; since the badges are distinct elements of a store that
    also holds the document, never more than twice the number of nodes of
    the page. *)
Theorem listener_call_bound p :
  page_wf p →
  ∃ l, Dom.querySelectorAll (nodes p) (document p) badge_selector = Some l ∧
       length (trace browser listener_prog p) = 2 + 2 * length l ∧
       length (trace browser listener_prog p) ≤ 2 * size (nodes p).
Proof.
  intros Hwf. destruct (listener_trace p Hwf) as (l&ts&Hl&Hnodup&Hels&Hts&->).
  destruct Hwf as [_ [cs Hdoc]].
  pose proof (elements_lt_size _ _ _ _ Hdoc Hnodup Hels).
  exists l. simpl. rewrite length_badge_calls by by eapply Forall2_length.
  split_and!; [done|lia..].
Qed.

Lemma listener_call_bound_witness :
  ∃ l, Dom.querySelectorAll (nodes example_page) (document example_page) badge_selector
         = Some l ∧
       length (trace browser listener_prog example_page) = 2 + 2 * length l ∧
       length (trace browser listener_prog example_page) ≤ 2 * size (nodes example_page).
Proof. apply listener_call_bound, example_page_wf. Defined.

End claims.

(** The calls of the listener on the example page.  Badge 8 is inside
    badge 6: it is read after the assignment to 6 has detached it, and
    still returns its own text. *)
Example example_calls :
  trace browser listener_prog example_page =
    [Answered (ConsoleLog (Str.lit "X")) tt;
     Answered (QuerySelectorAll (Str.lit ".quarto-category-count")) [4; 6; 8; 11];
     Answered (GetTextContent 4) (Some (Str.lit "(5)"));
     Answered (SetTextContent 4 (Str.lit "5")) tt;
     Answered (GetTextContent 6) (Some (Str.lit "([12])"));
     Answered (SetTextContent 6 (Str.lit "[12]")) tt;
     Answered (GetTextContent 8) (Some (Str.lit "[12]"));
     Answered (SetTextContent 8 (Str.lit "12")) tt;
     Answered (GetTextContent 11) (Some (Str.lit "(12)"));
     Answered (SetTextContent 11 (Str.lit "12")) tt].
Proof. by vm_compute. Qed.

(** The loop on the flat store of [Store]: the same program, another
    host. *)
Example flat_store_calls :
  run store_host (forEach_prog [0; 2] count_prog)
      [Str.lit "(5)"; Str.lit "x"; Str.lit "(12)"]
    = Done tt [Str.lit "5"; Str.lit "x"; Str.lit "12"] ∧
  trace store_host (forEach_prog [0; 2] count_prog)
      [Str.lit "(5)"; Str.lit "x"; Str.lit "(12)"]
    = badge_calls 0 (Str.lit "(5)") ++ badge_calls 2 (Str.lit "(12)").
Proof. by vm_compute. Qed.
