(* ===== verification/Events.v ===== *)
(** * The life of the page: registration, dispatch, ready state

    Line 1 of [src/_resources/js/scripts.js] does not run the listener: it
    registers it.  This file models what calls it: the ready-state machine
    of a document ([Loading], then [Interactive] when the parser is done and
    [DOMContentLoaded] is dispatched, then [Complete]) as a labelled step
    relation over [page], with the evaluation of the script as one of its
    steps.  The theorems are about every run of the machine: the page stays
    well formed, the listener body runs at most once per registration, a
    script that is evaluated once strips every badge exactly once, a script
    evaluated twice strips twice, a script evaluated after the parser is
    done never runs its listener, every string stays a string of 16-bit
    code units, and a run is decided by its events. *)

From stdpp Require Import gmap list option numbers.
From Stdlib Require String.
Import String.StringSyntax.
From S2P Require Import Prelude JsString Dom Page Script.

(** ** Dispatch *)

(** The event type of line 1. *)
Definition DOMContentLoaded : list N := Str.lit "DOMContentLoaded".

(** Every function object the script registers has the body of lines 1-12. *)
Definition code_of (callback : nat) : M page unit := DOMContentLoaded_listener.

(** Calling one listener: an exception it throws is reported and does not
    stop the dispatch; the mutations made before the throw stay. *)
Definition invoke (c : M page unit) : M page unit :=
  λ p, match c p with
       | Done _ p' | Throw _ p' => Done tt p'
       | Stuck => Stuck
       end.

Fixpoint invoke_all (ls : list listener) : M page unit :=
  match ls with
  | [] => mret tt
  | l :: ls' => invoke (code_of (l_callback l)) ;; invoke_all ls'
  end.

(** [document.dispatchEvent] for an event of the given type: the listeners
    registered for it when the dispatch starts run in registration order. *)
Definition dispatchEvent (type : list N) : M page unit :=
  λ p, invoke_all (filter (λ l, l_type l = type) (listeners p)) p.

(** The page one run of the listener leaves. *)
Definition listener_result (p : page) : page :=
  match DOMContentLoaded_listener p with
  | Done _ p' | Throw _ p' => p'
  | Stuck => p
  end.

(** ** The ready-state machine *)

Inductive event : Type :=
| Parse (h : gmap nat Dom.node)   (* the parser extends the document *)
| RunScript (callback : nat)      (* the script is evaluated *)
| Parsed                          (* the parser is done *)
| Loaded.                         (* every resource is loaded *)

#[global] Instance event_eq_dec : EqDecision event.
Proof. solve_decision. Defined.

Inductive step : page → event → page → Prop :=
| step_parse p h :
    ready p = Loading → page_wf (set_nodes p h) →
    step p (Parse h) (set_nodes p h)
| step_script p c p' :
    (∀ l, l ∈ listeners p → l_callback l ≠ c) →
    script c p = Done tt p' →
    step p (RunScript c) p'
| step_parsed p p' :
    ready p = Loading →
    dispatchEvent DOMContentLoaded (set_ready p Interactive) = Done tt p' →
    step p Parsed p'
| step_loaded p :
    ready p = Interactive →
    step p Loaded (set_ready p Complete).

(** The typing of an event: the store the parser built holds strings of
    code units. *)
Definition event_typed (e : event) : Prop :=
  match e with
  | Parse h => Dom.typed h
  | _ => True
  end.

Inductive steps : page → list event → page → Prop :=
| steps_nil p : steps p [] p
| steps_cons p e p' es p'' : step p e p' → steps p' es p'' → steps p (e :: es) p''.

(** A page as the browser creates it. *)
Definition initial (p : page) : Prop :=
  page_wf p ∧ ready p = Loading ∧ listeners p = [] ∧ console p = [].

(** ** Dispatch on a well-formed page *)

Section dispatch.
Implicit Types (p : page) (ls : list listener) (n : nat).

Lemma listener_result_run p :
  page_wf p → DOMContentLoaded_listener p = Done tt (listener_result p).
Proof.
  intros Hwf. unfold listener_result.
  by destruct (listener_run p Hwf) as (l&h'&_&->&_).
Qed.

Lemma listener_result_fields p :
  page_wf p →
  page_wf (listener_result p) ∧
  console (listener_result p) = console p ++ [Str.lit "X"] ∧
  document (listener_result p) = document p ∧
  listeners (listener_result p) = listeners p ∧
  ready (listener_result p) = ready p.
Proof.
  intros Hwf. unfold listener_result.
  destruct (listener_run p Hwf) as (l&h'&Hl&->&Hloop). split_and!; try done.
  eapply after_wf; [done| |done]. intros x Hx. by eapply Dom.querySelectorAll_element.
Qed.

Lemma iter_listener_result_fields n p :
  page_wf p →
  page_wf (Nat.iter n listener_result p) ∧
  console (Nat.iter n listener_result p) = console p ++ replicate n (Str.lit "X") ∧
  listeners (Nat.iter n listener_result p) = listeners p ∧
  ready (Nat.iter n listener_result p) = ready p.
Proof.
  intros Hwf. induction n as [|n (Hwf'&Hc&Hl&Hr)]; simpl.
  { by rewrite app_nil_r. }
  destruct (listener_result_fields _ Hwf') as (?&->&_&->&->).
  split_and!; try done. by rewrite Hc, <-app_assoc, <-replicate_cons_app.
Qed.

(** Calling the listeners of a list runs the body once per listener. *)
Lemma invoke_all_run ls p :
  page_wf p → invoke_all ls p = Done tt (Nat.iter (length ls) listener_result p).
Proof.
  revert p. induction ls as [|l ls IH]; intros p Hwf; [done|].
  simpl. monad_unfold. unfold invoke, code_of.
  rewrite (listener_result_run p Hwf), IH by by apply listener_result_fields.
  f_equal. symmetry. apply (Nat.iter_succ_r (length ls) listener_result p).
Qed.

End dispatch.

(** ** The steps of the machine *)

(** The number of listeners a dispatch of [DOMContentLoaded] calls. *)
Definition registered (p : page) : nat :=
  length (filter (λ l, l_type l = DOMContentLoaded) (listeners p)).

(** What holds of every page the machine reaches. *)
Definition inv (p : page) : Prop :=
  page_wf p ∧
  Forall (λ l, l_type l = DOMContentLoaded) (listeners p) ∧
  length (console p) ≤ length (listeners p) ∧
  (ready p = Loading → console p = []).

Section machine.
Implicit Types (p : page) (e : event) (es : list event) (c : nat).

Lemma script_run c p :
  (∀ l, l ∈ listeners p → l_callback l ≠ c) →
  script c p = Done tt (set_listeners p (listeners p ++ [Listener DOMContentLoaded c])).
Proof.
  intros Hnew. apply addEventListener_new. intros Hin. by apply (Hnew _ Hin).
Qed.

Lemma dispatch_run p :
  page_wf p →
  dispatchEvent DOMContentLoaded p = Done tt (Nat.iter (registered p) listener_result p).
Proof. intros Hwf. unfold dispatchEvent. by rewrite invoke_all_run. Qed.

Lemma step_script_inv p c p' :
  step p (RunScript c) p' →
  p' = set_listeners p (listeners p ++ [Listener DOMContentLoaded c]).
Proof. inversion 1 as [|? ? ? Hnew Hrun| |]; subst. rewrite script_run in Hrun by done. congruence. Qed.

Lemma step_parsed_inv p p' :
  page_wf p → step p Parsed p' →
  ready p = Loading ∧
  p' = Nat.iter (registered p) listener_result (set_ready p Interactive).
Proof.
  intros Hwf. inversion 1 as [| |? ? Hr Hrun|]; subst. split; [done|].
  rewrite dispatch_run in Hrun by done. by simplify_eq.
Qed.

Lemma registered_le p : registered p ≤ length (listeners p).
Proof. apply length_filter. Qed.

Lemma registered_all p :
  Forall (λ l, l_type l = DOMContentLoaded) (listeners p) →
  registered p = length (listeners p).
Proof.
  intros Hall. unfold registered. f_equal.
  induction Hall as [|l ls Hl _ IH]; [done|].
  by rewrite filter_cons_True, IH.
Qed.

(** Every step keeps the invariant. *)
Lemma step_inv p e p' : inv p → step p e p' → inv p'.
Proof.
  intros (Hwf&Hall&Hlen&Hload) Hstep. destruct e.
  - inversion Hstep; subst. by split_and!.
  - apply step_script_inv in Hstep as ->. split_and!; simpl; [done| |..|done].
    + apply Forall_app. split; [done|]. by constructor.
    + rewrite length_app. simpl. lia.
  - apply step_parsed_inv in Hstep as [Hr ->]; [|done].
    destruct (iter_listener_result_fields (registered p) (set_ready p Interactive))
      as (Hwf'&Hc&Hl&Hr'); [done|].
    split_and!; [done|by rewrite Hl|..|by rewrite Hr'].
    rewrite Hc, Hl, length_app, length_replicate. simpl. rewrite (Hload Hr).
    pose proof (registered_le p). unfold registered in *. simpl in *. lia.
  - inversion Hstep; subst. split_and!; simpl; try done.
Qed.

Lemma initial_inv p : initial p → inv p.
Proof. intros (Hwf&Hr&Hl&Hc). split_and!; [done|by rewrite Hl|by rewrite Hc; simpl; lia|done]. Qed.

Lemma steps_inv_from p es p' : inv p → steps p es p' → inv p'.
Proof. intros Hinv Hsteps. induction Hsteps; eauto using step_inv. Qed.

Lemma steps_app p es1 p1 es2 p2 :
  steps p es1 p1 → steps p1 es2 p2 → steps p (es1 ++ es2) p2.
Proof. induction 1; simpl; eauto using steps. Qed.

(** Once the parser is done, no step touches the store or the console. *)
Lemma step_late p e p' :
  ready p ≠ Loading → step p e p' →
  ready p' ≠ Loading ∧ nodes p' = nodes p ∧ console p' = console p.
Proof.
  intros Hr Hstep. destruct e.
  - by inversion Hstep.
  - by apply step_script_inv in Hstep as ->.
  - by inversion Hstep.
  - by inversion Hstep; subst.
Qed.

(** The machine is deterministic: the page and the event decide the next
    page. *)
Lemma step_deterministic p e p1 p2 : step p e p1 → step p e p2 → p1 = p2.
Proof.
  destruct 1; inversion 1; subst; congruence.
Qed.

Lemma listener_result_typed p :
  page_wf p → page_typed p → page_typed (listener_result p).
Proof.
  intros Hwf Hty. unfold listener_result.
  destruct (listener_run p Hwf) as (l&h'&_&->&Hloop). by eapply after_typed.
Qed.

Lemma iter_listener_result_typed n p :
  page_wf p → page_typed p → page_typed (Nat.iter n listener_result p).
Proof.
  intros Hwf Hty. induction n as [|n IH]; [done|]. simpl.
  apply listener_result_typed; [by apply iter_listener_result_fields|done].
Qed.

(** Every step keeps the page typed. *)
Lemma step_typed p e p' :
  inv p → page_typed p → event_typed e → step p e p' → page_typed p'.
Proof.
  intros Hinv (Hty&Hcon&Hls) He Hstep. destruct e.
  - inversion Hstep; subst. by split_and!.
  - apply step_script_inv in Hstep as ->. split_and!; simpl; [done..|].
    apply Forall_app. split; [done|]. repeat constructor.
  - apply step_parsed_inv in Hstep as [_ ->]; [|by destruct Hinv].
    apply iter_listener_result_typed; [by destruct Hinv|by split_and!].
  - inversion Hstep; subst. by split_and!.
Qed.

Lemma steps_typed p es p' :
  inv p → page_typed p → Forall event_typed es → steps p es p' → page_typed p'.
Proof.
  intros Hinv Hty Hes Hsteps. induction Hsteps as [|p e p' es p'' Hstep _ IH]; [done|].
  apply list.Forall_cons in Hes as [He Hes].
  apply IH; [by eapply step_inv|by eapply step_typed|done].
Qed.

End machine.

(** ** Runs of the machine *)

Section runs.
Implicit Types (p : page) (e : event) (es : list event) (c : nat) (h : gmap nat Dom.node).

(** The page when the parser is done, after one evaluation of the script:
    the store [h] the parser built, one listener, ready state
    [Interactive]. *)
Definition parsed_page (p : page) (h : gmap nat Dom.node) (c : nat) : page :=
  Page h (document p) (console p) (listeners p ++ [Listener DOMContentLoaded c]) Interactive.

Lemma initial_fresh p c : initial p → ∀ l, l ∈ listeners p → l_callback l ≠ c.
Proof. intros (_&_&->&_) l Hl. by apply elem_of_nil in Hl. Qed.

Lemma parsed_page_dispatch p h c :
  initial p → page_wf (set_nodes p h) →
  dispatchEvent DOMContentLoaded (parsed_page p h c) =
    Done tt (listener_result (parsed_page p h c)).
Proof.
  intros (_&_&Hl&_) Hwf. rewrite dispatch_run by done.
  unfold registered, parsed_page at 1. cbn [listeners]. rewrite Hl.
  by rewrite app_nil_l, filter_cons_True, filter_nil.
Qed.

(** The script in the head: it is evaluated, the parser builds the page,
    the parser is done. *)
Lemma run_head p h c :
  initial p → page_wf (set_nodes p h) →
  steps p [RunScript c; Parse h; Parsed] (listener_result (parsed_page p h c)).
Proof.
  intros Hinit Hwf. pose proof Hinit as (_&Hr&_).
  pose proof (initial_fresh p c Hinit) as Hfresh.
  eapply steps_cons; [apply step_script; [|apply script_run]; exact Hfresh|].
  eapply steps_cons; [apply step_parse; [exact Hr|exact Hwf]|].
  eapply steps_cons; [|apply steps_nil]. apply step_parsed; [exact Hr|].
  exact (parsed_page_dispatch p h c Hinit Hwf).
Qed.

(** The script at the end of the body: the parser builds the page, the
    script is evaluated, the parser is done. *)
Lemma run_body p h c :
  initial p → page_wf (set_nodes p h) →
  steps p [Parse h; RunScript c; Parsed] (listener_result (parsed_page p h c)).
Proof.
  intros Hinit Hwf. pose proof Hinit as (_&Hr&_).
  pose proof (initial_fresh p c Hinit) as Hfresh.
  eapply steps_cons; [apply step_parse; [exact Hr|exact Hwf]|].
  eapply steps_cons; [apply step_script; [|apply script_run]; exact Hfresh|].
  eapply steps_cons; [|apply steps_nil]. apply step_parsed; [exact Hr|].
  exact (parsed_page_dispatch p h c Hinit Hwf).
Qed.

(** The page when the parser is done, after two evaluations of the
    script (the file included twice): two listeners. *)
Definition parsed_twice (p : page) (h : gmap nat Dom.node) (c1 c2 : nat) : page :=
  Page h (document p) (console p)
       ((listeners p ++ [Listener DOMContentLoaded c1]) ++ [Listener DOMContentLoaded c2])
       Interactive.

Lemma parsed_twice_dispatch p h c1 c2 :
  initial p → page_wf (set_nodes p h) →
  dispatchEvent DOMContentLoaded (parsed_twice p h c1 c2) =
    Done tt (listener_result (listener_result (parsed_twice p h c1 c2))).
Proof.
  intros (_&_&Hl&_) Hwf. rewrite dispatch_run by done.
  unfold registered, parsed_twice at 1. cbn [listeners]. rewrite Hl.
  cbn [app]. by rewrite !filter_cons_True, filter_nil.
Qed.

Lemma run_twice p h c1 c2 :
  initial p → page_wf (set_nodes p h) → c1 ≠ c2 →
  steps p [Parse h; RunScript c1; RunScript c2; Parsed]
        (listener_result (listener_result (parsed_twice p h c1 c2))).
Proof.
  intros Hinit Hwf Hne. pose proof Hinit as (_&Hr&Hl&_).
  eapply steps_cons; [apply step_parse; [exact Hr|exact Hwf]|].
  eapply steps_cons; [apply step_script; [|apply script_run]; exact (initial_fresh p c1 Hinit)|].
  assert (∀ l, l ∈ listeners p ++ [Listener DOMContentLoaded c1] → l_callback l ≠ c2) as Hfresh.
  { rewrite Hl. intros l ->%list_elem_of_singleton. exact Hne. }
  eapply steps_cons; [apply step_script; [|apply script_run]; exact Hfresh|].
  eapply steps_cons; [|apply steps_nil]. apply step_parsed; [exact Hr|].
  exact (parsed_twice_dispatch p h c1 c2 Hinit Hwf).
Qed.

(** After the parser is done the store and the console are final. *)
Lemma steps_late p es p' :
  ready p ≠ Loading → steps p es p' →
  ready p' ≠ Loading ∧ nodes p' = nodes p ∧ console p' = console p ∧ Parsed ∉ es.
Proof.
  intros Hr Hsteps. induction Hsteps as [|p e p' es p'' Hstep _ IH].
  { split_and!; [done..|apply not_elem_of_nil]. }
  destruct (step_late p e p' Hr Hstep) as (Hr'&Hn&Hc).
  destruct (IH Hr') as (?&->&->&?). split_and!; [done..|].
  apply not_elem_of_cons. split; [|done]. intros <-. by inversion Hstep.
Qed.

End runs.

(** ** The properties of the runs *)

Section claims.
Implicit Types (p : page) (e : event) (es : list event) (c : nat) (h : gmap nat Dom.node).

Lemma example_page_initial : initial example_page.
Proof. split_and!; [apply example_page_wf|done..]. Qed.

Lemma listener_result_looped p :
  page_wf p →
  ∃ l, Dom.querySelectorAll (nodes p) (document p) badge_selector = Some l ∧
       looped (nodes p) l (nodes (listener_result p)).
Proof.
  intros Hwf. unfold listener_result.
  destruct (listener_run p Hwf) as (l&h'&Hl&->&Hloop). eauto.
Qed.

(** The number of [Parsed] steps of a run from a page of the invariant. *)
Lemma steps_parsed_count p es p' :
  inv p → steps p es p' →
  length (filter (λ e, e = Parsed) es) ≤ (if decide (ready p = Loading) then 1 else 0).
Proof.
  intros Hinv Hsteps. induction Hsteps as [|p e p' es p'' Hstep Hsteps IH].
  { simpl. case_decide; lia. }
  specialize (IH (step_inv _ _ _ Hinv Hstep)).
  destruct (decide (ready p = Loading)) as [Hr|Hr].
  - destruct (decide (e = Parsed)) as [->|Hne].
    + rewrite filter_cons_True by done. simpl.
      apply step_parsed_inv in Hstep as [_ ->]; [|by destruct Hinv].
      destruct (iter_listener_result_fields (registered p) (set_ready p Interactive))
        as (_&_&_&Hr'); [by destruct Hinv|].
      rewrite decide_False in IH by (by rewrite Hr'). lia.
    + rewrite filter_cons_False by done. case_decide; lia.
  - destruct (steps_late p (e :: es) p'' Hr) as (_&_&_&Hnot); [by eapply steps_cons|].
    assert (filter (λ e, e = Parsed) (e :: es) = []) as ->; [|simpl; lia].
    apply filter_nil_intro. by intros e' He' ->.
Qed.

(** C19. Every page the machine reaches from an initial page is well
    formed, holds listeners for [DOMContentLoaded] only, and has logged at
    most one message per registered listener, none before the parser is
    done: the body of the listener runs at most once per registration. *)
Theorem machine_invariant p es p' : initial p → steps p es p' → inv p'.
Proof. intros Hinit Hsteps. eapply steps_inv_from; eauto using initial_inv. Qed.

Lemma machine_invariant_witness :
  inv (listener_result (parsed_page example_page example_nodes 0)).
Proof.
  eapply (machine_invariant example_page [RunScript 0; Parse example_nodes; Parsed]).
  - apply example_page_initial.
  - apply run_head; [apply example_page_initial|apply example_page_wf].
Defined.

(** C2. One evaluation of the script, in the head or at the end of the
    body, strips every badge of the parsed page exactly once: when the
    parser is done the page is [Interactive], the console holds the one
    message, and every selected element has its text cut by [strip]. *)
Theorem page_load_strips_badges p h c es :
  initial p → page_wf (set_nodes p h) →
  es = [RunScript c; Parse h; Parsed] ∨ es = [Parse h; RunScript c; Parsed] →
  ∃ p' l, steps p es p' ∧ ready p' = Interactive ∧
          console p' = [Str.lit "X"] ∧
          Dom.querySelectorAll h (document p) badge_selector = Some l ∧
          ∀ x t, x ∈ l → Dom.textContent h x = Some (Some t) →
                 Dom.textContent (nodes p') x = Some (Some (Str.strip t)).
Proof.
  intros Hinit Hwf Hes. exists (listener_result (parsed_page p h c)).
  destruct (listener_result_looped (parsed_page p h c) Hwf) as (l&Hl&Hloop).
  destruct (listener_result_fields (parsed_page p h c) Hwf) as (_&Hc&_&_&Hr).
  pose proof Hinit as (Hwf0&Hr0&Hl0&Hc0). exists l.
  split_and!; [|done| |done|apply (looped_stripped _ _ _ Hloop)].
  - destruct Hes as [-> | ->]; [apply run_head|apply run_body]; done.
  - rewrite Hc. simpl. by rewrite Hc0.
Qed.

Lemma page_load_strips_badges_witness :
  ∃ p' l, steps example_page [RunScript 0; Parse example_nodes; Parsed] p' ∧
          ready p' = Interactive ∧ console p' = [Str.lit "X"] ∧
          Dom.querySelectorAll example_nodes (document example_page) badge_selector = Some l ∧
          ∀ x t, x ∈ l → Dom.textContent example_nodes x = Some (Some t) →
                 Dom.textContent (nodes p') x = Some (Some (Str.strip t)).
Proof.
  apply (page_load_strips_badges example_page example_nodes 0);
    [apply example_page_initial|apply example_page_wf|by left].
Defined.

(** C27. The file included twice strips twice: two evaluations of the
    script register two listeners (the function objects differ), both run
    when the parser is done, the console holds two messages, and a badge
    that the second run selects again ends with [strip (strip t)]. *)
Theorem double_inclusion_strips_twice p h c1 c2 :
  initial p → page_wf (set_nodes p h) → c1 ≠ c2 →
  ∃ p' l1 l2,
    steps p [Parse h; RunScript c1; RunScript c2; Parsed] p' ∧
    console p' = [Str.lit "X"; Str.lit "X"] ∧
    Dom.querySelectorAll h (document p) badge_selector = Some l1 ∧
    Dom.querySelectorAll (nodes (listener_result (parsed_twice p h c1 c2)))
                         (document p) badge_selector = Some l2 ∧
    ∀ x t, x ∈ l1 → x ∈ l2 → Dom.textContent h x = Some (Some t) →
           Dom.textContent (nodes p') x = Some (Some (Str.strip (Str.strip t))).
Proof.
  intros Hinit Hwf Hne. set (q := parsed_twice p h c1 c2).
  destruct (listener_result_looped q Hwf) as (l1&Hl1&Hloop1).
  destruct (listener_result_fields q Hwf) as (Hwf1&Hc1&Hd1&_).
  destruct (listener_result_looped _ Hwf1) as (l2&Hl2&Hloop2).
  destruct (listener_result_fields _ Hwf1) as (_&Hc2&_).
  exists (listener_result (listener_result q)), l1, l2.
  rewrite Hd1 in Hl2. split_and!; [by apply run_twice| |exact Hl1|exact Hl2|].
  - rewrite Hc2, Hc1. simpl. by destruct Hinit as (_&_&_&->).
  - intros x t Hx1 Hx2 Ht. apply (looped_stripped _ _ _ Hloop2 x); [done|].
    by apply (looped_stripped _ _ _ Hloop1 x).
Qed.

Lemma double_inclusion_strips_twice_witness :
  ∃ p' l1 l2,
    steps example_page [Parse example_nodes; RunScript 0; RunScript 1; Parsed] p' ∧
    console p' = [Str.lit "X"; Str.lit "X"] ∧
    Dom.querySelectorAll example_nodes (document example_page) badge_selector = Some l1 ∧
    Dom.querySelectorAll (nodes (listener_result (parsed_twice example_page example_nodes 0 1)))
                         (document example_page) badge_selector = Some l2 ∧
    ∀ x t, x ∈ l1 → x ∈ l2 → Dom.textContent example_nodes x = Some (Some t) →
           Dom.textContent (nodes p') x = Some (Some (Str.strip (Str.strip t))).
Proof.
  apply (double_inclusion_strips_twice example_page example_nodes 0 1);
    [apply example_page_initial|apply example_page_wf|done].
Defined.

(** The badge "(5)" of the example page after the two runs: empty. *)
Example double_inclusion_example :
  Dom.textContent
    (nodes (listener_result (listener_result (parsed_twice example_page example_nodes 0 1)))) 4
  = Some (Some []).
Proof. by vm_compute. Qed.

(** C14. Typing: every string of every page the machine reaches (the
    class attributes, the texts, the comments, the console messages, the
    event types of the listeners) is a string of 16-bit code units, when
    the stores the parser builds are. *)
Theorem machine_typed p es p' :
  initial p → page_typed p → Forall event_typed es → steps p es p' → page_typed p'.
Proof. intros Hinit. apply steps_typed. by apply initial_inv. Qed.

Lemma machine_typed_witness :
  page_typed (listener_result (parsed_page example_page example_nodes 0)).
Proof.
  apply (machine_typed example_page [RunScript 0; Parse example_nodes; Parsed]).
  - apply example_page_initial.
  - apply (bool_decide_unpack _). by vm_compute.
  - repeat constructor. apply (bool_decide_unpack _). by vm_compute.
  - apply run_head; [apply example_page_initial|apply example_page_wf].
Defined.

(** A run is decided by its events: two runs of the machine from
    the same page over the same events end in the same page. *)
Theorem steps_deterministic p es p1 p2 : steps p es p1 → steps p es p2 → p1 = p2.
Proof.
  intros Hsteps. revert p2. induction Hsteps as [|p e p' es p'' Hstep _ IH]; intros p2.
  - by inversion 1.
  - inversion 1 as [|? ? q ? ? Hstep2 Hsteps2]; subst.
    apply IH. by rewrite (step_deterministic _ _ _ _ Hstep Hstep2).
Qed.

Lemma steps_deterministic_witness :
  listener_result (parsed_page example_page example_nodes 0) =
    listener_result (parsed_page example_page example_nodes 0).
Proof.
  apply (steps_deterministic example_page [RunScript 0; Parse example_nodes; Parsed]);
    (apply run_head; [apply example_page_initial|apply example_page_wf]).
Defined.

(** C29. [DOMContentLoaded] is dispatched at most once in any run from
    an initial page. *)
Theorem DOMContentLoaded_at_most_once p es p' :
  initial p → steps p es p' → length (filter (λ e, e = Parsed) es) ≤ 1.
Proof.
  intros Hinit Hsteps.
  pose proof (steps_parsed_count p es p' (initial_inv p Hinit) Hsteps).
  case_decide; lia.
Qed.

Lemma DOMContentLoaded_at_most_once_witness :
  length (filter (λ e, e = Parsed) [RunScript 0; Parse example_nodes; Parsed]) ≤ 1.
Proof.
  eapply (DOMContentLoaded_at_most_once example_page).
  - apply example_page_initial.
  - apply run_head; [apply example_page_initial|apply example_page_wf].
Defined.

(** C28. A script evaluated after the parser is done registers a
    listener that never runs: in every run from a page that is not
    [Loading] the store and the console stay as they are, so the badges keep
    their decoration. *)
Theorem late_script_never_runs p es p' :
  ready p ≠ Loading → steps p es p' →
  nodes p' = nodes p ∧ console p' = console p.
Proof. intros Hr Hsteps. by destruct (steps_late p es p' Hr Hsteps) as (_&?&?&_). Qed.

Lemma late_script_never_runs_witness :
  nodes (set_listeners (set_ready example_page Interactive) [Listener DOMContentLoaded 0]) =
    nodes (set_ready example_page Interactive) ∧
  console (set_listeners (set_ready example_page Interactive) [Listener DOMContentLoaded 0]) =
    console (set_ready example_page Interactive).
Proof.
  apply (late_script_never_runs _ [RunScript 0]); [done|].
  eapply steps_cons; [|apply steps_nil].
  apply step_script; [by intros l ?%elem_of_nil|done].
Defined.

(** C36. When the page is [Loading] the parser can always finish: the
    dispatch completes, whatever listeners are registered, and the body of
    the listener has run once for each of them. *)
Theorem parsed_enabled p :
  inv p → ready p = Loading →
  ∃ p', step p Parsed p' ∧ ready p' = Interactive ∧
        console p' = replicate (length (listeners p)) (Str.lit "X").
Proof.
  intros (Hwf&Hall&_&Hload) Hr.
  exists (Nat.iter (registered p) listener_result (set_ready p Interactive)).
  destruct (iter_listener_result_fields (registered p) (set_ready p Interactive))
    as (_&Hc&_&Hr'); [done|].
  split_and!; [|done|].
  - apply step_parsed; [done|]. by rewrite dispatch_run.
  - rewrite Hc. simpl. by rewrite (Hload Hr), (registered_all p Hall).
Qed.

Lemma parsed_enabled_witness :
  ∃ p', step example_page Parsed p' ∧ ready p' = Interactive ∧
        console p' = replicate (length (listeners example_page)) (Str.lit "X").
Proof. apply parsed_enabled; [apply initial_inv, example_page_initial|done]. Defined.

End claims.
