(* ===== verification/Guests.v ===== *)
(** * Sharing the page with other scripts

    A page rarely holds one script.  When the parser is done the browser
    calls every listener registered for [DOMContentLoaded], in the order of
    registration: those of [src/_resources/js/scripts.js] and those of the
    other scripts of the page, the guests.  [Events] has the listeners of
    this file only; here the dispatch is over any listeners: the body of a
    function object is given by [guest], and is the listener of lines 1-12
    when [guest] knows nothing of it.  A listener that was removed since
    the dispatch started is skipped, and an exception of a listener is
    reported and does not stop the dispatch.

    Nothing is known of the code of a guest, so the theorems are under
    assumptions on it, stated once for the section: a [polite] guest
    returns or throws, leaves the page well formed and removes no
    listener; a [quiet] guest also leaves the document alone.  With polite
    guests the dispatch completes and the listener of this file runs on
    the page the earlier guests left, whether or not they threw; with
    quiet guests the store the dispatch leaves is the one the listeners of
    this file make on their own. *)

From stdpp Require Import gmap list option numbers.
From Stdlib Require String.
Import String.StringSyntax.
From S2P Require Import Prelude JsString Store Dom Page Script Events.

(** ** Guests *)

(** What is assumed of the listener of another script: on a well-formed
    page it returns or throws, the page it leaves is well formed, and no
    listener has been removed. *)
Definition polite (code : M page unit) : Prop :=
  ∀ p, page_wf p →
    ∃ p', (code p = Done tt p' ∨ ∃ e, code p = Throw e p') ∧
          page_wf p' ∧ listeners p ⊆ listeners p'.

(** A guest that leaves the document alone: the store and the document
    node are as they were. *)
Definition quiet (code : M page unit) : Prop :=
  ∀ p, page_wf p →
    ∃ p', (code p = Done tt p' ∨ ∃ e, code p = Throw e p') ∧
          nodes p' = nodes p ∧ document p' = document p ∧
          listeners p ⊆ listeners p'.

(** What happens to a page with guests while it loads: the events of
    [Events], and the registration of a listener by another script. *)
Inductive gevent : Type :=
| Own (e : event)
| RunGuest (type : list N) (callback : nat).

#[global] Instance gevent_eq_dec : EqDecision gevent.
Proof. solve_decision. Defined.

(** The evaluations of the script of this file among the events of a run. *)
Definition is_script (e : gevent) : bool :=
  match e with
  | Own (RunScript _) => true
  | _ => false
  end.

(** The listeners of a page that a dispatch of [DOMContentLoaded] calls. *)
Definition called (p : page) : list listener :=
  filter (λ l, l_type l = DOMContentLoaded) (listeners p).

(** ** Dispatch over the listeners of every script *)

Section guests.
Context (guest : nat → option (M page unit)).

(** The body of a function object: the guest's, or that of lines 1-12. *)
Definition code_with (callback : nat) : M page unit :=
  default (code_of callback) (guest callback).

(** Calling a listener of the list taken when the dispatch started: one
    that has been removed since is skipped. *)
Definition invoke_listener (l : listener) : M page unit :=
  λ p, if decide (l ∈ listeners p) then invoke (code_with (l_callback l)) p
       else Done tt p.

Fixpoint invoke_all_with (ls : list listener) : M page unit :=
  match ls with
  | [] => mret tt
  | l :: ls' => invoke_listener l ;; invoke_all_with ls'
  end.

(** [document.dispatchEvent] on a page with guests. *)
Definition dispatch_with (type : list N) : M page unit :=
  λ p, invoke_all_with (filter (λ l, l_type l = type) (listeners p)) p.

(** The listeners of a list that are of this file. *)
Definition ours (ls : list listener) : list listener :=
  filter (λ l, guest (l_callback l) = None) ls.

(** The ready-state machine of [Events] on a page with guests: the script
    of this file registers function objects that are no guest's, another
    script registers a listener of its own, and the end of parsing
    dispatches to all of them. *)
Inductive gstep : page → gevent → page → Prop :=
| gstep_parse p h :
    ready p = Loading → page_wf (set_nodes p h) →
    gstep p (Own (Parse h)) (set_nodes p h)
| gstep_script p c p' :
    guest c = None → (∀ l, l ∈ listeners p → l_callback l ≠ c) →
    script c p = Done tt p' →
    gstep p (Own (RunScript c)) p'
| gstep_guest p type c p' :
    is_Some (guest c) →
    Document.addEventListener type c p = Done tt p' →
    gstep p (RunGuest type c) p'
| gstep_parsed p p' :
    ready p = Loading →
    dispatch_with DOMContentLoaded (set_ready p Interactive) = Done tt p' →
    gstep p (Own Parsed) p'
| gstep_loaded p :
    ready p = Interactive →
    gstep p (Own Loaded) (set_ready p Complete).

Inductive gsteps : page → list gevent → page → Prop :=
| gsteps_nil p : gsteps p [] p
| gsteps_cons p e p' es p'' : gstep p e p' → gsteps p' es p'' → gsteps p (e :: es) p''.

End guests.

(** ** One call *)

Section calls.
Implicit Types (p q : page) (l : listener) (ls : list listener) (c : nat).
Implicit Types (code : M page unit).

Lemma page_wf_ext p q :
  nodes q = nodes p → document q = document p → page_wf p → page_wf q.
Proof. unfold page_wf. by intros -> ->. Qed.

Lemma quiet_polite code : quiet code → polite code.
Proof.
  intros Hq p Hwf. destruct (Hq p Hwf) as (p'&Hrun&Hn&Hd&Hl).
  exists p'. split_and!; [done|by eapply page_wf_ext|done].
Qed.

(** The listener of this file is a polite listener, and never throws. *)
Lemma listener_polite : polite DOMContentLoaded_listener.
Proof.
  intros p Hwf. exists (listener_result p).
  destruct (listener_result_fields p Hwf) as (Hwf'&_&_&Hl&_).
  split_and!; [left; by apply listener_result_run|done|by rewrite Hl].
Qed.

(** An exception of a polite listener is reported: the call returns. *)
Lemma invoke_polite code p :
  polite code → page_wf p →
  ∃ p', invoke code p = Done tt p' ∧ page_wf p' ∧ listeners p ⊆ listeners p'.
Proof.
  intros Hpol Hwf. destruct (Hpol p Hwf) as (p'&[Hrun|[e Hrun]]&Hwf'&Hl);
    exists p'; unfold invoke; by rewrite Hrun.
Qed.

Lemma invoke_quiet code p :
  quiet code → page_wf p →
  ∃ p', invoke code p = Done tt p' ∧ nodes p' = nodes p ∧ document p' = document p ∧
        listeners p ⊆ listeners p'.
Proof.
  intros Hq Hwf. destruct (Hq p Hwf) as (p'&[Hrun|[e Hrun]]&Hn&Hd&Hl);
    exists p'; unfold invoke; by rewrite Hrun.
Qed.

(** What the listener makes of the store depends on the store and on the
    document node only. *)
Lemma listener_result_nodes p q :
  page_wf p → nodes q = nodes p → document q = document p →
  nodes (listener_result q) = nodes (listener_result p).
Proof.
  intros Hwf Hn Hd. pose proof (page_wf_ext p q Hn Hd Hwf) as Hwfq.
  unfold listener_result.
  destruct (listener_run p Hwf) as (l&h'&Hl&->&[Hcut _ _]).
  destruct (listener_run q Hwfq) as (k&h''&Hk&->&[Hcut' _ _]).
  rewrite Hn, Hd in Hk. rewrite Hn in Hcut'. simpl. congruence.
Qed.

Lemma iter_listener_result_document n p :
  page_wf p → document (Nat.iter n listener_result p) = document p.
Proof.
  intros Hwf. induction n as [|n IH]; [done|]. simpl.
  destruct (iter_listener_result_fields n p Hwf) as (Hwf'&_).
  by destruct (listener_result_fields _ Hwf') as (_&_&->&_).
Qed.

Lemma iter_listener_result_nodes n p q :
  page_wf p → nodes q = nodes p → document q = document p →
  nodes (Nat.iter n listener_result q) = nodes (Nat.iter n listener_result p).
Proof.
  intros Hwf Hn Hd.
  assert (nodes (Nat.iter n listener_result q) = nodes (Nat.iter n listener_result p) ∧
          document (Nat.iter n listener_result q) = document (Nat.iter n listener_result p))
    as [? _]; [|done].
  induction n as [|n [IHn IHd]]; [done|]. simpl.
  pose proof (iter_listener_result_fields n p Hwf) as (Hwf'&_).
  split; [by apply listener_result_nodes|].
  destruct (listener_result_fields _ Hwf') as (_&_&->&_).
  destruct (listener_result_fields _ (page_wf_ext _ _ IHn IHd Hwf')) as (_&_&->&_).
  done.
Qed.

End calls.

(** ** The dispatch among polite guests *)

Section polite_guests.
Context (guest : nat → option (M page unit)).
Context (Hpolite : ∀ c code, guest c = Some code → polite code).
Implicit Types (p q : page) (l : listener) (ls : list listener) (c : nat).

Lemma code_with_polite c : polite (code_with guest c).
Proof.
  unfold code_with. destruct (guest c) as [code|] eqn:Hc; [by eapply Hpolite|].
  apply listener_polite.
Qed.

Lemma invoke_listener_polite l p :
  page_wf p →
  ∃ p', invoke_listener guest l p = Done tt p' ∧ page_wf p' ∧ listeners p ⊆ listeners p'.
Proof.
  intros Hwf. unfold invoke_listener. case_decide; [|by exists p].
  by apply invoke_polite; [apply code_with_polite|].
Qed.

Lemma invoke_all_with_cons l ls p p1 :
  invoke_listener guest l p = Done tt p1 →
  invoke_all_with guest (l :: ls) p = invoke_all_with guest ls p1.
Proof. intros Hl. simpl. by rewrite (m_bind_done _ _ _ _ _ Hl). Qed.

(** The dispatch completes, whatever the guests throw. *)
Lemma invoke_all_with_polite ls p :
  page_wf p →
  ∃ p', invoke_all_with guest ls p = Done tt p' ∧ page_wf p' ∧ listeners p ⊆ listeners p'.
Proof.
  revert p. induction ls as [|l ls IH]; intros p Hwf; [by exists p|].
  destruct (invoke_listener_polite l p Hwf) as (p1&Hl&Hwf1&Hsub1).
  destruct (IH p1 Hwf1) as (p'&Hls&Hwf'&Hsub).
  exists p'. rewrite (invoke_all_with_cons _ _ _ _ Hl). split_and!; [done..|].
  by etrans.
Qed.

(** A listener of this file that is still registered when its turn comes
    runs: on the page the listeners before it left, and the dispatch goes
    on from the page it leaves. *)
Lemma invoke_all_with_ours before l after p :
  guest (l_callback l) = None → l ∈ listeners p → page_wf p →
  ∃ p1, invoke_all_with guest before p = Done tt p1 ∧ page_wf p1 ∧
        invoke_all_with guest (before ++ l :: after) p =
          invoke_all_with guest after (listener_result p1).
Proof.
  intros Hl. revert p. induction before as [|b before IH]; intros p Hin Hwf.
  - exists p. split_and!; [done..|]. apply invoke_all_with_cons.
    unfold invoke_listener, code_with, invoke, code_of.
    rewrite decide_True by done. rewrite Hl. simpl.
    by rewrite (listener_result_run p Hwf).
  - destruct (invoke_listener_polite b p Hwf) as (p0&Hb&Hwf0&Hsub0).
    destruct (IH p0 (Hsub0 _ Hin) Hwf0) as (p1&Hrun&Hwf1&Heq).
    exists p1. rewrite <-app_comm_cons, !(invoke_all_with_cons _ _ _ _ Hb). by split_and!.
Qed.

End polite_guests.

(** ** The dispatch among quiet guests *)

Section quiet_guests.
Context (guest : nat → option (M page unit)).
Context (Hquiet : ∀ c code, guest c = Some code → quiet code).
Implicit Types (p q : page) (l : listener) (ls : list listener) (c : nat).

Lemma ours_cons_guest l ls code :
  guest (l_callback l) = Some code → ours guest (l :: ls) = ours guest ls.
Proof. intros Hl. unfold ours. rewrite filter_cons_False; [done|]. by rewrite Hl. Qed.

Lemma ours_cons_ours l ls :
  guest (l_callback l) = None → ours guest (l :: ls) = l :: ours guest ls.
Proof. intros Hl. unfold ours. by rewrite filter_cons_True. Qed.

(** One listener of the list: a guest leaves the store alone, a listener
    of this file cuts the badges once. *)
Lemma invoke_listener_quiet l p :
  page_wf p → l ∈ listeners p →
  ∃ p', invoke_listener guest l p = Done tt p' ∧ page_wf p' ∧
        nodes p' = nodes (Nat.iter (length (ours guest [l])) listener_result p) ∧
        document p' = document p ∧ listeners p ⊆ listeners p'.
Proof.
  intros Hwf Hin. unfold invoke_listener, code_with. rewrite decide_True by done.
  destruct (guest (l_callback l)) as [code|] eqn:Hl.
  - destruct (invoke_quiet code p (Hquiet _ _ Hl) Hwf) as (p'&Hrun&Hn&Hd&Hsub).
    exists p'. rewrite (ours_cons_guest _ _ _ Hl).
    split_and!; [done|by eapply page_wf_ext|done..].
  - destruct (listener_result_fields p Hwf) as (Hwf'&_&Hd&Hls&_).
    exists (listener_result p). rewrite (ours_cons_ours _ _ Hl).
    unfold invoke, code_of. simpl. rewrite (listener_result_run p Hwf).
    split_and!; [done..|by rewrite Hls].
Qed.

(** The store the dispatch leaves is the store the listeners of this file
    make on their own, in as many runs as there are of them. *)
Lemma invoke_all_with_quiet ls p :
  page_wf p → ls ⊆ listeners p →
  ∃ p', invoke_all_with guest ls p = Done tt p' ∧ page_wf p' ∧
        nodes p' = nodes (Nat.iter (length (ours guest ls)) listener_result p) ∧
        document p' = document p.
Proof.
  revert p. induction ls as [|l ls IH]; intros p Hwf Hsub; [by exists p|].
  destruct (invoke_listener_quiet l p Hwf) as (p1&Hl&Hwf1&Hn1&Hd1&Hsub1).
  { apply Hsub, list_elem_of_here. }
  destruct (IH p1 Hwf1) as (p'&Hls&Hwf'&Hn&Hd).
  { intros x Hx. by apply Hsub1, Hsub, list_elem_of_further. }
  exists p'. rewrite (invoke_all_with_cons _ _ _ _ _ Hl).
  split_and!; [done..| |congruence]. rewrite Hn.
  change (l :: ls) with ([l] ++ ls). unfold ours in *.
  rewrite list.filter_app, length_app, Nat.add_comm, Nat.iter_add.
  apply iter_listener_result_nodes;
    [by apply iter_listener_result_fields|done|by rewrite iter_listener_result_document].
Qed.

End quiet_guests.

(** ** The machine while the page loads *)

Section loading.
Context (guest : nat → option (M page unit)).
Implicit Types (p q : page) (e : gevent) (es : list gevent) (l : listener).

Lemma called_snoc p l :
  called (set_listeners p (listeners p ++ [l])) =
    called p ++ filter (λ l, l_type l = DOMContentLoaded) [l].
Proof. unfold called. simpl. apply list.filter_app. Qed.

Lemma ours_app ls1 ls2 : ours guest (ls1 ++ ls2) = ours guest ls1 ++ ours guest ls2.
Proof. apply list.filter_app. Qed.

(** A step before the parser is done keeps the page loading and well
    formed, and an evaluation of the script adds one listener of this file
    to those the dispatch will call. *)
Lemma gstep_loading p e q :
  gstep guest p e q → e ≠ Own Parsed → ready p = Loading → page_wf p →
  ready q = Loading ∧ page_wf q ∧
  length (ours guest (called q)) =
    length (ours guest (called p)) + (if is_script e then 1 else 0).
Proof.
  intros Hstep He Hr Hwf. destruct Hstep as [p h|p c p' Hc Hnew Hrun|p type c p' [code Hc] Hrun| |].
  - split_and!; [done..|]. unfold called. simpl. lia.
  - rewrite script_run in Hrun by done. injection Hrun as <-.
    split_and!; [done..|]. rewrite called_snoc, ours_app, length_app. f_equal.
    rewrite filter_cons_True by done.
    by rewrite filter_nil, (ours_cons_ours guest (Listener DOMContentLoaded c) [] Hc).
  - destruct (decide (Listener type c ∈ listeners p)) as [Hold|Hnew].
    { rewrite addEventListener_old in Hrun by done. injection Hrun as <-.
      split_and!; [done..|]. simpl; lia. }
    rewrite addEventListener_new in Hrun by done. injection Hrun as <-.
    split_and!; [done..|]. rewrite called_snoc, ours_app, length_app. simpl is_script.
    f_equal. destruct (decide (type = DOMContentLoaded)) as [->|Hne].
    + rewrite filter_cons_True by done.
      by rewrite filter_nil, (ours_cons_guest guest (Listener DOMContentLoaded c) [] code Hc).
    + by rewrite filter_cons_False.
  - done.
  - congruence.
Qed.

Lemma gsteps_loading p es q :
  gsteps guest p es q → Own Parsed ∉ es → ready p = Loading → page_wf p →
  ready q = Loading ∧ page_wf q ∧
  length (ours guest (called q)) =
    length (ours guest (called p)) + length (filter is_script es).
Proof.
  induction 1 as [p|p e p' es p'' Hstep _ IH]; intros Hes Hr Hwf.
  { split_and!; [done..|]. simpl. lia. }
  apply not_elem_of_cons in Hes as [He Hes].
  destruct (gstep_loading p e p' Hstep (not_eq_sym He) Hr Hwf) as (Hr'&Hwf'&Hlen).
  destruct (IH Hes Hr' Hwf') as (Hr''&Hwf''&Hlen'). split_and!; [done..|].
  rewrite Hlen', Hlen. destruct (is_script e) eqn:He'.
  - rewrite filter_cons_True by by apply Is_true_true_2. simpl. lia.
  - rewrite filter_cons_False by by apply Is_true_false_2. lia.
Qed.

End loading.

(** ** Without guests the dispatch is that of [Events] *)

Section no_guest.
Implicit Types (p : page) (ls : list listener).

Lemma invoke_all_with_no_guest ls p :
  page_wf p → ls ⊆ listeners p →
  invoke_all_with (λ _, None) ls p = invoke_all ls p.
Proof.
  intros Hwf Hsub. rewrite invoke_all_run by done.
  revert p Hwf Hsub. induction ls as [|l ls IH]; intros p Hwf Hsub; [done|].
  destruct (listener_result_fields p Hwf) as (Hwf'&_&_&Hls&_).
  rewrite (invoke_all_with_cons _ l ls p (listener_result p)).
  - rewrite IH; [|done|].
    + f_equal. symmetry. apply (Nat.iter_succ_r (length ls) listener_result p).
    + rewrite Hls. intros x Hx. by apply Hsub, list_elem_of_further.
  - unfold invoke_listener, code_with, invoke, code_of. simpl.
    rewrite decide_True by apply Hsub, list_elem_of_here.
    by rewrite (listener_result_run p Hwf).
Qed.

Lemma dispatch_with_no_guest type p :
  page_wf p → dispatch_with (λ _, None) type p = dispatchEvent type p.
Proof.
  intros Hwf. apply invoke_all_with_no_guest; [done|].
  intros l Hl. by apply list_elem_of_filter in Hl as [_ ?].
Qed.

(** A step of the machine of [Events] is a step of the machine with
    guests, when there is none. *)
Lemma step_gstep p e q :
  page_wf p → step p e q → gstep (λ _, None) p (Own e) q.
Proof.
  intros Hwf. destruct 1 as [p h|p c p'|p p' Hr Hrun|p].
  - by apply gstep_parse.
  - by apply gstep_script.
  - apply gstep_parsed; [done|]. by rewrite dispatch_with_no_guest.
  - by apply gstep_loaded.
Qed.

End no_guest.

(** ** A page with two guests *)

(** Two guests: the listener 7 throws at once, the listener 8 logs a
    message. *)
Definition example_guest (c : nat) : option (M page unit) :=
  match c with
  | 7 => Some (m_throw TypeError)
  | 8 => Some (Console.log (Str.lit "hi"))
  | _ => None
  end.

(** The example page with three listeners: a guest that throws, the
    listener of this file, a guest that logs. *)
Definition shared_page : page :=
  set_listeners example_page
    [Listener DOMContentLoaded 7; Listener DOMContentLoaded 0; Listener DOMContentLoaded 8].

(** A guest that removes every listener of the document. *)
Definition rude_guest (c : nat) : option (M page unit) :=
  match c with
  | 7 => Some (m_modify (λ p, set_listeners p []))
  | _ => None
  end.

Lemma example_guest_quiet c code : example_guest c = Some code → quiet code.
Proof.
  do 9 (try (destruct c as [|c]; try done)); intros [= <-] p _.
  - exists p. split_and!; [right; by exists TypeError|done..].
  - exists (set_console p (console p ++ [Str.lit "hi"])). by split_and!; [left|..].
Qed.

Lemma shared_page_wf : page_wf shared_page.
Proof. apply example_page_wf. Qed.

(** The guest that throws does not stop the dispatch: both messages are
    logged and the badges are cut once. *)
Example shared_page_dispatch :
  ∃ p', dispatch_with example_guest DOMContentLoaded shared_page = Done tt p' ∧
        console p' = [Str.lit "X"; Str.lit "hi"] ∧
        nodes p' = nodes (listener_result example_page).
Proof. eexists. split; [by vm_compute|]. split; by vm_compute. Qed.

(** A guest that removes the listeners before their turn: the listener of
    this file is skipped and the badges keep their decoration. *)
Example rude_guest_dispatch :
  ∃ p', dispatch_with rude_guest DOMContentLoaded shared_page = Done tt p' ∧
        console p' = [] ∧ nodes p' = nodes example_page.
Proof. eexists. split; [by vm_compute|]. split; by vm_compute. Qed.

(** ** What the listener can rely on among guests *)

Section claims.
Context (guest : nat → option (M page unit)).
Implicit Types (p : page) (l : listener) (before after : list listener).

(** C20. An exception of another script does not keep the badges from
    being cut.  Among polite guests (each returns or throws, leaves the
    page well formed and removes no listener) the dispatch of
    [DOMContentLoaded] completes, and a listener of this file that is
    registered runs when its turn comes: on the page the listeners before
    it left, where it completes as on any well-formed page, and the
    dispatch goes on from the page it leaves. *)
Theorem dispatch_among_guests p before l after :
  (∀ c code, guest c = Some code → polite code) →
  page_wf p →
  filter (λ l, l_type l = DOMContentLoaded) (listeners p) = before ++ l :: after →
  guest (l_callback l) = None →
  ∃ p1 p', invoke_all_with guest before p = Done tt p1 ∧ page_wf p1 ∧
           DOMContentLoaded_listener p1 = Done tt (listener_result p1) ∧
           invoke_all_with guest after (listener_result p1) = Done tt p' ∧
           dispatch_with guest DOMContentLoaded p = Done tt p' ∧ page_wf p'.
Proof.
  intros Hpolite Hwf Hls Hl.
  assert (l ∈ listeners p) as Hin.
  { eapply (list_elem_of_filter (λ l, l_type l = DOMContentLoaded)).
    rewrite Hls. apply elem_of_app. right. apply list_elem_of_here. }
  destruct (invoke_all_with_ours guest Hpolite before l after p Hl Hin Hwf)
    as (p1&Hbefore&Hwf1&Hall).
  destruct (listener_result_fields p1 Hwf1) as (Hwf2&_).
  destruct (invoke_all_with_polite guest Hpolite after _ Hwf2) as (p'&Hafter&Hwf'&_).
  exists p1, p'. unfold dispatch_with. rewrite Hls, Hall.
  split_and!; [done|done|by apply listener_result_run|done|done|done].
Qed.

(** Guests that leave the document alone do not disturb the cut: among
    quiet guests, registered before or after and whether they throw or
    not, the dispatch of [DOMContentLoaded] completes and the store it
    leaves is the one the listeners of this file make on their own, one
    run for each of them that is registered. *)
Theorem guests_do_not_disturb p :
  (∀ c code, guest c = Some code → quiet code) →
  page_wf p →
  ∃ p', dispatch_with guest DOMContentLoaded p = Done tt p' ∧ page_wf p' ∧
        nodes p' =
          nodes (Nat.iter
                   (length (ours guest
                      (filter (λ l, l_type l = DOMContentLoaded) (listeners p))))
                   listener_result p).
Proof.
  intros Hquiet Hwf.
  destruct (invoke_all_with_quiet guest Hquiet
              (filter (λ l, l_type l = DOMContentLoaded) (listeners p)) p Hwf)
    as (p'&Hrun&Hwf'&Hn&_); [|by exists p'].
  intros l Hl. by apply list_elem_of_filter in Hl as [_ ?].
Qed.

(** C21. Page load among guests that leave the document alone.  From a
    page as the browser creates it, whatever the order in which the parser
    builds the page, the script of this file is evaluated and other
    scripts register their listeners, the parser can finish, and the store
    the dispatch leaves is the one the listener of this file makes of the
    parsed page, one run for each evaluation of the script: with one
    evaluation every badge is cut exactly once, whether the guests are
    registered before or after, and whether they throw or not. *)
Theorem page_load_among_guests p es q :
  (∀ c code, guest c = Some code → quiet code) →
  initial p → gsteps guest p es q → Own Parsed ∉ es →
  ∃ p', gstep guest q (Own Parsed) p' ∧ page_wf p' ∧
        nodes p' = nodes (Nat.iter (length (filter is_script es)) listener_result q).
Proof.
  intros Hquiet (Hwf&Hr&Hls&_) Hsteps Hes.
  destruct (gsteps_loading guest p es q Hsteps Hes Hr Hwf) as (Hr'&Hwf'&Hlen).
  unfold called at 2 in Hlen. rewrite Hls in Hlen. simpl in Hlen.
  destruct (invoke_all_with_quiet guest Hquiet (called q) (set_ready q Interactive))
    as (p'&Hrun&Hwf''&Hn&_); [done| |].
  { intros l Hl. by apply list_elem_of_filter in Hl as [_ ?]. }
  exists p'. split_and!; [by apply gstep_parsed|done|].
  rewrite Hn, Hlen. by apply iter_listener_result_nodes.
Qed.

End claims.

Lemma shared_page_gsteps :
  gsteps example_guest example_page
    [RunGuest DOMContentLoaded 7; Own (RunScript 0); RunGuest DOMContentLoaded 8]
    shared_page.
Proof.
  eapply gsteps_cons.
  { apply gstep_guest; [by eexists|]. apply addEventListener_new, not_elem_of_nil. }
  eapply gsteps_cons.
  { apply gstep_script; [done| |apply script_run];
      intros l [->|[]%elem_of_nil]%elem_of_cons; done. }
  eapply gsteps_cons; [|apply gsteps_nil].
  apply gstep_guest; [by eexists|]. apply addEventListener_new.
  apply (bool_decide_unpack _). by vm_compute.
Qed.

Lemma page_load_among_guests_witness :
  ∃ p', gstep example_guest shared_page (Own Parsed) p' ∧ page_wf p' ∧
        nodes p' =
          nodes (Nat.iter
                   (length (filter is_script
                      [RunGuest DOMContentLoaded 7; Own (RunScript 0);
                       RunGuest DOMContentLoaded 8]))
                   listener_result shared_page).
Proof.
  apply (page_load_among_guests example_guest example_page);
    [apply example_guest_quiet|apply example_page_initial|apply shared_page_gsteps|].
  apply (bool_decide_unpack _). by vm_compute.
Defined.

Lemma dispatch_among_guests_witness :
  ∃ p1 p', invoke_all_with example_guest [Listener DOMContentLoaded 7] shared_page
             = Done tt p1 ∧ page_wf p1 ∧
           DOMContentLoaded_listener p1 = Done tt (listener_result p1) ∧
           invoke_all_with example_guest [Listener DOMContentLoaded 8] (listener_result p1)
             = Done tt p' ∧
           dispatch_with example_guest DOMContentLoaded shared_page = Done tt p' ∧
           page_wf p'.
Proof.
  apply (dispatch_among_guests example_guest shared_page
           [Listener DOMContentLoaded 7] (Listener DOMContentLoaded 0)
           [Listener DOMContentLoaded 8]); [|apply shared_page_wf|done..].
  intros c code Hc. by eapply quiet_polite, example_guest_quiet.
Defined.

Lemma guests_do_not_disturb_witness :
  ∃ p', dispatch_with example_guest DOMContentLoaded shared_page = Done tt p' ∧
        page_wf p' ∧
        nodes p' =
          nodes (Nat.iter
                   (length (ours example_guest
                      (filter (λ l, l_type l = DOMContentLoaded) (listeners shared_page))))
                   listener_result shared_page).
Proof.
  apply (guests_do_not_disturb example_guest shared_page);
    [apply example_guest_quiet|apply shared_page_wf].
Defined.
