(* ===== verification/Tree.v ===== *)
(** * The page as a tree: what the script promises

    The abstract view of a page: an inductive tree, with no node
    identities, no store and no fuel.  On it the effect of the listener of
    [src/_resources/js/scripts.js] is one structural function, [cut]: every
    element that matches the selector, met from the root down, has its
    children replaced by its text with the first and last code unit
    removed.  [Refinement] shows that the listener on the node store
    computes this function.  The laws of this file are what a page author
    can rely on: what stays, what a badge looks like afterwards, and what
    running the listener again does. *)

From stdpp Require Import list option numbers.
From S2P Require Import Prelude JsString Css.

Module Tree.

#[local] Set Warnings "-register-all".

Inductive tree : Type :=
| Doc (ts : list tree)
| Elem (className : list N) (ts : list tree)
| Txt (data : list N)
| Cmt (data : list N).

(** The data of the text nodes of a tree, in tree order. *)
Fixpoint text (t : tree) : list N :=
  match t with
  | Doc ts | Elem _ ts => mjoin (text <$> ts)
  | Txt d => d
  | Cmt _ => []
  end.

(** [node.textContent]: null on a document. *)
Definition textContent (t : tree) : option (list N) :=
  match t with
  | Doc _ => None
  | Elem _ ts => Some (mjoin (text <$> ts))
  | Txt d | Cmt d => Some d
  end.

(** The children the setter of [textContent] gives an element. *)
Definition text_node (s : list N) : list tree :=
  if decide (s = []) then [] else [Txt s].

(** The lists of children the setter makes. *)
Definition is_text_node (ts : list tree) : bool :=
  match ts with
  | [] => true
  | [Txt s] => bool_decide (s ≠ [])
  | _ => false
  end.

(** Whether an element with the class attribute [cn] matches. *)
Definition selected (sel : Css.selector) (cn : list N) : bool :=
  Css.matches sel cn.

(** [cut f sel t]: every element of [t] that matches [sel] and is inside
    no other match has its children replaced by [f] of its text. *)
Fixpoint cut (f : list N → list N) (sel : Css.selector) (t : tree) : tree :=
  match t with
  | Doc ts => Doc (cut f sel <$> ts)
  | Elem cn ts =>
      if selected sel cn then Elem cn (text_node (f (mjoin (text <$> ts))))
      else Elem cn (cut f sel <$> ts)
  | Txt d => Txt d
  | Cmt d => Cmt d
  end.

(** No element of the tree matches. *)
Fixpoint unmatched (sel : Css.selector) (t : tree) : bool :=
  match t with
  | Doc ts => forallb (unmatched sel) ts
  | Elem cn ts => negb (selected sel cn) && forallb (unmatched sel) ts
  | Txt _ | Cmt _ => true
  end.

(** Every matching element holds text only: nothing or one text node. *)
Fixpoint flat (sel : Css.selector) (t : tree) : bool :=
  match t with
  | Doc ts => forallb (flat sel) ts
  | Elem cn ts =>
      if selected sel cn
      then is_text_node ts
      else forallb (flat sel) ts
  | Txt _ | Cmt _ => true
  end.

(** The text of every matching element that is inside no other match. *)
Fixpoint badges (sel : Css.selector) (t : tree) : list (list N) :=
  match t with
  | Doc ts => mjoin (badges sel <$> ts)
  | Elem cn ts =>
      if selected sel cn then [mjoin (text <$> ts)] else mjoin (badges sel <$> ts)
  | Txt _ | Cmt _ => []
  end.

(** Every string of the tree is a string of 16-bit code units. *)
Fixpoint typed (t : tree) : bool :=
  match t with
  | Doc ts => forallb typed ts
  | Elem cn ts => bool_decide (Str.wf cn) && forallb typed ts
  | Txt d | Cmt d => bool_decide (Str.wf d)
  end.

(** ** Induction on trees *)

Section tree_ind.
Context (P : tree → Prop).
Context (Hdoc : ∀ ts, Forall P ts → P (Doc ts)).
Context (Helem : ∀ cn ts, Forall P ts → P (Elem cn ts)).
Context (Htxt : ∀ d, P (Txt d)).
Context (Hcmt : ∀ d, P (Cmt d)).

Fixpoint tree_ind_Forall (t : tree) : P t :=
  match t with
  | Doc ts => Hdoc ts (list_ind (Forall P) (Forall_nil_2 P)
                         (λ t ts IH, Forall_cons_2 P t ts (tree_ind_Forall t) IH) ts)
  | Elem cn ts => Helem cn ts (list_ind (Forall P) (Forall_nil_2 P)
                         (λ t ts IH, Forall_cons_2 P t ts (tree_ind_Forall t) IH) ts)
  | Txt d => Htxt d
  | Cmt d => Hcmt d
  end.

End tree_ind.

(** ** Laws *)

Section laws.
Implicit Types (t : tree) (ts : list tree) (s : list N) (sel : Css.selector).
Implicit Types (f g : list N → list N).

Lemma cut_Elem f sel cn ts :
  cut f sel (Elem cn ts) =
    if selected sel cn then Elem cn (text_node (f (mjoin (text <$> ts))))
    else Elem cn (cut f sel <$> ts).
Proof. reflexivity. Qed.

Lemma text_text_node s : mjoin (text <$> text_node s) = s.
Proof. unfold text_node. case_decide; simpl; [done|by rewrite app_nil_r]. Qed.

Lemma text_node_nil_iff s : text_node s = [] ↔ s = [].
Proof. unfold text_node. by case_decide. Qed.

Lemma is_text_node_text_node s : is_text_node (text_node s) = true.
Proof. unfold text_node. case_decide; simpl; [done|by apply bool_decide_eq_true]. Qed.

Lemma is_text_node_inv ts :
  is_text_node ts = true → ts = text_node (mjoin (text <$> ts)).
Proof.
  destruct ts as [|[| |s|] [|]]; try done. simpl. intros Hs%bool_decide_eq_true.
  unfold text_node. rewrite app_nil_r. by rewrite decide_False.
Qed.

(** Two cuts are the cut by the composition. *)
Lemma cut_cut f g sel t : cut g sel (cut f sel t) = cut (g ∘ f) sel t.
Proof.
  induction t as [ts IH|cn ts IH|d|d] using tree_ind_Forall; simpl; [| |done..].
  - f_equal. rewrite <-list_fmap_compose. by apply fmap_ext_Forall.
  - destruct (selected sel cn) eqn:Hsel; simpl; rewrite Hsel.
    + by rewrite text_text_node.
    + f_equal. rewrite <-list_fmap_compose. by apply fmap_ext_Forall.
Qed.

Lemma cut_iter f sel n t :
  Nat.iter (S n) (cut f sel) t = cut (Nat.iter (S n) f) sel t.
Proof.
  induction n as [|n IH]; [done|].
  change (Nat.iter (S (S n)) (cut f sel) t) with (cut f sel (Nat.iter (S n) (cut f sel) t)).
  by rewrite IH, cut_cut.
Qed.

(** The matches of the result are those of the tree, with the text cut. *)
Lemma badges_cut f sel t : badges sel (cut f sel t) = f <$> badges sel t.
Proof.
  induction t as [ts IH|cn ts IH|d|d] using tree_ind_Forall; simpl; [| |done..].
  - rewrite fmap_join, <-!list_fmap_compose. f_equal. by apply fmap_ext_Forall.
  - destruct (selected sel cn) eqn:Hsel; simpl; rewrite Hsel.
    + by rewrite text_text_node.
    + rewrite fmap_join, <-!list_fmap_compose. f_equal. by apply fmap_ext_Forall.
Qed.

Lemma textContent_cut_selected f sel cn ts :
  selected sel cn = true →
  textContent (cut f sel (Elem cn ts)) = Some (f (mjoin (text <$> ts))).
Proof. intros Hsel. simpl. rewrite Hsel. simpl. by rewrite text_text_node. Qed.

(** The text of a typed tree is a string of code units. *)
Lemma text_wf t : typed t = true → Str.wf (text t).
Proof.
  induction t as [ts IH|cn ts IH|d|d] using tree_ind_Forall; simpl.
  - rewrite forallb_Forall. intros Hts.
    by apply Forall_join, Forall_fmap, (Forall_mp (λ t, typed t = true)).
  - rewrite andb_true_iff, forallb_Forall. intros [_ Hts].
    by apply Forall_join, Forall_fmap, (Forall_mp (λ t, typed t = true)).
  - apply bool_decide_eq_true.
  - by constructor.
Qed.

Lemma texts_wf ts : forallb typed ts = true → Str.wf (mjoin (text <$> ts)).
Proof. apply (text_wf (Doc ts)). Qed.

Lemma text_node_typed s : Str.wf s → forallb typed (text_node s) = true.
Proof.
  intros Hs. unfold text_node. case_decide; simpl; [done|].
  by rewrite bool_decide_eq_true_2.
Qed.

(** A cut that keeps strings typed keeps trees typed. *)
Lemma cut_typed f sel t :
  (∀ s, Str.wf s → Str.wf (f s)) → typed t = true → typed (cut f sel t) = true.
Proof.
  intros Hf. induction t as [ts IH|cn ts IH|d|d] using tree_ind_Forall; simpl; [| |done..].
  - rewrite !forallb_Forall, Forall_fmap. by apply Forall_mp.
  - rewrite andb_true_iff. intros [Hcn Hts]. destruct (selected sel cn); simpl.
    + by rewrite Hcn, text_node_typed by by apply Hf, texts_wf.
    + rewrite Hcn. simpl. revert Hts. rewrite !forallb_Forall, Forall_fmap.
      by apply Forall_mp.
Qed.

End laws.

(** ** What the cut promises *)

Section claims.
Implicit Types (t : tree) (ts : list tree) (s : list N) (sel : Css.selector).
Implicit Types (f : list N → list N).

(** A tree with no matching element is left as it is, whatever the
    cut: the listener changes nothing on a page without badges. *)
Theorem cut_unmatched f sel t : unmatched sel t = true → cut f sel t = t.
Proof.
  induction t as [ts IH|cn ts IH|d|d] using tree_ind_Forall; simpl; [| |done..].
  - rewrite forallb_Forall. intros Hts. f_equal.
    apply fmap_id_Forall. rewrite list.Forall_forall in *. auto.
  - rewrite andb_true_iff, negb_true_iff, forallb_Forall. intros [-> Hts]. f_equal.
    apply fmap_id_Forall. rewrite list.Forall_forall in *. auto.
Qed.

Lemma cut_unmatched_witness :
  cut Str.strip (Css.ClassSelector [98]%N)
      (Doc [Elem [97]%N [Txt [40; 53; 41]%N]; Cmt [99]%N]) =
    Doc [Elem [97]%N [Txt [40; 53; 41]%N]; Cmt [99]%N].
Proof. by apply cut_unmatched. Defined.

(** After a cut every matching element holds text only, nothing or
    one text node: the markup inside a badge is flattened. *)
Theorem cut_flat f sel t : flat sel (cut f sel t) = true.
Proof.
  induction t as [ts IH|cn ts IH|d|d] using tree_ind_Forall; simpl; [| |done..].
  - apply forallb_Forall, Forall_fmap. exact IH.
  - destruct (selected sel cn) eqn:Hsel; simpl; rewrite Hsel.
    + apply is_text_node_text_node.
    + apply forallb_Forall, Forall_fmap. exact IH.
Qed.

(** C34. The exact texts after [n + 1] runs: each outermost badge has
    lost [n + 1] code units on each side, in the order of the page. *)
Theorem badges_after_runs n sel t :
  badges sel (Nat.iter (S n) (cut Str.strip sel) t) =
    (λ s, take (length s - 2 * S n) (drop (S n) s)) <$> badges sel t.
Proof.
  rewrite cut_iter, badges_cut. apply list_fmap_ext. intros _ s _.
  apply Str.strip_iter.
Qed.

(** A badge list ["(5)"], ["((12))"] after two runs. *)
Example badges_after_two_runs :
  badges (Css.ClassSelector [98]%N)
    (Nat.iter 2 (cut Str.strip (Css.ClassSelector [98]%N))
       (Doc [Elem [98]%N [Txt [40; 53; 41]%N];
             Elem [98]%N [Txt [40; 40]%N; Elem [105]%N [Txt [49; 50]%N]; Txt [41; 41]%N]]))
  = [[]; [49; 50]%N].
Proof. by vm_compute. Qed.

End claims.

End Tree.
