(* ===== verification/Refinement.v ===== *)
(** * Refinement: the listener on the store computes the cut of the tree

    [to_tree] reads the tree below a node out of the store; [abstract] is
    the tree of a page.  The theorems relate the two views: the text of a
    node in the store is the text of its tree, and the listener of
    [src/_resources/js/scripts.js], run on the store, leaves the page whose
    tree is [Tree.cut Str.strip] of the tree it started from.  The runs of
    the ready-state machine follow: after [n] calls of the listener the
    tree is the cut by [n] strips. *)

From stdpp Require Import gmap list option numbers.
From Stdlib Require String.
Import String.StringSyntax.
From S2P Require Import Prelude JsString Dom Page Script Events Tree.

(** ** From the store to the tree *)

(** The tree below the node [id]; [None] when the fuel runs out or a node is
    missing. *)
Fixpoint to_tree (fuel : nat) (h : gmap nat Dom.node) (id : nat) : option Tree.tree :=
  match fuel with
  | 0 => None
  | S fuel' =>
      match h !! id with
      | None => None
      | Some (Dom.Document cs) => Tree.Doc <$> mapM (to_tree fuel' h) cs
      | Some (Dom.Element cn cs) => Tree.Elem cn <$> mapM (to_tree fuel' h) cs
      | Some (Dom.Text d) => Some (Tree.Txt d)
      | Some (Dom.Comment d) => Some (Tree.Cmt d)
      end
  end.

(** The tree of a page. *)
Definition abstract (p : page) : option Tree.tree :=
  to_tree (size (nodes p)) (nodes p) (document p).

(** What the listener does to the tree of a page. *)
Definition strip_badges : Tree.tree → Tree.tree := Tree.cut Str.strip badge_selector.

(** ** [to_tree]: fuel, totality, text *)

Section to_tree.
Implicit Types (h : gmap nat Dom.node) (id x c : nat) (f : nat) (t : Tree.tree).

Lemma to_tree_S f h id :
  to_tree (S f) h id =
    match h !! id with
    | None => None
    | Some (Dom.Document cs) => Tree.Doc <$> mapM (to_tree f h) cs
    | Some (Dom.Element cn cs) => Tree.Elem cn <$> mapM (to_tree f h) cs
    | Some (Dom.Text d) => Some (Tree.Txt d)
    | Some (Dom.Comment d) => Some (Tree.Cmt d)
    end.
Proof. reflexivity. Qed.

(** More fuel never changes a result. *)
Lemma to_tree_mono f f' h id t :
  to_tree f h id = Some t → f ≤ f' → to_tree f' h id = Some t.
Proof.
  revert f' id t. induction f as [|f IH]; intros f' id t Ht Hf; [done|].
  destruct f' as [|f']; [lia|]. rewrite to_tree_S in *.
  destruct (h !! id) as [[cs|cn cs|d|d]|]; simplify_option_eq; try done.
  - erewrite mapM_Some_impl; [done| |done]. intros; apply IH; [done|lia].
  - erewrite mapM_Some_impl; [done| |done]. intros; apply IH; [done|lia].
Qed.

(** Where the traversal ends, so does the reading of the tree. *)
Lemma to_tree_preorder f h id l :
  Dom.preorder f h id = Some l → is_Some (to_tree f h id).
Proof.
  revert id l. induction f as [|f IH]; intros id l Hl; [done|].
  rewrite Dom.preorder_S in Hl. rewrite to_tree_S.
  destruct (h !! id) as [nd|]; simplify_option_eq.
  assert (is_Some (mapM (to_tree f h) (Dom.children nd))) as [ts Hts].
  { apply mapM_is_Some_elem_of. intros c Hc.
    destruct (mapM_Some_elem_of_l _ _ _ _ Heqo Hc) as (lc&Hlc&_). eauto. }
  destruct nd; simpl in *; rewrite ?Hts; eauto.
Qed.

Lemma to_tree_total h id :
  Dom.acyclic h → is_Some (h !! id) → is_Some (to_tree (size h) h id).
Proof.
  intros Hac Hid. destruct (Dom.preorder_total h id Hac Hid) as [l Hl].
  by eapply to_tree_preorder.
Qed.

(** The text below a node of the store is the text of its tree. *)
Lemma to_tree_text f h id t :
  to_tree f h id = Some t → Dom.text_of f h id = Some (Tree.text t).
Proof.
  revert id t. induction f as [|f IH]; intros id t Ht; [done|].
  assert (∀ cs ts, mapM (to_tree f h) cs = Some ts →
    ∃ ls, mapM (Dom.preorder f h) cs = Some ls ∧
          mjoin (Dom.text_data h <$> mjoin ls) = mjoin (Tree.text <$> ts)) as Hkids.
  { intros cs ts Hts.
    destruct (mapM_Some_rel (to_tree f h) (Dom.preorder f h)
                (λ t l, mjoin (Dom.text_data h <$> l) = Tree.text t) cs ts)
      as (ls&Hls&HR); [|done|].
    - intros c tc _ Hc. apply IH in Hc. unfold Dom.text_of in Hc.
      destruct (Dom.preorder f h c) as [lc|]; simplify_eq/=. eauto.
    - exists ls. split; [done|]. clear Hts Hls.
      induction HR as [|tc lc ts ls Hc _ IHR]; [done|].
      simpl. by rewrite fmap_app, join_app, Hc, IHR. }
  rewrite to_tree_S in Ht. unfold Dom.text_of. rewrite Dom.preorder_S.
  destruct (h !! id) as [[cs|cn cs|d|d]|] eqn:Hid; simplify_option_eq.
  - destruct (Hkids _ _ Heqo) as (ls&Hpre&Hls).
    change (@mbind option option_bind) with option_bind. rewrite Hpre. simpl.
    unfold Dom.text_data at 1. rewrite Hid. simpl. f_equal. exact Hls.
  - destruct (Hkids _ _ Heqo) as (ls&Hpre&Hls).
    change (@mbind option option_bind) with option_bind. rewrite Hpre. simpl.
    unfold Dom.text_data at 1. rewrite Hid. simpl. f_equal. exact Hls.
  - unfold Dom.text_data. by rewrite Hid, app_nil_r.
  - unfold Dom.text_data. by rewrite Hid.
Qed.

(** [textContent] of an element of the store, read off its tree. *)
Lemma to_tree_textContent f h id cn cs ts :
  Dom.acyclic h → h !! id = Some (Dom.Element cn cs) →
  to_tree f h id = Some (Tree.Elem cn ts) →
  Dom.textContent h id = Some (Some (mjoin (Tree.text <$> ts))).
Proof.
  intros Hac Hid Ht. apply to_tree_text in Ht. unfold Dom.text_of in Ht.
  destruct (Dom.preorder f h id) as [l|] eqn:Hl; simplify_eq/=.
  destruct (Dom.preorder_total h id Hac) as [l' Hl']; [eauto|].
  rewrite (Dom.preorder_fuel_irrel _ _ _ _ _ _ Hl' Hl) in Hl'.
  unfold Dom.textContent, Dom.text_of. rewrite Hid, Hl'. simpl. by rewrite Ht.
Qed.

(** The tree of a typed store is typed. *)
Lemma to_tree_typed f h id t :
  Dom.typed h → to_tree f h id = Some t → Tree.typed t = true.
Proof.
  intros Hty. revert id t. induction f as [|f IH]; intros id t; [done|].
  assert (∀ cs ts, mapM (to_tree f h) cs = Some ts → forallb Tree.typed ts = true)
    as Hkids.
  { intros cs ts Hts. apply forallb_Forall, list.Forall_forall. intros tc Htc.
    destruct (mapM_Some_elem_of_r _ _ _ _ Hts Htc) as (c&_&Hc). eauto. }
  rewrite to_tree_S. destruct (h !! id) as [nd|] eqn:Hid; [|done].
  pose proof (Hty id nd Hid) as Hnd.
  destruct nd as [cs|cn cs|d|d]; intros Ht; simplify_option_eq; simpl in *;
    rewrite ?andb_true_iff, ?bool_decide_eq_true; eauto.
Qed.

End to_tree.

(** ** The loop over the badges, seen on the tree *)

Section simulation.
Context {h h' : gmap nat Dom.node} {l : list nat} {doc : nat}.
Context (Hforest : Dom.forest h).
Context (Hdoc : ∃ cs, h !! doc = Some (Dom.Document cs)).
Context (Hl : Dom.querySelectorAll h doc badge_selector = Some l).
Context (Hloop : looped h l h').
Implicit Types (x c : nat) (f : nat) (t : Tree.tree) (ts : list Tree.tree).

Lemma reach_child x nd c :
  Dom.reach h doc x → h !! x = Some nd → c ∈ Dom.children nd → Dom.reach h doc c.
Proof.
  intros Hr Hx Hc. eapply Dom.reach_trans; [done|].
  eapply Dom.reach_step; [done..|constructor].
Qed.

(** The selected nodes are the elements below the document whose class
    attribute matches. *)
Lemma selected_iff x cn cs :
  Dom.reach h doc x → h !! x = Some (Dom.Element cn cs) →
  x ∈ l ↔ Tree.selected badge_selector cn = true.
Proof using Hforest Hdoc Hl.
  intros Hr Hx. destruct Hforest as [Hac _].
  assert (x ≠ doc) as Hne by (destruct Hdoc; congruence).
  rewrite (Dom.querySelectorAll_elem_of _ _ _ _ _ Hac Hl).
  unfold Dom.node_matches. rewrite Hx. unfold Tree.selected. simpl. tauto.
Qed.

(** A selected element after the loop: its tree holds the cut text only. *)
Lemma to_tree_badge f x cn cs ts :
  h !! x = Some (Dom.Element cn cs) → x ∈ l →
  mapM (to_tree f h) cs = Some ts →
  to_tree (S f) h' x =
    Some (Tree.Elem cn (Tree.text_node (Str.strip (mjoin (Tree.text <$> ts))))).
Proof using Hforest Hloop.
  intros Hx Hin Hts. destruct Hforest as [Hac _].
  assert (to_tree (S f) h x = Some (Tree.Elem cn ts)) as Ht.
  { by rewrite to_tree_S, Hx, Hts. }
  pose proof (to_tree_textContent _ _ _ _ _ _ Hac Hx Ht) as Htext.
  destruct (looped_kids _ _ _ Hloop x cn cs _ Hin Hx Htext) as (kids&Hk&Hleaf).
  rewrite to_tree_S, Hk. destruct Hleaf as [[-> ->]|(tn&->&Hs&Htn)]; [done|].
  unfold Tree.text_node. rewrite decide_False by done.
  destruct f as [|f]; [|simpl; by rewrite Htn].
  destruct cs; [|done]. injection Hts as <-. by destruct Hs.
Qed.

(** The trees of the children, once every child is known to be cut. *)
Lemma to_tree_children f x nd ts :
  (∀ c t, Dom.reach h doc c → to_tree f h c = Some t →
          to_tree f h' c = Some (strip_badges t)) →
  Dom.reach h doc x → h !! x = Some nd →
  mapM (to_tree f h) (Dom.children nd) = Some ts →
  mapM (to_tree f h') (Dom.children nd) = Some (strip_badges <$> ts).
Proof.
  intros IH Hr Hx. apply mapM_Some_fmap. intros c tc Hc. apply IH.
  by eapply reach_child.
Qed.

(** The tree below a node of the page after the loop is the cut of the tree
    below it before, with the same fuel. *)
Lemma to_tree_cut f x t :
  Dom.reach h doc x → to_tree f h x = Some t →
  to_tree f h' x = Some (strip_badges t).
Proof using Hforest Hdoc Hl Hloop.
  revert x t. induction f as [|f IH]; intros x t Hr Ht; [done|].
  pose proof (λ nd ts, to_tree_children f x nd ts IH Hr) as Hkids.
  rewrite to_tree_S in Ht. destruct (h !! x) as [nd|] eqn:Hx; [|done].
  destruct (decide (x ∈ l)) as [Hin|Hout].
  - destruct (Dom.querySelectorAll_element _ _ _ _ _ Hl Hin) as (cn&cs&Hnd).
    assert (nd = Dom.Element cn cs) as -> by congruence.
    destruct (mapM (to_tree f h) cs) as [ts|] eqn:Hts; [|done]. injection Ht as <-.
    rewrite (to_tree_badge f x cn cs ts Hx Hin Hts).
    apply (selected_iff x cn cs Hr Hx) in Hin.
    unfold strip_badges. by rewrite Tree.cut_Elem, Hin.
  - rewrite to_tree_S, (looped_other _ _ _ Hloop) by eauto. rewrite Hx.
    destruct nd as [cs|cn cs|d|d]; [| |by injection Ht as <-..].
    + destruct (mapM (to_tree f h) cs) as [ts|] eqn:Hts; [|done]. injection Ht as <-.
      pose proof (Hkids (Dom.Document cs) ts eq_refl Hts) as Hcut. simpl in Hcut.
      by rewrite Hcut.
    + destruct (mapM (to_tree f h) cs) as [ts|] eqn:Hts; [|done]. injection Ht as <-.
      pose proof (Hkids (Dom.Element cn cs) ts eq_refl Hts) as Hcut. simpl in Hcut.
      rewrite Hcut. unfold strip_badges. rewrite Tree.cut_Elem.
      destruct (Tree.selected badge_selector cn) eqn:Hsel; [|done].
      destruct Hout. by apply (selected_iff x cn cs Hr Hx).
Qed.

End simulation.

(** ** The listener and the machine, seen on the tree *)

Section pages.
Implicit Types (p : page) (t : Tree.tree) (n : nat).

Lemma size_le_is_Some (h h' : gmap nat Dom.node) :
  (∀ y, is_Some (h !! y) → is_Some (h' !! y)) → size h ≤ size h'.
Proof.
  intros Hsub. rewrite <-!size_dom. apply subseteq_size. intros x.
  rewrite !elem_of_dom. apply Hsub.
Qed.

Lemma abstract_total p : page_wf p → is_Some (abstract p).
Proof. intros [[Hac _] [cs Hdoc]]. apply to_tree_total; eauto. Qed.

(** One call of the listener cuts the tree of the page. *)
Lemma listener_abstract p t :
  page_wf p → abstract p = Some t →
  abstract (listener_result p) = Some (strip_badges t).
Proof.
  intros Hwf Ht. pose proof Hwf as [Hf Hdoc].
  destruct (listener_run p Hwf) as (l&h'&Hl&Hrun&Hloop).
  unfold listener_result. rewrite Hrun. unfold abstract. simpl.
  eapply to_tree_mono; [by eapply (to_tree_cut Hf Hdoc Hl Hloop); [constructor|]|].
  apply size_le_is_Some. intros y. by eapply looped_is_Some.
Qed.

(** [n + 1] calls of the listener cut the tree by [n + 1] strips. *)
Lemma iter_listener_abstract n p t :
  page_wf p → abstract p = Some t →
  abstract (Nat.iter (S n) listener_result p) =
    Some (Tree.cut (Nat.iter (S n) Str.strip) badge_selector t).
Proof.
  intros Hwf Ht. induction n as [|n IH]; [by apply listener_abstract|].
  change (Nat.iter (S (S n)) listener_result p)
    with (listener_result (Nat.iter (S n) listener_result p)).
  erewrite listener_abstract; [|by apply iter_listener_result_fields|exact IH].
  unfold strip_badges. by rewrite Tree.cut_cut.
Qed.

End pages.

(** ** Pages with the same tree

    Two well-formed pages are related when they have the same tree,
    whatever the identities of their nodes, their console and their
    listeners.  The relation is a partial equivalence (a page that is not
    well formed is related to none), and the listener respects it: what it
    does to the tree depends on the tree only. *)

Definition same_tree (p q : page) : Prop :=
  page_wf p ∧ page_wf q ∧ abstract p = abstract q.

#[global] Instance same_tree_symmetric : Symmetric same_tree.
Proof. intros p q (?&?&?). by split_and!. Qed.

#[global] Instance same_tree_transitive : Transitive same_tree.
Proof. intros p q r (?&?&?) (?&?&?). split_and!; [done..|congruence]. Qed.

#[global] Instance same_tree_per : RelationClasses.PER same_tree := {}.

#[global] Instance abstract_proper : Proper (same_tree ==> (=)) abstract.
Proof. by intros p q (_&_&?). Qed.

#[global] Instance listener_result_proper :
  Proper (same_tree ==> same_tree) listener_result.
Proof.
  intros p q (Hp&Hq&Hpq). destruct (abstract_total p Hp) as [t Ht].
  split_and!; [by apply listener_result_fields..|].
  rewrite (listener_abstract p t), (listener_abstract q t); congruence.
Qed.

#[global] Instance iter_listener_result_proper n :
  Proper (same_tree ==> same_tree) (Nat.iter n listener_result).
Proof.
  intros p q Hpq. induction n as [|n IH]; [done|]. simpl.
  by apply listener_result_proper.
Qed.

(** Pages with the same tree have the same tree after any number of calls
    of the listener. *)
Lemma same_tree_iter n p q :
  same_tree p q →
  abstract (Nat.iter n listener_result p) = abstract (Nat.iter n listener_result q).
Proof. by intros ->. Qed.

Lemma same_tree_refl p : page_wf p → same_tree p p.
Proof. by intros Hwf. Qed.

(** The tree of a page is the tree of a document. *)
Lemma abstract_Doc p t : page_wf p → abstract p = Some t → ∃ ts, t = Tree.Doc ts.
Proof.
  intros [_ [cs Hdoc]]. unfold abstract. destruct (size (nodes p)) as [|f]; [done|].
  rewrite to_tree_S, Hdoc. intros Ht. apply fmap_Some in Ht as (ts&_&->). eauto.
Qed.

(** ** The refinement theorems *)

Section claims.
Implicit Types (p : page) (t : Tree.tree) (n : nat).

(** The tree of the example page, before and after the listener. *)
Example abstract_example_page :
  abstract example_page =
    Some (Tree.Doc [Tree.Elem [] [
      Tree.Elem (Str.lit "quarto-category") [
        Tree.Txt (Str.lit "News");
        Tree.Elem (Str.lit "quarto-category-count") [Tree.Txt (Str.lit "(5)")]];
      Tree.Elem (Str.lit "x quarto-category-count") [
        Tree.Txt (Str.lit "(");
        Tree.Elem (Str.lit "quarto-category-count") [Tree.Txt (Str.lit "[12]")];
        Tree.Txt (Str.lit ")")];
      Tree.Elem (Str.lit "quarto-category-count") [Tree.Txt (Str.lit "(12)")]]]).
Proof. by vm_compute. Qed.

Example abstract_example_page_after :
  abstract (listener_result example_page) =
    Some (Tree.Doc [Tree.Elem [] [
      Tree.Elem (Str.lit "quarto-category") [
        Tree.Txt (Str.lit "News");
        Tree.Elem (Str.lit "quarto-category-count") [Tree.Txt (Str.lit "5")]];
      Tree.Elem (Str.lit "x quarto-category-count") [Tree.Txt (Str.lit "[12]")];
      Tree.Elem (Str.lit "quarto-category-count") [Tree.Txt (Str.lit "12")]]]).
Proof. by vm_compute. Qed.

(** C5. The listener refines the cut of the tree: on a well-formed page
    it completes, and the tree of the page it leaves is [strip_badges] of
    the tree of the page it started on.  Every outermost badge holds its
    text without the first and last code unit, and nothing else of the page
    changes. *)
Theorem listener_refines p :
  page_wf p →
  ∃ p' t, DOMContentLoaded_listener p = Done tt p' ∧
          abstract p = Some t ∧ abstract p' = Some (strip_badges t).
Proof.
  intros Hwf. destruct (abstract_total p Hwf) as [t Ht].
  exists (listener_result p), t.
  split_and!; [by apply listener_result_run|done|by apply listener_abstract].
Qed.

Lemma listener_refines_witness :
  ∃ p' t, DOMContentLoaded_listener example_page = Done tt p' ∧
          abstract example_page = Some t ∧ abstract p' = Some (strip_badges t).
Proof. apply listener_refines, example_page_wf. Defined.

(** C9. The end of parsing, on the tree: with the listeners of [n]
    evaluations of the script registered, the step [Parsed] is enabled and
    leaves the tree cut by [n] strips; with none registered it leaves the
    tree as it is. *)
Theorem parsed_refines p t :
  inv p → ready p = Loading → abstract p = Some t →
  ∃ p', step p Parsed p' ∧
        abstract p' = Some (match length (listeners p) with
                            | 0 => t
                            | S n => Tree.cut (Nat.iter (S n) Str.strip) badge_selector t
                            end).
Proof.
  intros (Hwf&Hall&_) Hr Ht.
  exists (Nat.iter (registered p) listener_result (set_ready p Interactive)).
  split; [apply step_parsed; [done|by rewrite dispatch_run]|].
  rewrite (registered_all p Hall). simpl registered.
  destruct (length (listeners p)) as [|n]; [done|].
  by apply (iter_listener_abstract n (set_ready p Interactive)).
Qed.

Lemma parsed_refines_witness :
  ∃ p', step (set_listeners example_page [Listener DOMContentLoaded 0; Listener DOMContentLoaded 1])
             Parsed p' ∧
        abstract p' =
          Some (Tree.cut (Nat.iter 2 Str.strip) badge_selector
                  (Tree.Doc [Tree.Elem [] [
                     Tree.Elem (Str.lit "quarto-category") [
                       Tree.Txt (Str.lit "News");
                       Tree.Elem (Str.lit "quarto-category-count") [Tree.Txt (Str.lit "(5)")]];
                     Tree.Elem (Str.lit "x quarto-category-count") [
                       Tree.Txt (Str.lit "(");
                       Tree.Elem (Str.lit "quarto-category-count") [Tree.Txt (Str.lit "[12]")];
                       Tree.Txt (Str.lit ")")];
                     Tree.Elem (Str.lit "quarto-category-count") [Tree.Txt (Str.lit "(12)")]]])).
Proof.
  apply (parsed_refines
           (set_listeners example_page [Listener DOMContentLoaded 0; Listener DOMContentLoaded 1]));
    [|done|by vm_compute].
  split_and!; [apply example_page_wf|by repeat constructor|simpl; lia|done].
Defined.

End claims.
