(* ===== verification/Build.v ===== *)
(** * From the tree to the store

    The converse of [Refinement.to_tree]: [of_tree] lays a tree out in a
    store, numbering the nodes in tree order from a given identity.  The
    store it builds is a forest and reading it back gives the tree, so
    every tree is the tree of a well-formed page and what [Tree] proves of
    trees is about pages the listener of [src/_resources/js/scripts.js] can
    meet. *)

From stdpp Require Import gmap list option numbers.
From Stdlib Require String.
Import String.StringSyntax.
From S2P Require Import Prelude JsString Css Dom Page Script Events Tree Refinement.

(** ** Laying out a tree *)

(** The number of nodes of a tree. *)
Fixpoint count (t : Tree.tree) : nat :=
  match t with
  | Tree.Doc ts | Tree.Elem _ ts => S (sum_list (count <$> ts))
  | Tree.Txt _ | Tree.Cmt _ => 1
  end.

(** The number of nodes of a list of trees. *)
Definition counts (ts : list Tree.tree) : nat := sum_list (count <$> ts).

(** The identities of the roots of a list of trees laid out from [m] on. *)
Fixpoint roots (m : nat) (ts : list Tree.tree) : list nat :=
  match ts with
  | [] => []
  | t :: ts' => m :: roots (m + count t) ts'
  end.

(** The store of the tree [t], its root at [n], its nodes numbered in tree
    order. *)
Fixpoint of_tree (n : nat) (t : Tree.tree) {struct t} : gmap nat Dom.node :=
  let of_children :=
    fix go (m : nat) (ts : list Tree.tree) {struct ts} : gmap nat Dom.node :=
      match ts with
      | [] => ∅
      | t' :: ts' => of_tree m t' ∪ go (m + count t') ts'
      end in
  match t with
  | Tree.Doc ts => <[n := Dom.Document (roots (S n) ts)]> (of_children (S n) ts)
  | Tree.Elem cn ts => <[n := Dom.Element cn (roots (S n) ts)]> (of_children (S n) ts)
  | Tree.Txt d => {[n := Dom.Text d]}
  | Tree.Cmt d => {[n := Dom.Comment d]}
  end.

(** The store of a list of trees, one after the other from [m] on. *)
Fixpoint of_trees (m : nat) (ts : list Tree.tree) : gmap nat Dom.node :=
  match ts with
  | [] => ∅
  | t :: ts' => of_tree m t ∪ of_trees (m + count t) ts'
  end.

(** The page of a tree: the store of the tree with its root at 0, nothing
    logged, no listener. *)
Definition page_of (t : Tree.tree) : page := Page (of_tree 0 t) 0 [] [] Loading.

(** [laid n k h]: the store [h] holds the identities from [n] to
    [n + k - 1], the children of a node follow it inside this range, and no
    node has two parents. *)
Record laid (n k : nat) (h : gmap nat Dom.node) : Prop := {
  laid_dom : ∀ x, is_Some (h !! x) ↔ n ≤ x < n + k;
  laid_kids : ∀ x nd c, h !! x = Some nd → c ∈ Dom.children nd → x < c < n + k;
  laid_tree : Dom.tree_like h;
}.

(** ** The equations of [of_tree] *)

Section equations.
Implicit Types (n m : nat) (t : Tree.tree) (ts : list Tree.tree).

Lemma of_tree_Doc n ts :
  of_tree n (Tree.Doc ts) = <[n := Dom.Document (roots (S n) ts)]> (of_trees (S n) ts).
Proof. reflexivity. Qed.

Lemma of_tree_Elem n cn ts :
  of_tree n (Tree.Elem cn ts) =
    <[n := Dom.Element cn (roots (S n) ts)]> (of_trees (S n) ts).
Proof. reflexivity. Qed.

Lemma count_pos t : 0 < count t.
Proof. destruct t; simpl; lia. Qed.

Lemma counts_cons t ts : counts (t :: ts) = count t + counts ts.
Proof. reflexivity. Qed.

Lemma count_Doc ts : count (Tree.Doc ts) = S (counts ts).
Proof. reflexivity. Qed.

Lemma count_Elem cn ts : count (Tree.Elem cn ts) = S (counts ts).
Proof. reflexivity. Qed.

Lemma roots_range m ts r : r ∈ roots m ts → m ≤ r < m + counts ts.
Proof.
  revert m. induction ts as [|t ts IH]; intros m; [by intros ?%elem_of_nil|].
  cbn [roots]. rewrite counts_cons. pose proof (count_pos t).
  intros [->|Hr%IH]%elem_of_cons; lia.
Qed.

Lemma roots_NoDup m ts : NoDup (roots m ts).
Proof.
  revert m. induction ts as [|t ts IH]; intros m; cbn [roots]; constructor; [|done].
  pose proof (count_pos t). intros Hm%roots_range. lia.
Qed.

End equations.

(** ** Stores that extend a store *)

Section subseteq.
Implicit Types (h : gmap nat Dom.node) (f : nat) (t : Tree.tree).

(** Reading a tree out of a store gives the same in any store that
    extends it. *)
Lemma to_tree_subseteq f h1 h2 id t :
  h1 ⊆ h2 → to_tree f h1 id = Some t → to_tree f h2 id = Some t.
Proof.
  intros Hsub. revert id t. induction f as [|f IH]; intros id t; [done|].
  rewrite !to_tree_S. destruct (h1 !! id) as [nd|] eqn:Hid; [|done].
  rewrite (lookup_weaken _ _ _ _ Hid Hsub).
  destruct nd as [cs|cn cs|d|d]; [| |done..].
  - destruct (mapM (to_tree f h1) cs) as [ts|] eqn:Hts; [|done].
    by rewrite (mapM_Some_impl _ (to_tree f h2) _ _ (λ c tc _, IH c tc) Hts).
  - destruct (mapM (to_tree f h1) cs) as [ts|] eqn:Hts; [|done].
    by rewrite (mapM_Some_impl _ (to_tree f h2) _ _ (λ c tc _, IH c tc) Hts).
Qed.

Lemma to_tree_fuel_irrel f f' h id t t' :
  to_tree f h id = Some t → to_tree f' h id = Some t' → t = t'.
Proof.
  intros Ht Ht'.
  apply (to_tree_mono _ (f `max` f')) in Ht, Ht'; [congruence|lia..].
Qed.

(** Two stores laid out one after the other do not meet. *)
Lemma laid_disjoint n k k' h1 h2 : laid n k h1 → laid (n + k) k' h2 → h1 ##ₘ h2.
Proof.
  intros [Hd1 _ _] [Hd2 _ _]. apply map_disjoint_spec. intros x nd1 nd2 H1 H2.
  assert (n ≤ x < n + k) by (apply Hd1; eauto).
  assert (n + k ≤ x < n + k + k') by (apply Hd2; eauto). lia.
Qed.

(** A store laid out is a forest. *)
Lemma laid_forest n k h : laid n k h → Dom.forest h.
Proof.
  intros [Hdom Hkids Htree]. split; [split|done].
  - intros x nd c Hx Hc. apply Hdom. pose proof (Hkids x nd c Hx Hc).
    assert (n ≤ x < n + k) by (apply Hdom; eauto). lia.
  - exists (λ x, n + k - x). intros x nd c Hx Hc.
    pose proof (Hkids x nd c Hx Hc). lia.
Qed.

End subseteq.

(** ** Laying out: the empty store, one list after another, a node on top *)

(** What [of_trees] builds from [m] on: a store laid out over the nodes of
    the list, in which no root of the list is a child, and from which the
    list reads back. *)
Record built_list (m : nat) (ts : list Tree.tree) (h : gmap nat Dom.node) : Prop := {
  built_laid : laid m (counts ts) h;
  built_roots : ∀ x nd c, h !! x = Some nd → c ∈ Dom.children nd → c ∉ roots m ts;
  built_read : ∀ f, counts ts ≤ f → mapM (to_tree f h) (roots m ts) = Some ts;
}.

(** What [of_tree] builds, wherever it starts. *)
Definition built (t : Tree.tree) : Prop :=
  ∀ n, laid n (count t) (of_tree n t) ∧
       ∀ f, count t ≤ f → to_tree f (of_tree n t) n = Some t.

Section layout.
Implicit Types (h : gmap nat Dom.node) (n m k f : nat).
Implicit Types (t : Tree.tree) (ts : list Tree.tree) (nd : Dom.node).

Lemma laid_node_range n k h x nd : laid n k h → h !! x = Some nd → n ≤ x < n + k.
Proof. intros [Hdom _ _] Hx. apply Hdom. eauto. Qed.

Lemma laid_empty m : laid m 0 ∅.
Proof.
  split.
  - intros x. rewrite lookup_empty, is_Some_alt. lia.
  - intros x nd c Hx. by rewrite lookup_empty in Hx.
  - split; intros p nd; by rewrite lookup_empty.
Qed.

Lemma laid_singleton n nd : Dom.children nd = [] → laid n 1 {[n := nd]}.
Proof.
  intros Hnd. split.
  - intros x. rewrite lookup_singleton_is_Some. lia.
  - intros x nd' c [-> ->]%lookup_singleton_Some. rewrite Hnd. by intros ?%elem_of_nil.
  - split.
    + intros p nd' [-> ->]%lookup_singleton_Some. rewrite Hnd. constructor.
    + intros p nd' q nd'' c [-> ->]%lookup_singleton_Some Hc. rewrite Hnd in Hc.
      by apply elem_of_nil in Hc.
Qed.

(** A node of the union of two stores laid out one after the other is a
    node of one of them. *)
Lemma laid_union_Some n k k' h1 h2 x nd :
  laid n k h1 → laid (n + k) k' h2 → (h1 ∪ h2) !! x = Some nd →
  h1 !! x = Some nd ∧ x < n + k ∨ h2 !! x = Some nd ∧ n + k ≤ x.
Proof.
  intros H1 H2 [Hx|Hx]%lookup_union_Some; [| |by eapply laid_disjoint].
  - left. split; [done|]. by eapply laid_node_range.
  - right. split; [done|]. by eapply laid_node_range.
Qed.

Lemma laid_union n k k' h1 h2 :
  laid n k h1 → laid (n + k) k' h2 → laid n (k + k') (h1 ∪ h2).
Proof.
  intros H1 H2.
  pose proof (λ x nd, laid_union_Some n k k' h1 h2 x nd H1 H2) as Hcase.
  destruct H1 as [Hd1 Hk1 [Hn1 Hp1]], H2 as [Hd2 Hk2 [Hn2 Hp2]]. split.
  - intros x. rewrite lookup_union_is_Some, Hd1, Hd2. lia.
  - intros x nd c [[Hx ?]|[Hx ?]]%Hcase Hc.
    + pose proof (Hk1 x nd c Hx Hc). lia.
    + pose proof (Hk2 x nd c Hx Hc). lia.
  - split.
    + intros p nd [[Hp _]|[Hp _]]%Hcase; eauto.
    + intros p nd q nd' c [[Hp ?]|[Hp ?]]%Hcase Hc [[Hq ?]|[Hq ?]]%Hcase Hc';
        [by eauto| | |by eauto].
      * pose proof (Hk1 _ _ _ Hp Hc). pose proof (Hk2 _ _ _ Hq Hc'). lia.
      * pose proof (Hk2 _ _ _ Hp Hc). pose proof (Hk1 _ _ _ Hq Hc'). lia.
Qed.

Lemma built_list_nil m : built_list m [] ∅.
Proof.
  split; [apply laid_empty| |done]. intros x nd c _ _. apply not_elem_of_nil.
Qed.

Lemma built_list_cons m t ts h1 h2 :
  laid m (count t) h1 → (∀ f, count t ≤ f → to_tree f h1 m = Some t) →
  built_list (m + count t) ts h2 → built_list m (t :: ts) (h1 ∪ h2).
Proof.
  intros H1 Hread [H2 Hroots Hreads].
  pose proof (laid_disjoint _ _ _ _ _ H1 H2) as Hdisj. split.
  - rewrite counts_cons. by apply laid_union.
  - intros x nd c Hx Hc. cbn [roots]. apply not_elem_of_cons.
    destruct (laid_union_Some _ _ _ _ _ _ _ H1 H2 Hx) as [[Hx1 ?]|[Hx2 ?]].
    + pose proof (laid_kids _ _ _ H1 x nd c Hx1 Hc).
      pose proof (laid_node_range _ _ _ _ _ H1 Hx1).
      split; [lia|]. intros ?%roots_range. lia.
    + pose proof (laid_kids _ _ _ H2 x nd c Hx2 Hc). split; [lia|]. eauto.
  - intros f. rewrite counts_cons. intros Hf. cbn [roots]. simpl.
    rewrite (to_tree_subseteq f h1 _ m t); [|by apply map_union_subseteq_l|apply Hread; lia].
    simpl. rewrite (mapM_Some_impl (to_tree f h2) _ _ ts); [done| |apply Hreads; lia].
    intros c tc _. apply to_tree_subseteq. by apply map_union_subseteq_r.
Qed.

Lemma of_trees_built ts : Forall built ts → ∀ m, built_list m ts (of_trees m ts).
Proof.
  induction 1 as [|t ts Ht _ IH]; intros m; [apply built_list_nil|].
  destruct (Ht m). by apply built_list_cons.
Qed.

(** A node on top of a list laid out after it. *)
Lemma laid_node n ts h nd :
  built_list (S n) ts h → Dom.children nd = roots (S n) ts →
  laid n (S (counts ts)) (<[n := nd]> h).
Proof.
  intros [Hlaid Hroots _] Hnd. destruct (Hlaid) as [Hdom Hkids [Hnodup Hparent]].
  assert (∀ x ndx, <[n := nd]> h !! x = Some ndx →
    x = n ∧ ndx = nd ∨ S n ≤ x ∧ h !! x = Some ndx) as Hcase.
  { intros x ndx [[-> ->]|[? Hx]]%lookup_insert_Some; [by left|right].
    split; [|done]. by eapply laid_node_range. }
  split.
  - intros x. rewrite lookup_insert_is_Some, Hdom.
    destruct (decide (n = x)); [|split; [intros [?|[_ ?]]|right]]; lia.
  - intros x ndx c [[-> ->]|[? Hx]]%Hcase Hc.
    + rewrite Hnd in Hc. apply roots_range in Hc. lia.
    + pose proof (Hkids x ndx c Hx Hc). lia.
  - split.
    + intros p ndp [[-> ->]|[? Hp]]%Hcase; [|by eauto]. rewrite Hnd. apply roots_NoDup.
    + intros p ndp q ndq c [[-> ->]|[? Hp]]%Hcase Hc [[-> ->]|[? Hq]]%Hcase Hc';
        [done| | |by eauto].
      * rewrite Hnd in Hc. by destruct (Hroots q ndq c).
      * rewrite Hnd in Hc'. by destruct (Hroots p ndp c).
Qed.

Lemma read_node n ts h nd f :
  built_list (S n) ts h → counts ts ≤ f →
  mapM (to_tree f (<[n := nd]> h)) (roots (S n) ts) = Some ts.
Proof.
  intros [Hlaid _ Hread] Hf. apply (mapM_Some_impl (to_tree f h)); [|by apply Hread].
  intros c tc _. apply to_tree_subseteq, insert_subseteq.
  apply eq_None_not_Some. intros Hn%(laid_dom _ _ _ Hlaid). lia.
Qed.

(** Every tree is laid out by [of_tree], and reads back. *)
Lemma of_tree_built t : built t.
Proof.
  induction t as [ts IH|cn ts IH|d|d] using Tree.tree_ind_Forall; intros n.
  - rewrite of_tree_Doc, count_Doc. pose proof (of_trees_built ts IH (S n)) as Hts.
    split; [by apply laid_node|]. intros [|f] Hf; [lia|].
    rewrite to_tree_S, lookup_insert_eq, (read_node n ts); [done..|lia].
  - rewrite of_tree_Elem, count_Elem. pose proof (of_trees_built ts IH (S n)) as Hts.
    split; [by apply laid_node|]. intros [|f] Hf; [lia|].
    rewrite to_tree_S, lookup_insert_eq, (read_node n ts); [done..|lia].
  - cbn [of_tree count]. split; [by apply laid_singleton|]. intros [|f] Hf; [lia|].
    by rewrite to_tree_S, lookup_singleton_eq.
  - cbn [of_tree count]. split; [by apply laid_singleton|]. intros [|f] Hf; [lia|].
    by rewrite to_tree_S, lookup_singleton_eq.
Qed.

End layout.

(** ** The page of a tree *)

Section pages.
Implicit Types (h : gmap nat Dom.node) (n k : nat) (p : page).
Implicit Types (t : Tree.tree) (ts : list Tree.tree).

(** A store laid out over [k] identities has [k] nodes. *)
Lemma laid_size n k h : laid n k h → size h = k.
Proof.
  intros [Hdom _ _]. rewrite <-size_dom, <-(size_set_seq (C:=gset nat) n k).
  f_equal. apply set_eq. intros x. by rewrite elem_of_dom, elem_of_set_seq.
Qed.

Lemma of_tree_forest n t : Dom.forest (of_tree n t).
Proof. eapply laid_forest, of_tree_built. Qed.

Lemma of_tree_size n t : size (of_tree n t) = count t.
Proof. eapply laid_size, of_tree_built. Qed.

Lemma page_of_wf ts : page_wf (page_of (Tree.Doc ts)).
Proof.
  split; [apply of_tree_forest|]. unfold page_of. cbn [nodes document].
  rewrite of_tree_Doc, lookup_insert_eq. eauto.
Qed.

Lemma abstract_page_of t : abstract (page_of t) = Some t.
Proof.
  unfold abstract, page_of. cbn [nodes document]. rewrite of_tree_size.
  by apply of_tree_built.
Qed.

(** The store of a list of typed trees is typed. *)
Lemma of_trees_typed ts :
  Forall (λ t, ∀ n, Tree.typed t = true → Dom.typed (of_tree n t)) ts →
  ∀ m, forallb Tree.typed ts = true → Dom.typed (of_trees m ts).
Proof.
  induction 1 as [|t ts Ht _ IH]; intros m; simpl; [by intros _ x nd|].
  rewrite andb_true_iff. intros [Ht' Hts] x nd [Hx|[_ Hx]]%lookup_union_Some_raw.
  - by apply (Ht m Ht' x).
  - by apply (IH (m + count t) Hts x).
Qed.

(** The store of a typed tree is typed. *)
Lemma of_tree_typed n t : Tree.typed t = true → Dom.typed (of_tree n t).
Proof.
  revert n. induction t as [ts IH|cn ts IH|d|d] using Tree.tree_ind_Forall;
    intros n; simpl Tree.typed.
  - intros Hts. rewrite of_tree_Doc. apply map_Forall_insert_2; [done|].
    by apply of_trees_typed.
  - rewrite andb_true_iff, bool_decide_eq_true. intros [Hcn Hts].
    rewrite of_tree_Elem. apply map_Forall_insert_2; [done|]. by apply of_trees_typed.
  - rewrite bool_decide_eq_true. intros Hd. by apply map_Forall_singleton.
  - rewrite bool_decide_eq_true. intros Hd. by apply map_Forall_singleton.
Qed.

Lemma page_of_typed t : Tree.typed t = true → page_typed (page_of t).
Proof. intros Ht. split_and!; [by apply of_tree_typed|constructor..]. Qed.

(** A page has the tree of the page built from its tree. *)
Lemma same_tree_page_of p t : page_wf p → abstract p = Some t → same_tree p (page_of t).
Proof.
  intros Hwf Ht. destruct (abstract_Doc p t Hwf Ht) as [ts ->].
  split_and!; [done|apply page_of_wf|by rewrite abstract_page_of].
Qed.

End pages.

(** ** Every tree is a page *)

Section claims.
Implicit Types (n : nat) (p q : page) (t : Tree.tree) (ts : list Tree.tree).

(** Round trip between the two views of a page: the store that
    [of_tree] lays out for a tree, from any identity on, is a forest with
    one node per node of the tree, and reading it back with the fuel
    [abstract] gives a page, the size of the store, returns the tree.  The
    fuel of [abstract] is exactly enough. *)
Theorem of_tree_roundtrip n t :
  Dom.forest (of_tree n t) ∧ size (of_tree n t) = count t ∧
  to_tree (size (of_tree n t)) (of_tree n t) n = Some t.
Proof.
  split_and!; [apply of_tree_forest|apply of_tree_size|].
  rewrite of_tree_size. by apply of_tree_built.
Qed.

(** C15. Every document tree is the tree of a well-formed page, and on
    that page the listener completes and leaves the cut of the tree: the
    function [strip_badges] of trees is what the script computes, on every
    tree and not only on those of the pages at hand. *)
Theorem listener_on_tree ts :
  page_wf (page_of (Tree.Doc ts)) ∧
  abstract (page_of (Tree.Doc ts)) = Some (Tree.Doc ts) ∧
  ∃ p', DOMContentLoaded_listener (page_of (Tree.Doc ts)) = Done tt p' ∧
        abstract p' = Some (strip_badges (Tree.Doc ts)).
Proof.
  pose proof (page_of_wf ts) as Hwf. split_and!; [done|apply abstract_page_of|].
  exists (listener_result (page_of (Tree.Doc ts))).
  split; [by apply listener_result_run|]. by apply listener_abstract, abstract_page_of.
Qed.

(** C24. What the listener does depends on the tree of the page only:
    whatever the identities of the nodes, the console and the listeners of
    a well-formed page, after any number of calls of the listener its tree
    is the tree of the page built from its tree after as many calls. *)
Theorem listener_tree_only n p t :
  page_wf p → abstract p = Some t →
  same_tree (Nat.iter n listener_result p) (Nat.iter n listener_result (page_of t)).
Proof. intros Hwf Ht. by apply iter_listener_result_proper, same_tree_page_of. Qed.

Lemma listener_tree_only_witness :
  same_tree (Nat.iter 2 listener_result example_page)
    (Nat.iter 2 listener_result
       (page_of (Tree.Doc [Tree.Elem [] [
          Tree.Elem (Str.lit "quarto-category") [
            Tree.Txt (Str.lit "News");
            Tree.Elem (Str.lit "quarto-category-count") [Tree.Txt (Str.lit "(5)")]];
          Tree.Elem (Str.lit "x quarto-category-count") [
            Tree.Txt (Str.lit "(");
            Tree.Elem (Str.lit "quarto-category-count") [Tree.Txt (Str.lit "[12]")];
            Tree.Txt (Str.lit ")")];
          Tree.Elem (Str.lit "quarto-category-count") [Tree.Txt (Str.lit "(12)")]]]))).
Proof.
  apply (listener_tree_only 2 example_page); [apply example_page_wf|by vm_compute].
Defined.

(** The example page and the page built from its tree number their nodes
    differently. *)
Example page_of_example :
  nodes (page_of (Tree.Doc [Tree.Elem [98]%N [Tree.Txt [40; 53; 41]%N]; Tree.Cmt [99]%N]))
  = {[0 := Dom.Document [1; 3]; 1 := Dom.Element [98]%N [2];
      2 := Dom.Text [40; 53; 41]%N; 3 := Dom.Comment [99]%N]}.
Proof. by vm_compute. Qed.

End claims.
